(** * Fixed-point GRU engine: a shallow embedding of
      [c_implementation/math/fixed_point_ops.c] and
      [c_implementation/layers/layers.c].

    Conventions of the embedding.
    - An [int16_t] is a [Z] in [[-32768, 32767]]; a C [int] is a [Z] in
      [[-2^31, 2^31 - 1]] (the product of two [int16_t] is "widened" into it).
    - Converting an [int] to [int16_t] (a cast, an initialisation, a
      [return]) wraps modulo 2^16: [to_int16].
    - An operation whose behaviour the C standard leaves undefined (shift by
      a negative amount or by 31 or more, division by zero, overflow of
      [int], access outside an object) yields [Undef] with the kind of
      fault; so does a matrix operation on operands whose shapes do not
      conform, which the specification leaves open.
    - Matrices live in a store, addressed by pointers, so that a result
      buffer can be one of the operands, as it is in [rnn]. *)

From stdpp Require Import base option list gmap numbers.
From Stdlib Require Import ZArith Lia.

Local Open Scope Z_scope.

(** ** Results of possibly undefined computations *)

Inductive undef : Type :=
  | ShiftUB        (* shift amount negative or not less than the width *)
  | DivByZero      (* integer division by zero *)
  | IntOverflow    (* signed overflow in type int *)
  | BadAccess      (* access through a pointer that holds no matrix, or out of bounds *)
  | ShapeMismatch. (* matrix operands whose shapes do not conform *)

Inductive res (A : Type) : Type :=
  | Ok (a : A)
  | Undef (u : undef).

Arguments Ok {A} a.
Arguments Undef {A} u.

#[global] Instance res_ret : MRet res := fun A a => Ok a.
#[global] Instance res_bind : MBind res := fun A B f m =>
  match m with
  | Ok a => f a
  | Undef u => Undef u
  end.

Definition is_ok {A} (r : res A) : bool :=
  match r with Ok _ => true | Undef _ => false end.

(** ** Machine integers *)

Definition INT16_MIN : Z := -32768.
Definition INT16_MAX : Z := 32767.
Definition INT_MIN : Z := -2147483648.
Definition INT_MAX : Z := 2147483647.

Definition in_int16 (z : Z) : Prop := INT16_MIN <= z <= INT16_MAX.
Definition in_int (z : Z) : bool := (INT_MIN <=? z) && (z <=? INT_MAX).

(** Conversion of an [int] to [int16_t]. *)
Definition to_int16 (z : Z) : Z := (z + 32768) mod 65536 - 32768.

(** [1 << s] in type [int]: undefined for a negative [s] and from the
    width of [int] on; [1 << 31] does not fit in [int] either. *)
Definition int_shl1 (s : Z) : res Z :=
  if (0 <=? s) && (s <? 31) then Ok (2 ^ s) else Undef ShiftUB.

(** [a * b] in type [int]. *)
Definition int_mul (a b : Z) : res Z :=
  if in_int (a * b) then Ok (a * b) else Undef IntOverflow.

(** [a / b] in type [int]: truncation toward zero. *)
Definition int_div (a b : Z) : res Z :=
  if b =? 0 then Undef DivByZero
  else if (a =? INT_MIN) && (b =? -1) then Undef IntOverflow
  else Ok (Z.quot a b).

(** ** fixed_point_ops.c *)

Definition fp_add (x y : Z) : Z := to_int16 (x + y).

Definition fp_sub (x y : Z) : Z := to_int16 (x - y).

Definition fp_mul (x y precision : Z) : res Z :=
  prod ← int_mul x y;
  scale ← int_shl1 precision;
  q ← int_div prod scale;
  mret (to_int16 q).

Definition fp_div (x y precision : Z) : res Z :=
  scale ← int_shl1 precision;
  num ← int_mul x scale;
  q ← int_div num y;
  mret (to_int16 q).

Definition fp_neg (x : Z) : Z := to_int16 (-1 * x).

Definition convert_fp (x old_precision new_precision : Z) : res Z :=
  up ← int_shl1 new_precision;
  num ← int_mul x up;
  down ← int_shl1 old_precision;
  q ← int_div num down;
  mret (to_int16 q).

Definition int_to_fp (x precision : Z) : res Z :=
  scale ← int_shl1 precision;
  v ← int_mul x scale;
  mret (to_int16 v).

(** [float_to_fp] takes a [float] and is left out. *)

Definition fp_linear (x precision : Z) : Z := x.

(** The body of the [for] loop of [fp_exp], entered with the loop counter
    [i]; [n] counts the iterations left before [i] reaches
    [POWER_SERIES_TERMS]. *)
Fixpoint fp_exp_loop (n : nat) (i x precision result prev_result acc fact : Z)
  : res Z :=
  match n with
  | O => Ok result
  | S n' =>
      if prev_result =? result then Ok result
      else
        acc' ← fp_mul x acc precision;
        scale ← int_shl1 precision;
        f ← int_mul i scale;
        let factor := to_int16 f in
        fact' ← fp_mul fact factor precision;
        term ← fp_div acc' fact' precision;
        fp_exp_loop n' (i + 1) x precision (fp_add term result) result acc' fact'
  end.

Section Exp.

(** The iteration cap, a macro of [fixed_point_ops.h]. *)
Variable POWER_SERIES_TERMS : Z.

Definition fp_exp (x precision : Z) : res Z :=
  let should_invert := x <? 0 in
  let x := if should_invert then fp_neg x else x in
  scale ← int_shl1 precision;
  let one := to_int16 scale in
  result ← fp_exp_loop (Z.to_nat (POWER_SERIES_TERMS - 1)) 1 x precision
              one 0 one one;
  if should_invert then
    one' ← int_to_fp 1 precision;
    fp_div one' result precision
  else Ok result.

End Exp.

(** The power series as the specification words it: the powers [x^k] and
    the factorials [k!] in fixed point, the terms [x^k / k!], and the
    running sums [1 + x + ... + x^k / k!], all at the scale [one]. *)
Fixpoint exp_power (one x p : Z) (k : nat) : res Z :=
  match k with
  | O => Ok one
  | S k' => a ← exp_power one x p k'; fp_mul x a p
  end.

Fixpoint exp_factorial (one p : Z) (k : nat) : res Z :=
  match k with
  | O => Ok one
  | S k' =>
      f ← exp_factorial one p k';
      i ← int_to_fp (Z.of_nat k) p;
      fp_mul f i p
  end.

Definition exp_term (one x p : Z) (k : nat) : res Z :=
  a ← exp_power one x p k;
  f ← exp_factorial one p k;
  fp_div a f p.

Fixpoint exp_partial_sum (one x p : Z) (k : nat) : res Z :=
  match k with
  | O => Ok one
  | S k' =>
      s ← exp_partial_sum one x p k';
      t ← exp_term one x p k;
      mret (fp_add t s)
  end.

(** The sum before the [k]-th term was added; before the first term the
    code compares with 0. *)
Definition exp_prev_sum (one x p : Z) (k : nat) : res Z :=
  match k with
  | O => Ok 0
  | S k' => exp_partial_sum one x p k'
  end.

(** The running sum stopped changing at step [k]. *)
Definition exp_sum_settled (one x p : Z) (k : nat) : bool :=
  match exp_prev_sum one x p k, exp_partial_sum one x p k with
  | Ok a, Ok b => a =? b
  | _, _ => false
  end.

(** [k!], against which the factorial that [fp_exp] accumulates in [fact]
    is measured. *)
Fixpoint factorial (k : nat) : Z :=
  match k with
  | O => 1
  | S k' => Z.of_nat k * factorial k'
  end.

Definition fp_tanh (x precision : Z) : res Z :=
  let should_invert_sign := x <? 0 in
  let x := if should_invert_sign then fp_neg x else x in
  s8 ← int_shl1 (precision - 3);
  let one_eighth := to_int16 s8 in
  s2 ← int_shl1 (precision - 1);
  let one_half := to_int16 s2 in
  one ← int_to_fp 1 precision;
  x_squared ← fp_mul x x precision;
  n8 ← fp_mul x_squared one_eighth precision;
  let numerator := fp_add one n8 in
  d2 ← fp_mul x_squared one_half precision;
  let denominator := fp_add one d2 in
  rational_factor ← fp_div numerator denominator precision;
  result ← fp_mul x rational_factor precision;
  let result := if should_invert_sign then fp_neg result else result in
  let neg_one := fp_neg one in
  if result >? one then Ok one
  else if result <? neg_one then Ok neg_one
  else Ok result.

(** [fp_tanh] in two stages: the rational approximant
    [x * (1 + x^2/8) / (1 + x^2/2)] on the mirrored argument, which also
    yields the constant [one], and the clipping of the signed result. *)
Definition tanh_rational (x precision : Z) : res (Z * Z) :=
  s8 ← int_shl1 (precision - 3);
  let one_eighth := to_int16 s8 in
  s2 ← int_shl1 (precision - 1);
  let one_half := to_int16 s2 in
  one ← int_to_fp 1 precision;
  x_squared ← fp_mul x x precision;
  n8 ← fp_mul x_squared one_eighth precision;
  let numerator := fp_add one n8 in
  d2 ← fp_mul x_squared one_half precision;
  let denominator := fp_add one d2 in
  rational_factor ← fp_div numerator denominator precision;
  result ← fp_mul x rational_factor precision;
  mret (one, result).

Definition tanh_clip (one result : Z) : Z :=
  let neg_one := fp_neg one in
  if result >? one then one
  else if result <? neg_one then neg_one
  else result.

Definition fp_sigmoid (x precision : Z) : res Z :=
  let should_invert_sign := x <? 0 in
  let x := if should_invert_sign then fp_neg x else x in
  s1 ← int_shl1 precision;
  let one := to_int16 s1 in
  s2 ← int_shl1 (precision - 1);
  let one_half := to_int16 s2 in
  half_x ← fp_mul x one_half precision;
  tanh ← fp_tanh half_x precision;
  result ← fp_mul (fp_add tanh one) one_half precision;
  if should_invert_sign then Ok (to_int16 (one - result)) else Ok result.

(** ** Matrices in memory *)

(** Modelled from the spec: the [matrix] structure, whose declaration is
    not among the sources: "a 2-D ordered array of fixed-point scalars with
    numRows, numCols; row-major layout". The fields are the ones
    [layers.c] reads ([m->data[i]], [m->numRows], [m->numCols]). *)
Record matrix : Type := Matrix {
  data : list Z;
  numRows : Z;
  numCols : Z
}.

(** A [matrix *]: an address, 0 for the null pointer. *)
Abbreviation ptr := N.

(** Modelled from the spec: [NULL_PTR], the "null/sentinel result", and the
    test [isNull] for the "no-bias sentinel"; both are macros of a header
    that is not among the sources. *)
Definition NULL_PTR : ptr := 0%N.
Definition isNull (p : ptr) : bool := (p =? NULL_PTR)%N.

(** Programs read and write a store of matrices and may be undefined. *)
Definition prog (A : Type) : Type := gmap N matrix -> res (A * gmap N matrix).

#[global] Instance prog_ret : MRet prog := fun A a h => Ok (a, h).
#[global] Instance prog_bind : MBind prog := fun A B f m h =>
  match m h with
  | Ok (a, h') => f a h'
  | Undef u => Undef u
  end.

Definition lift {A} (r : res A) : prog A := fun h =>
  match r with
  | Ok a => Ok (a, h)
  | Undef u => Undef u
  end.

Definition load (p : ptr) : prog matrix := fun h =>
  match h !! p with
  | Some m => Ok (m, h)
  | None => Undef BadAccess
  end.

Definition store (p : ptr) (m : matrix) : prog ptr := fun h =>
  match h !! p with
  | Some _ => Ok (p, <[p := m]> h)
  | None => Undef BadAccess
  end.

(** [m->data[i]], read and written. *)
Definition get_data (p : ptr) (i : Z) : prog Z :=
  m ← load p;
  if (0 <=? i) && (i <? Z.of_nat (length (data m))) then
    mret (nth (Z.to_nat i) (data m) 0)
  else lift (Undef BadAccess).

Definition set_data (p : ptr) (i v : Z) : prog ptr :=
  m ← load p;
  if (0 <=? i) && (i <? Z.of_nat (length (data m))) then
    store p (Matrix (<[Z.to_nat i := v]> (data m)) (numRows m) (numCols m))
  else lift (Undef BadAccess).

(** *** The matrix primitives

    Their source is not part of the files at hand; the definitions follow
    section 6 of the specification. Every primitive reads its operands
    before it writes its destination, so a destination may alias an
    operand. Operands whose shapes do not conform are outside the
    specification: [ShapeMismatch]. *)

Fixpoint map_res {A B} (f : A -> res B) (l : list A) : res (list B) :=
  match l with
  | [] => Ok []
  | x :: l' => v ← f x; vs ← map_res f l'; mret (v :: vs)
  end.

Fixpoint map2_res {A B C} (f : A -> B -> res C) (l1 : list A) (l2 : list B)
  : res (list C) :=
  match l1, l2 with
  | x :: l1', y :: l2' => v ← f x y; vs ← map2_res f l1' l2'; mret (v :: vs)
  | _, _ => Ok []
  end.

Definition same_shape (a b : matrix) : bool :=
  (numRows a =? numRows b) && (numCols a =? numCols b).

Definition zeros (rows cols : Z) : matrix :=
  Matrix (replicate (Z.to_nat (rows * cols)) 0) rows cols.

Definition with_data (m : matrix) (d : list Z) : matrix :=
  Matrix d (numRows m) (numCols m).

(** Modelled from the spec: [matrix_allocate], "allocate(rows, cols) ->
    zero-initialized matrix owned by caller". *)
Definition matrix_allocate (rows cols : Z) : prog ptr := fun h =>
  let p := fresh ({[NULL_PTR]} ∪ dom h) in
  Ok (p, <[p := zeros rows cols]> h).

(** Modelled from the spec: [matrix_free], "release the matrix's
    storage". *)
Definition matrix_free (p : ptr) : prog unit := fun h =>
  match h !! p with
  | Some _ => Ok (tt, delete p h)
  | None => Undef BadAccess
  end.

(** Modelled from the spec: row [i] of a row-major matrix, column [j] of
    one, and the fixed-point inner product of a row and a column, each
    product formed by [fp_mul] and the sum accumulated by [fp_add]. *)
Definition mat_row (m : matrix) (i : nat) : list Z :=
  take (Z.to_nat (numCols m)) (drop (i * Z.to_nat (numCols m)) (data m)).

Definition mat_col (m : matrix) (j : nat) : list Z :=
  map (fun k => nth (k * Z.to_nat (numCols m) + j)%nat (data m) 0)
      (seq 0 (Z.to_nat (numRows m))).

Fixpoint dot (precision : Z) (r c : list Z) : res Z :=
  match r, c with
  | x :: r', y :: c' =>
      m ← fp_mul x y precision;
      s ← dot precision r' c';
      mret (fp_add m s)
  | _, _ => Ok 0
  end.

(** Modelled from the spec: the entries of the product [A.B], row by
    row. *)
Definition multiply_data (precision : Z) (a b : matrix) : res (list Z) :=
  map_res (fun ij : nat * nat => dot precision (mat_row a ij.1) (mat_col b ij.2))
          (flat_map (fun i => map (fun j => (i, j)) (seq 0 (Z.to_nat (numCols b))))
                    (seq 0 (Z.to_nat (numRows a)))).

(** Modelled from the spec: [matrix_multiply], "multiply(dst, A, B,
    precision) -> dst := A.B (standard matrix product, fixed-point
    scaled)". *)
Definition matrix_multiply (dst a b : ptr) (precision : Z) : prog ptr :=
  A ← load a; B ← load b; D ← load dst;
  if (numCols A =? numRows B) && (numRows D =? numRows A)
     && (numCols D =? numCols B) then
    d ← lift (multiply_data precision A B);
    store dst (with_data D d)
  else lift (Undef ShapeMismatch).

(** Modelled from the spec: the entries of [A+B], added by [fp_add]. *)
Definition add_data (a b : list Z) : list Z := zip_with fp_add a b.

(** Modelled from the spec: [matrix_add], "add(dst, A, B) -> dst := A+B
    elementwise (same shape required)". *)
Definition matrix_add (dst a b : ptr) : prog ptr :=
  A ← load a; B ← load b; D ← load dst;
  if same_shape A B && same_shape D A then
    store dst (with_data D (add_data (data A) (data B)))
  else lift (Undef ShapeMismatch).

(** Modelled from the spec: the entries of the elementwise product,
    multiplied by [fp_mul]. *)
Definition hadamard_data (precision : Z) (a b : list Z) : res (list Z) :=
  map2_res (fun x y => fp_mul x y precision) a b.

(** Modelled from the spec: [matrix_hadamard], "hadamard(dst, A, B,
    precision) -> dst := A (.) B elementwise". *)
Definition matrix_hadamard (dst a b : ptr) (precision : Z) : prog ptr :=
  A ← load a; B ← load b; D ← load dst;
  if same_shape A B && same_shape D A then
    d ← lift (hadamard_data precision (data A) (data B));
    store dst (with_data D d)
  else lift (Undef ShapeMismatch).

(** Modelled from the spec: the entries scaled by [k] with [fp_mul]. *)
Definition scalar_product_data (precision k : Z) (a : list Z) : res (list Z) :=
  map_res (fun x => fp_mul x k precision) a.

(** Modelled from the spec: [scalar_product], "elementwise scale by a
    fixed-point constant". *)
Definition scalar_product (dst a : ptr) (k precision : Z) : prog ptr :=
  A ← load a; D ← load dst;
  if same_shape D A then
    d ← lift (scalar_product_data precision k (data A));
    store dst (with_data D d)
  else lift (Undef ShapeMismatch).

(** Modelled from the spec: the entries offset by [k] with [fp_add]. *)
Definition scalar_add_data (k : Z) (a : list Z) : list Z :=
  map (fun x => fp_add x k) a.

(** Modelled from the spec: [scalar_add], "elementwise offset by a
    fixed-point constant". *)
Definition scalar_add (dst a : ptr) (k : Z) : prog ptr :=
  A ← load a; D ← load dst;
  if same_shape D A then store dst (with_data D (scalar_add_data k (data A)))
  else lift (Undef ShapeMismatch).

(** Modelled from the spec: the entries mapped through [f]. *)
Definition elementwise_data (f : Z -> Z -> res Z) (precision : Z) (a : list Z)
  : res (list Z) :=
  map_res (fun x => f x precision) a.

(** Modelled from the spec: [apply_elementwise], "map(dst, A, f,
    precision) -> dst[i] := f(A[i], precision)". *)
Definition apply_elementwise (dst a : ptr) (f : Z -> Z -> res Z) (precision : Z)
  : prog ptr :=
  A ← load a; D ← load dst;
  if same_shape D A then
    d ← lift (elementwise_data f precision (data A));
    store dst (with_data D d)
  else lift (Undef ShapeMismatch).

(** Modelled from the spec: [stack], "stack(dst, A, B) -> dst := vertical
    concatenation of A over B". *)
Definition stack (dst a b : ptr) : prog ptr :=
  A ← load a; B ← load b; D ← load dst;
  if (numCols A =? numCols B) && (numCols D =? numCols A)
     && (numRows D =? numRows A + numRows B) then
    store dst (with_data D (data A ++ data B))
  else lift (Undef ShapeMismatch).

(** Modelled from the spec: [matrix_set], "set(dst, k): fill all elements
    with constant k". *)
Definition matrix_set (dst : ptr) (k : Z) : prog ptr :=
  D ← load dst;
  store dst (with_data D (replicate (length (data D)) k)).

(** ** layers.c *)

(** Activation functions, passed as [int16_t (star)(int16_t, int16_t)]. *)
Definition fp_linear_act (x precision : Z) : res Z := Ok (fp_linear x precision).

Definition dense (result input W b : ptr) (activation : Z -> Z -> res Z)
    (precision : Z) : prog ptr :=
  result ← matrix_multiply result W input precision;
  result ← (if negb (isNull b) then matrix_add result result b else mret result);
  apply_elementwise result result activation precision.

Definition apply_gate (result gate first second : ptr) (precision : Z)
  : prog ptr :=
  g ← load gate;
  opp_gate ← matrix_allocate (numRows g) (numCols g);
  neg_one ← lift (int_to_fp (-1) precision);
  scaled ← scalar_product opp_gate gate neg_one precision;
  one ← lift (int_to_fp 1 precision);
  opp_gate ← scalar_add opp_gate scaled one;
  opp_gate ← matrix_hadamard opp_gate second opp_gate precision;
  weighted ← matrix_hadamard result first gate precision;
  result ← matrix_add result weighted opp_gate;
  _ ← matrix_free opp_gate;
  mret result.

(** Modelled from the spec: the parameter structures [GRU] and [TFGRU] of
    [layers.h], which is not among the sources; the fields are the ones
    [layers.c] dereferences. *)
Record GRU : Type := {
  wUpdate : ptr; uUpdate : ptr; bUpdate : ptr;
  wReset : ptr; uReset : ptr; bReset : ptr;
  wCandidate : ptr; uCandidate : ptr; bCandidate : ptr
}.

Record TFGRU : Type := {
  wGates : ptr; bGates : ptr;
  wCandidates : ptr; bCandidates : ptr
}.

Definition apply_gru (result input state : ptr) (gru : GRU) (precision : Z)
  : prog ptr :=
  s ← load state;
  update ← matrix_allocate (numRows s) (numCols s);
  reset ← matrix_allocate (numRows s) (numCols s);
  candidate ← matrix_allocate (numRows s) (numCols s);
  inputUpdate ← matrix_allocate (numRows s) (numCols s);
  inputReset ← matrix_allocate (numRows s) (numCols s);
  inputCandidate ← matrix_allocate (numRows s) (numCols s);
  (* the update state *)
  inputUpdate ← matrix_multiply inputUpdate (uUpdate gru) input precision;
  update ← matrix_multiply update (wUpdate gru) state precision;
  update ← matrix_add update update inputUpdate;
  update ← matrix_add update update (bUpdate gru);
  update ← apply_elementwise update update fp_sigmoid precision;
  (* the reset state *)
  inputReset ← matrix_multiply inputReset (uReset gru) input precision;
  reset ← matrix_multiply reset (wReset gru) state precision;
  reset ← matrix_add reset reset inputReset;
  reset ← matrix_add reset reset (bReset gru);
  reset ← apply_elementwise reset reset fp_sigmoid precision;
  reset ← matrix_hadamard reset state reset precision;
  (* the candidate state *)
  inputCandidate ← matrix_multiply inputCandidate (uCandidate gru) input precision;
  candidate ← matrix_multiply candidate (wCandidate gru) reset precision;
  candidate ← matrix_add candidate candidate inputCandidate;
  candidate ← matrix_add candidate candidate (bCandidate gru);
  candidate ← apply_elementwise candidate candidate fp_tanh precision;
  (* the result *)
  result ← apply_gate result update state candidate precision;
  _ ← matrix_free inputUpdate;
  _ ← matrix_free inputReset;
  _ ← matrix_free inputCandidate;
  _ ← matrix_free update;
  _ ← matrix_free reset;
  _ ← matrix_free candidate;
  mret result.

(** [for (; index < bound; index++) dst->data[index - offset] =
    src->data[index];] with [n] iterations left; returns the final
    [index]. *)
Fixpoint copy_rows (n : nat) (dst src : ptr) (index offset : Z) : prog Z :=
  match n with
  | O => mret index
  | S n' =>
      v ← get_data src index;
      _ ← set_data dst (index - offset) v;
      copy_rows n' dst src (index + 1) offset
  end.

Definition apply_tf_gru (result input state : ptr) (gru : TFGRU) (precision : Z)
  : prog ptr :=
  i ← load input; s ← load state;
  stacked ← matrix_allocate (numRows i + numRows s) (numCols s);
  gates ← matrix_allocate (numRows s * 2) (numCols s);
  candidate ← matrix_allocate (numRows s) (numCols s);
  update ← matrix_allocate (numRows s) (numCols s);
  reset ← matrix_allocate (numRows s) (numCols s);
  (* the gates *)
  stacked ← stack stacked input state;
  gates ← matrix_multiply gates (wGates gru) stacked precision;
  gates ← matrix_add gates gates (bGates gru);
  gates ← apply_elementwise gates gates fp_sigmoid precision;
  (* split the gates into reset and update components *)
  index ← copy_rows (Z.to_nat (numRows s - 0)) reset gates 0 0;
  let offset := index in
  g ← load gates;
  index ← copy_rows (Z.to_nat (numRows g - index)) update gates index offset;
  (* the candidate state *)
  reset ← matrix_hadamard reset state reset precision;
  stacked ← stack stacked input reset;
  candidate ← matrix_multiply candidate (wCandidates gru) stacked precision;
  candidate ← matrix_add candidate candidate (bCandidates gru);
  candidate ← apply_elementwise candidate candidate fp_tanh precision;
  (* the result *)
  result ← apply_gate result update state candidate precision;
  _ ← matrix_free update;
  _ ← matrix_free reset;
  _ ← matrix_free candidate;
  _ ← matrix_free stacked;
  _ ← matrix_free gates;
  mret result.

(** Modelled from the spec: the tags of [enum CellType], "a closed tag
    distinguishing which parameter-set shape and composition algorithm
    applies (GRUCell, TFGRUCell)", numbered in that order; the declaration
    is in [layers.h], which is not among the sources. An [enum] argument
    can hold any [int]. *)
Definition GRUCell : Z := 0.
Definition TFGRUCell : Z := 1.

(** What the [void *cell] argument points to. *)
Inductive cell : Type :=
  | GRUParams (gru : GRU)
  | TFGRUParams (gru : TFGRU).

Definition as_GRU (c : cell) : prog GRU :=
  match c with
  | GRUParams g => mret g
  | TFGRUParams _ => lift (Undef BadAccess)
  end.

Definition as_TFGRU (c : cell) : prog TFGRU :=
  match c with
  | TFGRUParams g => mret g
  | GRUParams _ => lift (Undef BadAccess)
  end.

(** The loop of [rnn] with [n] iterations left, at counter [i]. *)
Fixpoint rnn_loop (n : nat) (i : Z) (state : ptr) (inputs : list ptr)
    (c : cell) (cellType precision : Z) : prog ptr :=
  match n with
  | O => mret state
  | S n' =>
      input ← lift (match inputs !! Z.to_nat i with
                    | Some q => Ok q
                    | None => Undef BadAccess
                    end);
      if cellType =? GRUCell then
        gru ← as_GRU c;
        state ← apply_gru state input state gru precision;
        rnn_loop n' (i + 1) state inputs c cellType precision
      else if cellType =? TFGRUCell then
        gru ← as_TFGRU c;
        state ← apply_tf_gru state input state gru precision;
        rnn_loop n' (i + 1) state inputs c cellType precision
      else mret NULL_PTR
  end.

Definition rnn (result : ptr) (inputs : list ptr) (c : cell)
    (cellType seqLength precision : Z) : prog ptr :=
  let state := result in
  _ ← matrix_set state 0;
  rnn_loop (Z.to_nat seqLength) 0 state inputs c cellType precision.

(** *** The cells as functions of the matrix contents

    What [apply_gate] and [apply_tf_gru] compute, written on the data of
    their operands in the words of the specification: the complement
    [1 - g] as [scalar_add (scalar_product g (-1)) 1], the blend
    [first (.) g + second (.) (1 - g)], and for the fused cell the split of
    the gate block by row index. *)

Definition gate_data (precision : Z) (g first second : list Z) : res (list Z) :=
  neg_one ← int_to_fp (-1) precision;
  scaled ← scalar_product_data precision neg_one g;
  one ← int_to_fp 1 precision;
  let complement := scalar_add_data one scaled in
  b ← hadamard_data precision second complement;
  a ← hadamard_data precision first g;
  mret (add_data a b).

Definition tf_gru_data (precision : Z) (i s wg bg wc bc : matrix)
  : res (list Z) :=
  let hidden := Z.to_nat (numRows s) in
  let stacked := Matrix (data i ++ data s) (numRows i + numRows s) (numCols s) in
  g0 ← multiply_data precision wg stacked;
  gates ← elementwise_data fp_sigmoid precision (add_data g0 (data bg));
  let r := take hidden gates in
  let z := take hidden (drop hidden gates) in
  r_applied ← hadamard_data precision (data s) r;
  let restacked :=
    Matrix (data i ++ r_applied) (numRows i + numRows s) (numCols s) in
  c0 ← multiply_data precision wc restacked;
  c ← elementwise_data fp_tanh precision (add_data c0 (data bc));
  gate_data precision z (data s) c.

(** What [apply_gru] computes on the contents of its operands, in the
    order of the calls of the source: the update gate
    [sigmoid (Wu . s + Uu . i + bu)], the reset gate
    [sigmoid (Wr . s + Ur . i + br)], the candidate
    [tanh (Wc . (s (.) reset) + Uc . i + bc)], and the blend of the state
    and the candidate by the update gate. *)
Definition gru_data (precision : Z) (i s wu uu bu wr ur br wc uc bc : matrix)
  : res (list Z) :=
  iu ← multiply_data precision uu i;
  u0 ← multiply_data precision wu s;
  update ← elementwise_data fp_sigmoid precision
              (add_data (add_data u0 iu) (data bu));
  ir ← multiply_data precision ur i;
  r0 ← multiply_data precision wr s;
  reset ← elementwise_data fp_sigmoid precision
             (add_data (add_data r0 ir) (data br));
  r_applied ← hadamard_data precision (data s) reset;
  ic ← multiply_data precision uc i;
  c0 ← multiply_data precision wc (with_data s r_applied);
  candidate ← elementwise_data fp_tanh precision
                 (add_data (add_data c0 ic) (data bc));
  gate_data precision update (data s) candidate.

(** The gated blend of one entry, on values: [fx_mul] is the value of
    [fp_mul] where it is defined. *)
Definition fx_mul (precision x y : Z) : Z :=
  to_int16 (Z.quot (x * y) (2 ^ precision)).

Definition gate_complement (precision g : Z) : Z :=
  fp_add (fx_mul precision g (- 2 ^ precision)) (2 ^ precision).

Definition gate_blend (precision g first second : Z) : Z :=
  fp_add (fx_mul precision first g)
         (fx_mul precision second (gate_complement precision g)).

Fixpoint zip3_with {A B C D} (f : A -> B -> C -> D)
    (l1 : list A) (l2 : list B) (l3 : list C) : list D :=
  match l1, l2, l3 with
  | x :: l1', y :: l2', z :: l3' => f x y z :: zip3_with f l1' l2' l3'
  | _, _, _ => []
  end.

Definition shape (m : matrix) : Z * Z := (numRows m, numCols m).

(** A matrix whose data array has [numRows * numCols] entries, all of
    them 16-bit. *)
Definition well_formed (m : matrix) : Prop :=
  Z.of_nat (length (data m)) = numRows m * numCols m
  /\ Forall in_int16 (data m).

(** *** The step of the driver

    The tag that goes with the parameters of a cell, the read of
    [inputs[i]], and the body of the loop of [rnn] for those parameters:
    the cell applied with the state as its result buffer. *)

Definition cell_tag (c : cell) : Z :=
  match c with
  | GRUParams _ => GRUCell
  | TFGRUParams _ => TFGRUCell
  end.

Definition nth_input (inputs : list ptr) (i : Z) : res ptr :=
  match inputs !! Z.to_nat i with
  | Some q => Ok q
  | None => Undef BadAccess
  end.

Definition cell_step (c : cell) (state input : ptr) (precision : Z) : prog ptr :=
  match c with
  | GRUParams g => apply_gru state input state g precision
  | TFGRUParams g => apply_tf_gru state input state g precision
  end.

(** The matrix at [q] is not the result buffer and has the given shape. *)
Definition has_shape (h : gmap N matrix) (result q : ptr) (rows cols : Z)
  : Prop :=
  q <> result /\ exists m, h !! q = Some m /\ shape m = (rows, cols).

(** The parameters of a cell are in the store, apart from the result
    buffer, with the shapes that a state of [hidden] rows and an input of
    [n] rows call for; the bias of the fused gates holds one entry per
    row. *)
Definition cell_fits (h : gmap N matrix) (result : ptr) (c : cell)
    (hidden n : Z) : Prop :=
  match c with
  | GRUParams g =>
      has_shape h result (wUpdate g) hidden hidden
      /\ has_shape h result (uUpdate g) hidden n
      /\ has_shape h result (bUpdate g) hidden 1
      /\ has_shape h result (wReset g) hidden hidden
      /\ has_shape h result (uReset g) hidden n
      /\ has_shape h result (bReset g) hidden 1
      /\ has_shape h result (wCandidate g) hidden hidden
      /\ has_shape h result (uCandidate g) hidden n
      /\ has_shape h result (bCandidate g) hidden 1
  | TFGRUParams g =>
      has_shape h result (wGates g) (hidden * 2) (n + hidden)
      /\ (exists m, h !! bGates g = Some m /\ bGates g <> result
            /\ shape m = (hidden * 2, 1)
            /\ Z.of_nat (length (data m)) = hidden * 2)
      /\ has_shape h result (wCandidates g) hidden (n + hidden)
      /\ has_shape h result (bCandidates g) hidden 1
  end.

(** An input of the sequence: a column of [n] rows, not the result
    buffer. *)
Definition input_fits (h : gmap N matrix) (result : ptr) (n : Z) (q : ptr)
  : Prop :=
  q <> result /\ exists m, h !! q = Some m /\ shape m = (n, 1).

(** Entries between -1.0 and 1.0 at the given precision. *)
Definition unit_bounded (precision : Z) (l : list Z) : Prop :=
  Forall (fun v => - 2 ^ precision <= v <= 2 ^ precision) l.

(** ** Evaluation over all 16-bit arguments

    A quicker evaluator of [tanh_rational], with bit operations for the
    narrowing and for the division by [2^p], and a test over a block of
    [2^k] consecutive arguments; they serve the proofs that examine every
    argument. *)

(** [to_int16], by masking. *)
Definition w16 (z : Z) : Z := Z.land (z + 32768) 65535 - 32768.

(** Truncating division by [2^p], by shifting. *)
Definition qpow (a p : Z) : Z :=
  if a <? 0 then - Z.shiftr (- a) p else Z.shiftr a p.

(** The second component of [tanh_rational]; [None] for a zero
    denominator. *)
Definition fast_rational (p x : Z) : option Z :=
  let one := Z.shiftl 1 p in
  let one_eighth := Z.shiftl 1 (p - 3) in
  let one_half := Z.shiftl 1 (p - 1) in
  let x_squared := w16 (qpow (x * x) p) in
  let numerator := w16 (one + w16 (qpow (x_squared * one_eighth) p)) in
  let denominator := w16 (one + w16 (qpow (x_squared * one_half) p)) in
  if denominator =? 0 then None
  else
    let rf := w16 (Z.quot (numerator * one) denominator) in
    Some (w16 (qpow (x * rf) p)).

(** The approximant is not [INT16_MIN], whose opposite is not a 16-bit
    value. *)
Definition not_min_check (p x : Z) : bool :=
  match fast_rational p x with
  | Some r => negb (r =? INT16_MIN)
  | None => true
  end.

(** [f] holds on [[lo, lo + 2^k)]. *)
Fixpoint forall_block (k : nat) (lo : Z) (f : Z -> bool) : bool :=
  match k with
  | O => f lo
  | S k' => forall_block k' lo f && forall_block k' (lo + 2 ^ Z.of_nat k') f
  end.

(** The opposite of a result. *)
Definition res_opp (r : res Z) : res Z :=
  match r with
  | Ok v => Ok (- v)
  | Undef u => Undef u
  end.

(** * Properties *)

(** ** Machine arithmetic *)

Lemma to_int16_id z : in_int16 z -> to_int16 z = z.
Proof.
  unfold in_int16, INT16_MIN, INT16_MAX, to_int16. intros Hz.
  rewrite Z.mod_small; lia.
Qed.

Lemma to_int16_range z : in_int16 (to_int16 z).
Proof.
  unfold in_int16, INT16_MIN, INT16_MAX, to_int16.
  pose proof (Z.mod_pos_bound (z + 32768) 65536). lia.
Qed.

Lemma pow2_bounds p : 0 <= p <= 30 -> 1 <= 2 ^ p <= 1073741824.
Proof.
  intros Hp. split.
  - pose proof (Z.pow_pos_nonneg 2 p). lia.
  - change 1073741824 with (2 ^ 30). apply Z.pow_le_mono_r; lia.
Qed.

Lemma pow2_bounds_15 p : 0 <= p <= 15 -> 1 <= 2 ^ p <= 32768.
Proof.
  intros Hp. split.
  - pose proof (Z.pow_pos_nonneg 2 p). lia.
  - change 32768 with (2 ^ 15). apply Z.pow_le_mono_r; lia.
Qed.

Lemma pow2_bounds_14 p : 0 <= p <= 14 -> 1 <= 2 ^ p <= 16384.
Proof.
  intros Hp. split.
  - pose proof (Z.pow_pos_nonneg 2 p). lia.
  - change 16384 with (2 ^ 14). apply Z.pow_le_mono_r; lia.
Qed.

Lemma pow2_bounds_13 p : 0 <= p <= 13 -> 1 <= 2 ^ p <= 8192.
Proof.
  intros Hp. split.
  - pose proof (Z.pow_pos_nonneg 2 p). lia.
  - change 8192 with (2 ^ 13). apply Z.pow_le_mono_r; lia.
Qed.

Lemma int_shl1_ok s : 0 <= s <= 30 -> int_shl1 s = Ok (2 ^ s).
Proof.
  intros Hs. unfold int_shl1.
  destruct (0 <=? s) eqn:E1; [|lia]. destruct (s <? 31) eqn:E2; [|lia].
  reflexivity.
Qed.

Lemma int_shl1_neg s : s < 0 -> int_shl1 s = Undef ShiftUB.
Proof.
  intros Hs. unfold int_shl1. destruct (0 <=? s) eqn:E1; [lia|]. reflexivity.
Qed.

Lemma int_shl1_wide s : 31 <= s -> int_shl1 s = Undef ShiftUB.
Proof.
  intros Hs. unfold int_shl1. destruct (s <? 31) eqn:E1; [lia|].
  now rewrite andb_false_r.
Qed.

Lemma int_mul_ok a b : INT_MIN <= a * b <= INT_MAX -> int_mul a b = Ok (a * b).
Proof.
  intros H. unfold int_mul, in_int.
  destruct (INT_MIN <=? a * b) eqn:E1; [|lia].
  destruct (a * b <=? INT_MAX) eqn:E2; [|lia]. reflexivity.
Qed.

Lemma int_div_ok a b : b <> 0 -> INT_MIN < a -> int_div a b = Ok (Z.quot a b).
Proof.
  intros Hb Ha. unfold int_div.
  destruct (b =? 0) eqn:E1; [lia|]. destruct (a =? INT_MIN) eqn:E2; [lia|].
  reflexivity.
Qed.

Lemma int16_mul_in_int x y :
  in_int16 x -> in_int16 y -> -1073741824 < x * y <= 1073741824.
Proof. unfold in_int16, INT16_MIN, INT16_MAX. intros Hx Hy. nia. Qed.

Lemma fp_mul_eq x y p :
  in_int16 x -> in_int16 y -> 0 <= p <= 30 ->
  fp_mul x y p = Ok (to_int16 (Z.quot (x * y) (2 ^ p))).
Proof.
  intros Hx Hy Hp. unfold fp_mul.
  pose proof (int16_mul_in_int x y Hx Hy) as Hxy.
  pose proof (pow2_bounds p Hp) as Hpow.
  rewrite int_mul_ok by (unfold INT_MIN, INT_MAX; lia). cbn.
  rewrite int_shl1_ok by lia. cbn.
  rewrite int_div_ok by (unfold INT_MIN; lia). reflexivity.
Qed.

Lemma int16_scale_in_int x p :
  in_int16 x -> 0 <= p <= 15 -> -1073741824 <= x * 2 ^ p <= 1073741824.
Proof.
  unfold in_int16, INT16_MIN, INT16_MAX. intros Hx Hp.
  pose proof (pow2_bounds_15 p Hp). nia.
Qed.

Lemma fp_div_eq x y p :
  in_int16 x -> y <> 0 -> 0 <= p <= 15 ->
  fp_div x y p = Ok (to_int16 (Z.quot (x * 2 ^ p) y)).
Proof.
  intros Hx Hy Hp. unfold fp_div.
  pose proof (int16_scale_in_int x p Hx Hp) as Hs.
  rewrite int_shl1_ok by lia. cbn.
  rewrite int_mul_ok by (unfold INT_MIN, INT_MAX; lia). cbn.
  rewrite int_div_ok by (unfold INT_MIN; lia). reflexivity.
Qed.

Lemma fp_div_zero x p :
  in_int16 x -> 0 <= p <= 15 -> fp_div x 0 p = Undef DivByZero.
Proof.
  intros Hx Hp. unfold fp_div.
  pose proof (int16_scale_in_int x p Hx Hp) as Hs.
  rewrite int_shl1_ok by lia. cbn.
  rewrite int_mul_ok by (unfold INT_MIN, INT_MAX; lia). reflexivity.
Qed.

Lemma int_to_fp_one p : 0 <= p <= 14 -> int_to_fp 1 p = Ok (2 ^ p).
Proof.
  intros Hp. unfold int_to_fp. pose proof (pow2_bounds_14 p Hp).
  rewrite int_shl1_ok by lia. cbn.
  rewrite int_mul_ok by (unfold INT_MIN, INT_MAX; lia). cbn.
  rewrite Z.mul_1_l, to_int16_id; [reflexivity|].
  unfold in_int16, INT16_MIN, INT16_MAX. lia.
Qed.

Lemma int_to_fp_neg_one p : 0 <= p <= 14 -> int_to_fp (-1) p = Ok (- 2 ^ p).
Proof.
  intros Hp. unfold int_to_fp. pose proof (pow2_bounds_14 p Hp).
  rewrite int_shl1_ok by lia. cbn.
  rewrite int_mul_ok by (unfold INT_MIN, INT_MAX; lia). cbn.
  rewrite to_int16_id; [f_equal; lia|].
  unfold in_int16, INT16_MIN, INT16_MAX. lia.
Qed.

Lemma fp_neg_opp x : in_int16 x -> x <> INT16_MIN -> fp_neg x = - x.
Proof.
  unfold in_int16, INT16_MIN, INT16_MAX, fp_neg. intros Hx Hm.
  rewrite to_int16_id; [lia|]. unfold in_int16, INT16_MIN, INT16_MAX. lia.
Qed.

Lemma fp_neg_min : fp_neg INT16_MIN = INT16_MIN.
Proof. reflexivity. Qed.

Lemma fp_mul_one x p :
  in_int16 x -> 0 <= p <= 14 -> fp_mul x (2 ^ p) p = Ok x.
Proof.
  intros Hx Hp. pose proof (pow2_bounds_14 p Hp).
  rewrite fp_mul_eq; [|assumption| |lia].
  - rewrite Z.quot_mul by lia. now rewrite to_int16_id.
  - unfold in_int16, INT16_MIN, INT16_MAX. lia.
Qed.

(** ** Multiplying and dividing back *)

Lemma roundtrip_nonneg x y P :
  0 <= x -> 0 < y -> 0 < P ->
  let q := (x * y) / P in
  let r := (q * P) / y in
  0 <= q /\ 0 <= r <= x /\ (x - r) * y < P + y.
Proof.
  intros Hx Hy HP q r.
  assert (Hq : 0 <= q) by (apply Z.div_pos; nia).
  pose proof (Z.mul_div_le (x * y) P HP) as A1.
  pose proof (Z.mul_succ_div_gt (x * y) P HP) as A2.
  pose proof (Z.mul_div_le (q * P) y Hy) as B1.
  pose proof (Z.mul_succ_div_gt (q * P) y Hy) as B2.
  fold q in A1, A2. fold r in B1, B2.
  assert (Hr : 0 <= r) by (apply Z.div_pos; nia).
  split; [exact Hq|]. split; [split; [exact Hr|]|].
  - apply Z.nlt_ge. intros Hlt.
    assert (y * (x + 1) <= y * r) by (apply Z.mul_le_mono_nonneg_l; lia).
    lia.
  - lia.
Qed.

(** The same with truncating division, for operands of either sign:
    [r] lies between 0 and [x]. *)
Lemma roundtrip_quot x y P :
  0 < P -> y <> 0 ->
  let q := Z.quot (x * y) P in
  let r := Z.quot (q * P) y in
  Z.abs (r - x) * Z.abs y < P + Z.abs y /\ Z.abs r <= Z.abs x /\ 0 <= r * x
  /\ Z.abs q * P <= Z.abs x * Z.abs y.
Proof.
  intros HP Hy q r.
  destruct (roundtrip_nonneg (Z.abs x) (Z.abs y) P) as (Hq & Hr & Hb); [lia..|].
  set (q' := (Z.abs x * Z.abs y) / P) in *.
  set (r' := (q' * P) / Z.abs y) in *.
  pose proof (Z.mul_div_le (Z.abs x * Z.abs y) P HP) as A1. fold q' in A1.
  assert (Eq : q = Z.sgn x * Z.sgn y * q').
  { unfold q, q'. rewrite Z.quot_div by lia.
    rewrite Z.sgn_mul, Z.abs_mul, (Z.sgn_pos P), (Z.abs_eq P) by lia. ring. }
  assert (Er : r = Z.sgn x * r').
  { unfold r. rewrite Eq.
    destruct (Z.eq_dec x 0) as [->|Hx0].
    { cbn. rewrite Z.quot_0_l by lia. reflexivity. }
    replace (Z.sgn x * Z.sgn y * q' * P) with (Z.sgn x * Z.sgn y * (q' * P)) by ring.
    rewrite Z.quot_div by lia.
    unfold r'.
    assert (0 <= q' * P) by lia.
    destruct (Z.eq_dec (q' * P) 0) as [E0|N0].
    { rewrite E0, Z.mul_0_r. change (Z.sgn 0) with 0. change (Z.abs 0) with 0. rewrite !Z.div_0_l by lia. lia. }
    set (m := q' * P) in *.
    rewrite !Z.sgn_mul, !Z.abs_mul, !Z.sgn_sgn.
    rewrite (Z.sgn_pos m), (Z.abs_eq m) by lia.
    assert (H1 : Z.abs (Z.sgn x) = 1) by lia.
    assert (H2 : Z.abs (Z.sgn y) = 1) by lia.
    assert (H3 : Z.sgn y * Z.sgn y = 1) by lia.
    rewrite H1, H2, !Z.mul_1_l.
    replace (Z.sgn x * Z.sgn y * 1 * Z.sgn y) with (Z.sgn x * (Z.sgn y * Z.sgn y)) by ring.
    rewrite H3.
    lia. }
  rewrite Er, Eq.
  destruct (Z.lt_trichotomy x 0) as [Hx|[Hx|Hx]];
  destruct (Z.lt_trichotomy y 0) as [Hy'|[Hy'|Hy']]; try lia;
  first [ rewrite (Z.sgn_neg x) in * by lia
        | rewrite (Z.sgn_pos x) in * by lia
        | (subst x; cbn [Z.sgn] in * ) ];
  first [ rewrite (Z.sgn_neg y) in * by lia
        | rewrite (Z.sgn_pos y) in * by lia ];
  try rewrite (Z.abs_neq x) in * by lia;
  try rewrite (Z.abs_eq x) in * by lia;
  try rewrite (Z.abs_neq y) in * by lia;
  try rewrite (Z.abs_eq y) in * by lia;
  repeat split; try lia.
  all: replace (Z.abs (1 * r' - x)) with (x - r') by lia; lia.
Qed.

(** ** The multiply and divide primitives *)

(** C6 (amended). For 16-bit operands and a precision between 0 and 15,
    [fp_mul] is the quotient of the widened product by [2^precision],
    truncated toward zero and then narrowed back to 16 bits (it is that
    quotient itself whenever the quotient fits in 16 bits); [fp_div] is the
    truncated quotient of [x * 2^precision] by [y], narrowed in the same
    way, and it is undefined exactly when [y] is zero; multiplying by the
    fixed-point one [2^precision] (precision at most 14) gives [x] back. *)
Theorem fp_mul_fp_div_truncate x y p :
  in_int16 x -> in_int16 y -> 0 <= p <= 15 ->
  fp_mul x y p = Ok (to_int16 (Z.quot (x * y) (2 ^ p)))
  /\ (in_int16 (Z.quot (x * y) (2 ^ p)) ->
      fp_mul x y p = Ok (Z.quot (x * y) (2 ^ p)))
  /\ (y <> 0 -> fp_div x y p = Ok (to_int16 (Z.quot (x * 2 ^ p) y)))
  /\ (y = 0 -> fp_div x y p = Undef DivByZero)
  /\ (p <= 14 -> fp_mul x (2 ^ p) p = Ok x).
Proof.
  intros Hx Hy Hp. repeat split.
  - apply fp_mul_eq; [assumption..|lia].
  - intros Hq. rewrite fp_mul_eq by (try assumption; lia).
    now rewrite to_int16_id.
  - intros Hy0. now apply fp_div_eq.
  - intros ->. now apply fp_div_zero.
  - intros Hp'. apply fp_mul_one; [assumption|lia].
Qed.

Lemma fp_mul_fp_div_truncate_witness :
  fp_mul 96 (-48) 5 = Ok (-144) /\ fp_div 96 (-48) 5 = Ok (-64)
  /\ fp_mul 96 (2 ^ 5) 5 = Ok 96.
Proof.
  assert (H : in_int16 96 /\ in_int16 (-48) /\ 0 <= 5 <= 15)
    by (unfold in_int16, INT16_MIN, INT16_MAX; lia).
  destruct H as (Hx & Hy & Hp).
  destruct (fp_mul_fp_div_truncate 96 (-48) 5 Hx Hy Hp) as (Hm & _ & Hd & _ & Ho).
  split; [exact Hm|]. split; [apply Hd; lia|apply Ho; lia].
Defined.

(** C6 as stated fails: the quotient of the widened product is narrowed to
    16 bits, so [fp_mul 4096 4096 5] is 0 and not [4096 * 4096 / 2^5]. *)
Lemma fp_mul_narrows :
  fp_mul 4096 4096 5 = Ok 0 /\ Z.quot (4096 * 4096) (2 ^ 5) = 524288.
Proof. split; reflexivity. Qed.

(** C8 (amended). For 16-bit [x], [y <> 0], precision between 0 and 15 and
    a product [x * y / 2^p] that fits in 16 bits, dividing the product back
    by [y] gives [r] with [|r - x| * |y| < 2^p + |y|]; so the result is
    within one unit of [x] when [|y| >= 2^p], that is when [y] is at least
    1.0 in magnitude. *)
Theorem fp_div_fp_mul_roundtrip x y p :
  in_int16 x -> in_int16 y -> y <> 0 -> 0 <= p <= 15 ->
  in_int16 (Z.quot (x * y) (2 ^ p)) ->
  exists q r, fp_mul x y p = Ok q /\ fp_div q y p = Ok r
    /\ Z.abs (r - x) * Z.abs y < 2 ^ p + Z.abs y
    /\ (2 ^ p <= Z.abs y -> Z.abs (r - x) <= 1).
Proof.
  intros Hx Hy Hy0 Hp Hq.
  pose proof (pow2_bounds_15 p Hp) as HP.
  destruct (roundtrip_quot x y (2 ^ p)) as (Hb & Hr & Hs & _); [lia|assumption|].
  set (q := Z.quot (x * y) (2 ^ p)) in *.
  set (r := Z.quot (q * 2 ^ p) y) in *.
  assert (Hr16 : in_int16 r).
  { unfold in_int16, INT16_MIN, INT16_MAX in *.
    destruct (Z_lt_ge_dec x 0) as [Hneg|Hpos]; [|lia].
    assert (r <= 0); [|lia].
    apply Z.nlt_ge. intros Hr0.
    assert (r * x < 0) by (apply Z.mul_pos_neg; lia). lia. }
  exists q, r. split; [|split; [|split]].
  - rewrite fp_mul_eq by (try assumption; lia). fold q. now rewrite to_int16_id.
  - rewrite fp_div_eq by assumption. fold r. now rewrite to_int16_id.
  - exact Hb.
  - intros Hbig.
    assert (Hlt : Z.abs (r - x) * Z.abs y < 2 * Z.abs y) by lia.
    assert (Hy' : 0 < Z.abs y) by lia.
    apply Z.nlt_ge. intros Hge.
    assert (2 * Z.abs y <= Z.abs (r - x) * Z.abs y)
      by (apply Z.mul_le_mono_nonneg_r; lia).
    lia.
Qed.

Lemma fp_div_fp_mul_roundtrip_witness :
  exists q r, fp_mul 100 (-40) 5 = Ok q /\ fp_div q (-40) 5 = Ok r
    /\ Z.abs (r - 100) * Z.abs (-40) < 2 ^ 5 + Z.abs (-40)
    /\ (2 ^ 5 <= Z.abs (-40) -> Z.abs (r - 100) <= 1).
Proof.
  apply (fp_div_fp_mul_roundtrip 100 (-40) 5);
    unfold in_int16, INT16_MIN, INT16_MAX; try lia.
  vm_compute. split; discriminate.
Defined.

(** C8 as stated fails for a small divisor: [fp_mul 100 1 5] is 3 and
    [fp_div 3 1 5] is 96, four units away from 100. *)
Lemma fp_div_fp_mul_far :
  fp_mul 100 1 5 = Ok 3 /\ fp_div 3 1 5 = Ok 96 /\ 1 < Z.abs (96 - 100).
Proof. repeat split. Qed.

(** ** Hyperbolic tangent *)

Ltac int16_unfold := unfold in_int16, INT16_MIN, INT16_MAX in *.

Lemma fp_tanh_stages x p :
  fp_tanh x p =
  (let neg := x <? 0 in
   r ← tanh_rational (if neg then fp_neg x else x) p;
   mret (tanh_clip r.1 (if neg then fp_neg r.2 else r.2))).
Proof.
  unfold fp_tanh, tanh_rational, tanh_clip. cbv zeta.
  repeat match goal with
  | |- context [mbind _ ?m] => destruct m; cbn; try reflexivity
  end.
  repeat match goal with
  | |- context [if ?c then _ else _] => destruct c; try reflexivity
  end.
Qed.

Lemma mirror_in_int16 x :
  in_int16 x -> in_int16 (if x <? 0 then fp_neg x else x).
Proof.
  intros Hx. destruct (x <? 0); [apply to_int16_range|assumption].
Qed.

Lemma fp_add_in_int16 x y : in_int16 (fp_add x y).
Proof. apply to_int16_range. Qed.

Lemma int_to_fp_1_ok p : 0 <= p <= 30 -> int_to_fp 1 p = Ok (to_int16 (2 ^ p)).
Proof.
  intros Hp. unfold int_to_fp. pose proof (pow2_bounds p Hp).
  rewrite int_shl1_ok by lia. cbn.
  rewrite int_mul_ok by (unfold INT_MIN, INT_MAX; lia). cbn.
  now rewrite Z.mul_1_l.
Qed.

Lemma fp_div_cases x y p :
  in_int16 x -> 0 <= p <= 30 ->
  (exists v, fp_div x y p = Ok v /\ in_int16 v)
  \/ fp_div x y p = Undef DivByZero
  \/ (15 < p /\ fp_div x y p = Undef IntOverflow).
Proof.
  intros Hx Hp. destruct (Z_le_gt_dec p 15) as [Hle|Hgt].
  - destruct (Z.eq_dec y 0) as [->|Hy].
    + right; left. apply fp_div_zero; [assumption|lia].
    + left. rewrite fp_div_eq by (try assumption; lia).
      eexists. split; [reflexivity|apply to_int16_range].
  - unfold fp_div. rewrite int_shl1_ok by lia. cbn.
    unfold int_mul. destruct (in_int _); cbn; [|right; right; split; [lia|reflexivity]].
    unfold int_div. destruct (y =? 0); [auto|].
    destruct (_ && _); cbn.
    + right; right. split; [lia|reflexivity].
    + left. eexists. split; [reflexivity|apply to_int16_range].
Qed.

(** With a precision between 3 and 30 no shift of [fp_tanh] is undefined;
    what can still go wrong is the division. *)
Lemma tanh_rational_cases x p :
  in_int16 x -> 3 <= p <= 30 ->
  (exists r, tanh_rational x p = Ok (to_int16 (2 ^ p), r) /\ in_int16 r)
  \/ tanh_rational x p = Undef DivByZero
  \/ (15 < p /\ tanh_rational x p = Undef IntOverflow).
Proof.
  intros Hx Hp. unfold tanh_rational.
  rewrite !int_shl1_ok by lia. cbn.
  rewrite int_to_fp_1_ok by lia. cbn.
  rewrite (fp_mul_eq x x) by (try assumption; lia). cbn.
  rewrite !fp_mul_eq by (try apply to_int16_range; lia). cbn.
  match goal with |- context [fp_div ?a ?b p] =>
    destruct (fp_div_cases a b p) as [(v & Hv & Hv16)|[Hv|[Hp' Hv]]];
      [apply fp_add_in_int16|lia|..]; rewrite Hv; cbn
  end; [|auto..].
  rewrite fp_mul_eq by (try assumption; lia). cbn.
  left. eexists. split; [reflexivity|apply to_int16_range].
Qed.

Lemma tanh_clip_range one r :
  in_int16 one -> 0 <= one -> - one <= tanh_clip one r <= one.
Proof.
  intros H1 H0. unfold tanh_clip.
  rewrite fp_neg_opp by (int16_unfold; lia).
  destruct (r >? one) eqn:E1; [lia|].
  destruct (r <? - one) eqn:E2; lia.
Qed.

Lemma fp_tanh_cases x p :
  in_int16 x -> 3 <= p <= 30 ->
  (exists v, fp_tanh x p = Ok v /\ in_int16 v
             /\ (p <= 14 -> - 2 ^ p <= v <= 2 ^ p))
  \/ fp_tanh x p = Undef DivByZero
  \/ (15 < p /\ fp_tanh x p = Undef IntOverflow).
Proof.
  intros Hx Hp. rewrite fp_tanh_stages. cbv zeta.
  destruct (tanh_rational_cases _ p (mirror_in_int16 x Hx) Hp)
    as [(r & Hr & Hr16)|[Hr|[Hp' Hr]]]; rewrite Hr; cbn; [|auto..].
  left. eexists. split; [reflexivity|]. split.
  - unfold tanh_clip. cbv zeta.
    destruct (_ >? _); [apply to_int16_range|].
    destruct (_ <? fp_neg _); [apply to_int16_range|].
    destruct (x <? 0); [apply to_int16_range|assumption].
  - intros Hp'. pose proof (pow2_bounds_14 p ltac:(lia)).
    rewrite (to_int16_id (2 ^ p)) by (int16_unfold; lia).
    apply tanh_clip_range; int16_unfold; lia.
Qed.

Lemma pow2_split p k : 0 <= k <= p -> 2 ^ p = 2 ^ k * 2 ^ (p - k).
Proof.
  intros Hk. rewrite <- Z.pow_add_r by lia. f_equal. lia.
Qed.

Lemma quot_nonneg_bounds a b q :
  0 <= a -> 0 < b -> a < b * q -> 0 <= Z.quot a b < q.
Proof.
  intros Ha Hb Hq. rewrite Z.quot_div_nonneg by lia. split.
  - apply Z.div_pos; lia.
  - apply Z.div_lt_upper_bound; lia.
Qed.

(** Where the square of the argument fits in 16 bits nothing wraps: the
    approximant is defined and lies between 0 and its argument. *)
Lemma tanh_rational_domain x p :
  3 <= p <= 14 -> 0 <= x <= 32767 -> Z.quot (x * x) (2 ^ p) <= 32767 ->
  exists r, tanh_rational x p = Ok (2 ^ p, r) /\ 0 <= r <= x.
Proof.
  intros Hp Hx Hsq.
  pose proof (pow2_bounds_14 p ltac:(lia)) as HP.
  pose proof (pow2_bounds_14 (p - 3) ltac:(lia)) as HE.
  pose proof (pow2_bounds_14 (p - 1) ltac:(lia)) as HH.
  pose proof (pow2_split p 3 ltac:(lia)) as E8. change (2 ^ 3) with 8 in E8.
  pose proof (pow2_split p 1 ltac:(lia)) as E2. change (2 ^ 1) with 2 in E2.
  set (P := 2 ^ p) in *. set (E := 2 ^ (p - 3)) in *. set (H := 2 ^ (p - 1)) in *.
  assert (Hx16 : in_int16 x) by (int16_unfold; lia).
  unfold tanh_rational. rewrite !int_shl1_ok by lia. cbn.
  rewrite int_to_fp_one by lia. cbn. fold P E H.
  rewrite (to_int16_id E), (to_int16_id H) by (int16_unfold; lia).
  (* x_squared *)
  rewrite (fp_mul_eq x x) by (try assumption; lia). cbn. fold P.
  set (s := Z.quot (x * x) P) in *.
  assert (Hs : 0 <= s <= 32767).
  { split; [|assumption]. unfold s. apply Z.quot_pos; nia. }
  rewrite (to_int16_id s) by (int16_unfold; lia).
  (* x_squared / 8 *)
  rewrite (fp_mul_eq s E) by (int16_unfold; lia). cbn. fold P.
  set (n8 := Z.quot (s * E) P).
  assert (Hn8 : 0 <= n8 < 4096) by (apply quot_nonneg_bounds; nia).
  rewrite (to_int16_id n8) by (int16_unfold; lia).
  (* x_squared / 2 *)
  rewrite (fp_mul_eq s H) by (int16_unfold; lia). cbn. fold P.
  set (d2 := Z.quot (s * H) P).
  assert (Hd2 : 0 <= d2 < 16384) by (apply quot_nonneg_bounds; nia).
  rewrite (to_int16_id d2) by (int16_unfold; lia).
  assert (Hnd : n8 <= d2).
  { unfold n8, d2. rewrite !Z.quot_div_nonneg by nia.
    apply Z.div_le_mono; nia. }
  unfold fp_add.
  rewrite (to_int16_id (P + n8)), (to_int16_id (P + d2)) by (int16_unfold; lia).
  (* the rational factor *)
  rewrite fp_div_eq by (int16_unfold; lia). cbn. fold P.
  set (rf := Z.quot ((P + n8) * P) (P + d2)).
  assert (Hrf : 0 <= rf < P + 1) by (apply quot_nonneg_bounds; nia).
  rewrite (to_int16_id rf) by (int16_unfold; lia).
  rewrite (fp_mul_eq x rf) by (int16_unfold; lia). cbn. fold P.
  set (r := Z.quot (x * rf) P).
  assert (Hr : 0 <= r < x + 1) by (apply quot_nonneg_bounds; nia).
  rewrite (to_int16_id r) by (int16_unfold; lia).
  exists r. split; [reflexivity|lia].
Qed.

Lemma tanh_clip_nonneg one r :
  in_int16 one -> 0 < one -> 0 <= r -> tanh_clip one r = Z.min r one.
Proof.
  intros H1 H0 Hr. unfold tanh_clip.
  rewrite fp_neg_opp by (int16_unfold; lia).
  destruct (r >? one) eqn:E1; [lia|].
  destruct (r <? - one) eqn:E2; lia.
Qed.

Lemma tanh_clip_nonpos one r :
  in_int16 one -> 0 < one -> 0 <= r -> tanh_clip one (- r) = - Z.min r one.
Proof.
  intros H1 H0 Hr. unfold tanh_clip.
  rewrite fp_neg_opp by (int16_unfold; lia).
  destruct (- r >? one) eqn:E1; [lia|].
  destruct (- r <? - one) eqn:E2; lia.
Qed.

(** On that domain [fp_tanh] is defined, takes a value between 0 and
    [min x 2^p] at [x >= 0], and the opposite value at [- x]. *)
Lemma fp_tanh_domain x p :
  3 <= p <= 14 -> 0 <= x <= 32767 -> Z.quot (x * x) (2 ^ p) <= 32767 ->
  exists v, fp_tanh x p = Ok v /\ fp_tanh (- x) p = Ok (- v)
            /\ 0 <= v <= Z.min x (2 ^ p).
Proof.
  intros Hp Hx Hsq.
  pose proof (pow2_bounds_14 p ltac:(lia)) as HP.
  destruct (tanh_rational_domain x p Hp Hx Hsq) as (r & Hr & Hrx).
  exists (Z.min r (2 ^ p)). split; [|split].
  - rewrite fp_tanh_stages. cbv zeta.
    destruct (x <? 0) eqn:E; [lia|]. rewrite Hr. cbn.
    rewrite tanh_clip_nonneg by (int16_unfold; lia). reflexivity.
  - rewrite fp_tanh_stages. cbv zeta.
    destruct (- x <? 0) eqn:E.
    + rewrite (fp_neg_opp (- x)) by (int16_unfold; lia).
      rewrite Z.opp_involutive, Hr. cbn.
      rewrite (fp_neg_opp r) by (int16_unfold; lia).
      rewrite tanh_clip_nonpos by (int16_unfold; lia). reflexivity.
    + assert (x = 0) by lia. subst x. change (- 0) with 0. rewrite Hr. cbn.
      assert (r = 0) by lia. subst r.
      rewrite tanh_clip_nonneg by (int16_unfold; lia).
      f_equal. lia.
  - lia.
Qed.

Lemma square_min_too_big p :
  0 <= p <= 14 -> 32767 < Z.quot (INT16_MIN * INT16_MIN) (2 ^ p).
Proof.
  intros Hp. pose proof (pow2_bounds_14 p Hp).
  change (INT16_MIN * INT16_MIN) with 1073741824.
  rewrite Z.quot_div_nonneg by lia.
  apply Z.lt_le_trans with 32768; [lia|].
  apply Z.div_le_lower_bound; lia.
Qed.

Lemma fp_tanh_zero p : 3 <= p <= 14 -> fp_tanh 0 p = Ok 0.
Proof.
  intros Hp. destruct (fp_tanh_domain 0 p Hp) as (v & Hv & _ & Hb); [lia| |].
  - rewrite Z.quot_0_l; [lia|]. pose proof (pow2_bounds_14 p ltac:(lia)). lia.
  - rewrite Hv. f_equal. lia.
Qed.

(** *** Every argument *)

Lemma w16_eq z : w16 z = to_int16 z.
Proof.
  unfold w16, to_int16. change 65535 with (Z.ones 16).
  rewrite Z.land_ones by lia. reflexivity.
Qed.

Lemma qpow_eq a p : 0 <= p -> qpow a p = Z.quot a (2 ^ p).
Proof.
  intros Hp. pose proof (Z.pow_pos_nonneg 2 p ltac:(lia) Hp) as HP.
  unfold qpow. rewrite !Z.shiftr_div_pow2 by assumption.
  destruct (a <? 0) eqn:E.
  - rewrite <- (Z.opp_involutive a) at 2.
    rewrite Z.quot_opp_l by lia. rewrite Z.quot_div_nonneg by lia. reflexivity.
  - rewrite Z.quot_div_nonneg by lia. reflexivity.
Qed.

Lemma forall_block_spec k : forall lo f, forall_block k lo f = true ->
  forall x, lo <= x < lo + 2 ^ Z.of_nat k -> f x = true.
Proof.
  induction k as [|k IH]; intros lo f H x Hx.
  - cbn in *. assert (x = lo) by lia. subst. exact H.
  - cbn [forall_block] in H. apply andb_true_iff in H as [H1 H2].
    rewrite Nat2Z.inj_succ, Z.pow_succ_r in Hx by lia.
    destruct (Z_lt_ge_dec x (lo + 2 ^ Z.of_nat k)).
    + apply (IH _ _ H1). lia.
    + apply (IH _ _ H2). lia.
Qed.

Lemma tanh_rational_fast x p :
  3 <= p <= 14 -> in_int16 x ->
  tanh_rational x p
  = match fast_rational p x with
    | Some r => Ok (2 ^ p, r)
    | None => Undef DivByZero
    end.
Proof.
  intros Hp Hx.
  pose proof (pow2_bounds_14 p ltac:(lia)) as HP.
  pose proof (pow2_bounds_14 (p - 3) ltac:(lia)) as HE.
  pose proof (pow2_bounds_14 (p - 1) ltac:(lia)) as HH.
  unfold tanh_rational, fast_rational. cbv zeta.
  rewrite !Z.shiftl_1_l, !w16_eq, !qpow_eq by lia.
  rewrite !int_shl1_ok by lia. cbn [mbind res_bind].
  rewrite int_to_fp_one by lia. cbn [mbind res_bind].
  rewrite (to_int16_id (2 ^ (p - 3))), (to_int16_id (2 ^ (p - 1)))
    by (int16_unfold; lia).
  rewrite (fp_mul_eq x x) by (try assumption; lia). cbn [mbind res_bind].
  rewrite !(fp_mul_eq (to_int16 _)) by (try apply to_int16_range; int16_unfold; lia).
  cbn [mbind res_bind]. unfold fp_add.
  match goal with |- context [fp_div ?n ?d p] =>
    set (num := n); set (den := d)
  end.
  destruct (den =? 0) eqn:Ed.
  - apply Z.eqb_eq in Ed. rewrite Ed.
    rewrite fp_div_zero by (try apply to_int16_range; lia). reflexivity.
  - apply Z.eqb_neq in Ed.
    rewrite fp_div_eq by (try apply to_int16_range; try assumption; lia).
    cbn [mbind res_bind].
    rewrite fp_mul_eq by (try apply to_int16_range; try assumption; lia).
    reflexivity.
Qed.

Lemma not_min_checked :
  forallb (fun p => forall_block 15 0 (not_min_check p))
          [3; 4; 5; 6; 7; 8; 9; 10; 11; 12; 13; 14] = true.
Proof. vm_compute. reflexivity. Qed.

Lemma fast_rational_not_min p x r :
  3 <= p <= 14 -> 0 <= x <= 32767 -> fast_rational p x = Some r -> r <> INT16_MIN.
Proof.
  intros Hp Hx Hr.
  pose proof not_min_checked as H. rewrite forallb_forall in H.
  assert (Hin : In p [3; 4; 5; 6; 7; 8; 9; 10; 11; 12; 13; 14]).
  { cbn. lia. }
  specialize (H p Hin).
  pose proof (forall_block_spec 15 0 _ H x ltac:(cbn; lia)) as Hc.
  unfold not_min_check in Hc. rewrite Hr in Hc.
  apply negb_true_iff, Z.eqb_neq in Hc. exact Hc.
Qed.

Lemma tanh_clip_opp one r :
  in_int16 one -> 0 < one -> in_int16 r -> r <> INT16_MIN ->
  tanh_clip one (fp_neg r) = - tanh_clip one r.
Proof.
  intros H1 H0 Hr Hm. unfold tanh_clip. cbv zeta.
  rewrite (fp_neg_opp one), (fp_neg_opp r) by (try assumption; int16_unfold; lia).
  destruct (- r >? one) eqn:E1; destruct (r >? one) eqn:E2;
    destruct (- r <? - one) eqn:E3; destruct (r <? - one) eqn:E4; lia.
Qed.

Lemma tanh_rational_value x p one r :
  3 <= p <= 14 -> 0 <= x <= 32767 -> tanh_rational x p = Ok (one, r) ->
  one = 2 ^ p /\ in_int16 r /\ r <> INT16_MIN.
Proof.
  intros Hp Hx H. rewrite tanh_rational_fast in H by (try assumption; int16_unfold; lia).
  destruct (fast_rational p x) as [r'|] eqn:E; [|discriminate].
  injection H as <- <-. split; [reflexivity|]. split.
  - unfold fast_rational in E. cbv zeta in E.
    destruct (_ =? 0); [discriminate|]. injection E as <-.
    rewrite w16_eq. apply to_int16_range.
  - now apply (fast_rational_not_min p x).
Qed.

(** On positive arguments: the value at [- x] is the opposite of the value
    at [x], and neither is defined when the other is not. *)
Lemma fp_tanh_odd_pos x p :
  3 <= p <= 14 -> 0 < x <= 32767 -> fp_tanh (- x) p = res_opp (fp_tanh x p).
Proof.
  intros Hp Hx. pose proof (pow2_bounds_14 p ltac:(lia)) as HP.
  rewrite !fp_tanh_stages. cbv zeta.
  destruct (x <? 0) eqn:E1; [lia|]. destruct (- x <? 0) eqn:E2; [|lia].
  rewrite (fp_neg_opp (- x)) by (int16_unfold; lia). rewrite Z.opp_involutive.
  destruct (tanh_rational x p) as [[one r]|u] eqn:Er; cbn; [|reflexivity].
  destruct (tanh_rational_value x p one r Hp ltac:(lia) Er) as (-> & Hr & Hm).
  rewrite tanh_clip_opp by (try assumption; int16_unfold; lia). reflexivity.
Qed.

Lemma res_opp_involutive r : res_opp (res_opp r) = r.
Proof. destruct r; cbn; [now rewrite Z.opp_involutive|reflexivity]. Qed.

Lemma fp_tanh_odd x p :
  in_int16 x -> x <> INT16_MIN -> 3 <= p <= 14 ->
  fp_tanh (- x) p = res_opp (fp_tanh x p).
Proof.
  intros Hx Hm Hp.
  destruct (Z.lt_trichotomy x 0) as [Hneg|[->|Hpos]].
  - rewrite <- (Z.opp_involutive x) at 2.
    rewrite (fp_tanh_odd_pos (- x)) by (try assumption; int16_unfold; lia).
    now rewrite res_opp_involutive.
  - change (- 0) with 0. rewrite fp_tanh_zero by assumption. reflexivity.
  - apply fp_tanh_odd_pos; [assumption|int16_unfold; lia].
Qed.

(** C5 (amended). For a 16-bit [x] and a precision between 3 and 14:
    [fp_tanh 0 p] is 0; whenever [fp_tanh x p] returns a value, the value
    lies in [[-2^p, 2^p]], by the final clamp (the only way it returns none
    is the division by a denominator that wrapped to zero); for [x] other
    than -32768, [fp_tanh (- x) p] returns the opposite of what
    [fp_tanh x p] returns, and nothing when that returns nothing; and
    [fp_tanh x p] does return a value for every [x] whose square fits in 16
    bits ([x * x / 2^p <= 32767]). *)
Theorem fp_tanh_odd_clipped x p :
  in_int16 x -> 3 <= p <= 14 ->
  fp_tanh 0 p = Ok 0
  /\ ((exists v, fp_tanh x p = Ok v /\ - 2 ^ p <= v <= 2 ^ p)
      \/ fp_tanh x p = Undef DivByZero)
  /\ (x <> INT16_MIN -> fp_tanh (- x) p = res_opp (fp_tanh x p))
  /\ (Z.quot (x * x) (2 ^ p) <= 32767 -> exists v, fp_tanh x p = Ok v).
Proof.
  intros Hx Hp. pose proof (pow2_bounds_14 p ltac:(lia)) as HP.
  split; [|split; [|split]].
  - now apply fp_tanh_zero.
  - destruct (fp_tanh_cases x p Hx) as [(v & Hv & _ & Hb)|[H|[Hp' _]]];
      [lia| | |lia].
    + left. exists v. split; [assumption|apply Hb; lia].
    + now right.
  - intros Hm. now apply fp_tanh_odd.
  - intros Hsq.
    assert (Hmin : x <> INT16_MIN).
    { intros ->. pose proof (square_min_too_big p ltac:(lia)). lia. }
    destruct (Z_lt_ge_dec x 0) as [Hneg|Hpos].
    + destruct (fp_tanh_domain (- x) p Hp) as (v & _ & Hv' & _).
      * int16_unfold. lia.
      * now rewrite Z.mul_opp_opp.
      * rewrite Z.opp_involutive in Hv'. eauto.
    + destruct (fp_tanh_domain x p Hp) as (v & Hv & _).
      * int16_unfold. lia.
      * assumption.
      * eauto.
Qed.

Lemma fp_tanh_odd_clipped_witness :
  fp_tanh 0 5 = Ok 0
  /\ ((exists v, fp_tanh (-64) 5 = Ok v /\ - 2 ^ 5 <= v <= 2 ^ 5)
      \/ fp_tanh (-64) 5 = Undef DivByZero)
  /\ (-64 <> INT16_MIN -> fp_tanh (- -64) 5 = res_opp (fp_tanh (-64) 5))
  /\ (Z.quot (-64 * -64) (2 ^ 5) <= 32767 -> exists v, fp_tanh (-64) 5 = Ok v).
Proof.
  apply (fp_tanh_odd_clipped (-64) 5); unfold in_int16, INT16_MIN, INT16_MAX; lia.
Defined.

(** C5 as stated fails: at [x = 8444], precision 5, the square wraps to
    -64, the denominator [1 + x^2/2] is 0, and the division is undefined;
    no value is returned. *)
Lemma fp_tanh_divides_by_zero :
  fp_mul 8444 8444 5 = Ok (-64)
  /\ fp_tanh 8444 5 = Undef DivByZero /\ fp_tanh (-8444) 5 = Undef DivByZero.
Proof. repeat split. Qed.

(** ** Sigmoid *)

Lemma mirror_abs x :
  in_int16 x -> x <> INT16_MIN -> (if x <? 0 then fp_neg x else x) = Z.abs x.
Proof.
  intros Hx Hm. destruct (x <? 0) eqn:E.
  - rewrite fp_neg_opp by assumption. lia.
  - lia.
Qed.

Lemma quot_half a p : 1 <= p -> Z.quot (a * 2 ^ (p - 1)) (2 ^ p) = Z.quot a 2.
Proof.
  intros Hp. pose proof (Z.pow_pos_nonneg 2 (p - 1)).
  rewrite (pow2_split p 1) by lia. change (2 ^ 1) with 2.
  rewrite (Z.mul_comm a), (Z.mul_comm 2).
  apply Z.quot_mul_cancel_l; lia.
Qed.

Lemma quot2_bounds a lo hi :
  2 * lo <= a <= 2 * hi + 1 -> 0 <= lo -> lo <= Z.quot a 2 <= hi.
Proof.
  intros Ha Hlo. rewrite Z.quot_div_nonneg by lia. split.
  - apply Z.div_le_lower_bound; lia.
  - apply Z.lt_succ_r. apply Z.div_lt_upper_bound; lia.
Qed.

(** The value of [fp_tanh] at a halved argument can be shifted by one
    without leaving the 16-bit range, also at precision 14. *)
Lemma fp_tanh_half_bound h p t :
  3 <= p <= 14 -> 0 <= h <= 16383 -> fp_tanh h p = Ok t ->
  - 2 ^ p <= t <= 2 ^ p /\ t + 2 ^ p <= 32767.
Proof.
  intros Hp Hh Ht. pose proof (pow2_bounds_14 p ltac:(lia)) as HP.
  destruct (Z_le_gt_dec p 13) as [H13|H14].
  - pose proof (pow2_bounds_13 p ltac:(lia)).
    destruct (fp_tanh_cases h p) as [(v & Hv & _ & Hb)|[H'|[Hp' _]]];
      [int16_unfold; lia|lia| | |lia]; rewrite Ht in *; [|discriminate].
    injection Hv as <-. specialize (Hb ltac:(lia)). lia.
  - assert (p = 14) by lia. subst p. change (2 ^ 14) with 16384 in *.
    destruct (fp_tanh_domain h 14) as (v & Hv & _ & Hb); [lia|lia| |].
    + change (2 ^ 14) with 16384. rewrite Z.quot_div_nonneg by nia.
      apply Z.div_le_upper_bound; nia.
    + rewrite Ht in Hv. injection Hv as <-. change (2 ^ 14) with 16384 in Hb. lia.
Qed.

(** The two branches of [fp_sigmoid]. *)
Lemma fp_sigmoid_branches x p :
  in_int16 x -> x <> INT16_MIN -> 3 <= p <= 14 ->
  fp_sigmoid x p =
    (t ← fp_tanh (Z.quot (Z.abs x) 2) p;
     let s := Z.quot (t + 2 ^ p) 2 in
     mret (if x <? 0 then 2 ^ p - s else s)).
Proof.
  intros Hx Hm Hp.
  pose proof (pow2_bounds_14 p ltac:(lia)) as HP.
  pose proof (pow2_bounds_14 (p - 1) ltac:(lia)) as HH.
  pose proof (pow2_split p 1 ltac:(lia)) as E2. change (2 ^ 1) with 2 in E2.
  unfold fp_sigmoid. cbv zeta. rewrite mirror_abs by assumption.
  rewrite !int_shl1_ok by lia. cbn.
  rewrite (to_int16_id (2 ^ p)), (to_int16_id (2 ^ (p - 1))) by (int16_unfold; lia).
  assert (Ha : 0 <= Z.abs x <= 32767) by (int16_unfold; lia).
  rewrite (fp_mul_eq (Z.abs x)) by (int16_unfold; lia). cbn.
  rewrite quot_half by lia.
  pose proof (quot2_bounds (Z.abs x) 0 16383 ltac:(lia) ltac:(lia)) as Hh.
  set (h := Z.quot (Z.abs x) 2) in *.
  rewrite (to_int16_id h) by (int16_unfold; lia).
  destruct (fp_tanh h p) as [t|u] eqn:Ht; cbn; [|reflexivity].
  destruct (fp_tanh_half_bound h p t Hp Hh Ht) as (Hb & Hfit).
  unfold fp_add. rewrite (to_int16_id (t + 2 ^ p)) by (int16_unfold; lia).
  rewrite fp_mul_eq by (int16_unfold; lia). cbn.
  rewrite quot_half by lia.
  pose proof (quot2_bounds (t + 2 ^ p) 0 (2 ^ p) ltac:(lia) ltac:(lia)) as Hs.
  set (s := Z.quot (t + 2 ^ p) 2) in *.
  rewrite (to_int16_id s) by (int16_unfold; lia).
  destruct (x <? 0); [|reflexivity].
  rewrite to_int16_id by (int16_unfold; lia). reflexivity.
Qed.

Lemma fp_sigmoid_cases x p :
  in_int16 x -> 3 <= p <= 30 ->
  (exists v, fp_sigmoid x p = Ok v /\ (p <= 13 -> 0 <= v <= 2 ^ p))
  \/ fp_sigmoid x p = Undef DivByZero
  \/ (15 < p /\ fp_sigmoid x p = Undef IntOverflow).
Proof.
  intros Hx Hp. unfold fp_sigmoid. cbv zeta.
  rewrite !int_shl1_ok by lia. cbn.
  rewrite fp_mul_eq by (try apply to_int16_range; try apply mirror_in_int16; try assumption; lia).
  cbn.
  match goal with |- context [fp_tanh ?h p] =>
    destruct (fp_tanh_cases h p) as [(t & Ht & Ht16 & Hb)|[Ht|[Hp' Ht]]];
      [apply to_int16_range|lia|..]; rewrite Ht; cbn
  end; [|auto..].
  rewrite fp_mul_eq by (try apply to_int16_range; try apply fp_add_in_int16; lia).
  cbn. left.
  assert (Hrange : p <= 13 ->
    0 <= to_int16 (Z.quot (fp_add t (to_int16 (2 ^ p)) * to_int16 (2 ^ (p - 1))) (2 ^ p))
      <= 2 ^ p /\ to_int16 (2 ^ p) = 2 ^ p).
  { intros H13. specialize (Hb ltac:(lia)).
    pose proof (pow2_bounds_13 p ltac:(lia)) as HP.
    pose proof (pow2_bounds_14 (p - 1) ltac:(lia)) as HH.
    rewrite (to_int16_id (2 ^ p)), (to_int16_id (2 ^ (p - 1))) by (int16_unfold; lia).
    unfold fp_add. rewrite (to_int16_id (t + 2 ^ p)) by (int16_unfold; lia).
    rewrite quot_half by lia.
    pose proof (quot2_bounds (t + 2 ^ p) 0 (2 ^ p) ltac:(lia) ltac:(lia)) as Hs.
    rewrite to_int16_id by (int16_unfold; lia). lia. }
  destruct (x <? 0); eexists; (split; [reflexivity|]); intros H13;
    destruct (Hrange H13) as (Hs & E1); [|assumption].
  rewrite E1 in Hs. rewrite E1. pose proof (pow2_bounds_13 p ltac:(lia)) as HP.
  rewrite to_int16_id by (int16_unfold; lia). lia.
Qed.

Lemma half_pow p : 1 <= p -> Z.quot (2 ^ p) 2 = 2 ^ (p - 1).
Proof.
  intros Hp. rewrite (pow2_split p 1) by lia. change (2 ^ 1) with 2.
  rewrite Z.mul_comm. apply Z.quot_mul. lia.
Qed.

Lemma fp_sigmoid_zero p : 3 <= p <= 14 -> fp_sigmoid 0 p = Ok (2 ^ (p - 1)).
Proof.
  intros Hp. rewrite fp_sigmoid_branches by (int16_unfold; lia).
  change (Z.quot (Z.abs 0) 2) with 0. rewrite fp_tanh_zero by assumption.
  cbn. rewrite Z.add_0_l, half_pow by lia. reflexivity.
Qed.

Lemma fp_sigmoid_opp x p a :
  in_int16 x -> x <> INT16_MIN -> 3 <= p <= 14 ->
  fp_sigmoid x p = Ok a -> fp_sigmoid (- x) p = Ok (2 ^ p - a).
Proof.
  intros Hx Hm Hp.
  pose proof (pow2_split p 1 ltac:(lia)) as E2. change (2 ^ 1) with 2 in E2.
  destruct (Z.eq_dec x 0) as [->|Hx0].
  - change (- 0) with 0. rewrite fp_sigmoid_zero by assumption.
    intros [= <-]. f_equal. lia.
  - rewrite (fp_sigmoid_branches (- x)), (fp_sigmoid_branches x)
      by (int16_unfold; lia).
    rewrite Z.abs_opp.
    destruct (fp_tanh _ p) as [t|u]; cbn; [|discriminate].
    intros [= <-]. f_equal.
    destruct (x <? 0) eqn:E1; destruct (- x <? 0) eqn:E3; lia.
Qed.

(** C4 (amended). For a 16-bit [x] other than -32768 and a precision
    between 3 and 14: [fp_sigmoid 0 p] is [2^(p-1)]; the non-negative
    branch returns [(tanh(x/2) + 1) / 2] and the negative branch the
    complement [1 - (tanh(|x|/2) + 1) / 2]; wherever [fp_sigmoid x p]
    returns a value [a], [fp_sigmoid (- x) p] returns [2^p - a], so the two
    sum to [2^p] exactly; and it does return a value whenever the square of
    the halved argument fits in 16 bits. *)
Theorem fp_sigmoid_complement x p :
  in_int16 x -> x <> INT16_MIN -> 3 <= p <= 14 ->
  fp_sigmoid 0 p = Ok (2 ^ (p - 1))
  /\ fp_sigmoid x p =
       (t ← fp_tanh (Z.quot (Z.abs x) 2) p;
        let s := Z.quot (t + 2 ^ p) 2 in
        mret (if x <? 0 then 2 ^ p - s else s))
  /\ (forall a, fp_sigmoid x p = Ok a ->
        fp_sigmoid (- x) p = Ok (2 ^ p - a))
  /\ (Z.quot (Z.quot (Z.abs x) 2 * Z.quot (Z.abs x) 2) (2 ^ p) <= 32767 ->
      exists a, fp_sigmoid x p = Ok a /\ fp_sigmoid (- x) p = Ok (2 ^ p - a)).
Proof.
  intros Hx Hm Hp. split; [|split; [|split]].
  - now apply fp_sigmoid_zero.
  - now apply fp_sigmoid_branches.
  - intros a. now apply fp_sigmoid_opp.
  - intros Hsq.
    pose proof (quot2_bounds (Z.abs x) 0 16383
                  ltac:(int16_unfold; lia) ltac:(lia)) as Hh.
    destruct (fp_tanh_domain (Z.quot (Z.abs x) 2) p Hp ltac:(lia) Hsq)
      as (v & Hv & _).
    assert (Hs : exists a, fp_sigmoid x p = Ok a).
    { rewrite fp_sigmoid_branches by assumption. rewrite Hv. cbn. eauto. }
    destruct Hs as (a & Ha). exists a. split; [assumption|].
    now apply fp_sigmoid_opp.
Qed.

Lemma fp_sigmoid_complement_witness :
  fp_sigmoid 0 8 = Ok (2 ^ (8 - 1))
  /\ (forall a, fp_sigmoid (-256) 8 = Ok a ->
        fp_sigmoid (- -256) 8 = Ok (2 ^ 8 - a)).
Proof.
  assert (H : in_int16 (-256) /\ -256 <> INT16_MIN /\ 3 <= 8 <= 14)
    by (unfold in_int16, INT16_MIN, INT16_MAX; lia).
  destruct H as (Hx & Hm & Hp).
  destruct (fp_sigmoid_complement (-256) 8 Hx Hm Hp) as (H0 & _ & Hs & _).
  split; [exact H0|exact Hs].
Defined.

(** C4 as stated fails: at [x = 8444], precision 4, the halved argument
    4222 makes [fp_tanh] divide by zero, so neither [fp_sigmoid x p] nor
    [fp_sigmoid (- x) p] has a value to add. *)
Lemma fp_sigmoid_no_sum :
  fp_tanh 4222 4 = Undef DivByZero
  /\ fp_sigmoid 8444 4 = Undef DivByZero
  /\ fp_sigmoid (-8444) 4 = Undef DivByZero.
Proof. repeat split. Qed.

Lemma quarter_min_too_big p :
  0 <= p <= 13 -> 32767 < Z.quot (16384 * 16384) (2 ^ p).
Proof.
  intros Hp. pose proof (pow2_bounds_13 p Hp).
  change (16384 * 16384) with 268435456.
  rewrite Z.quot_div_nonneg by lia.
  apply Z.lt_le_trans with 32768; [lia|].
  apply Z.div_le_lower_bound; lia.
Qed.

(** C9 (amended). For every 16-bit [x] and every precision between 3 and
    13, [fp_sigmoid x p] either returns a value in [[0, 2^p]] or is
    undefined because [fp_tanh] divides by a denominator that wrapped to
    zero; it returns a value whenever the square of the halved argument
    fits in 16 bits ([h * h / 2^p <= 32767] for [h = |x| / 2]). *)
Theorem fp_sigmoid_unit_interval x p :
  in_int16 x -> 3 <= p <= 13 ->
  ((exists v, fp_sigmoid x p = Ok v /\ 0 <= v <= 2 ^ p)
   \/ fp_sigmoid x p = Undef DivByZero)
  /\ (Z.quot (Z.quot (Z.abs x) 2 * Z.quot (Z.abs x) 2) (2 ^ p) <= 32767 ->
      exists v, fp_sigmoid x p = Ok v /\ 0 <= v <= 2 ^ p).
Proof.
  intros Hx Hp.
  assert (Hcases : (exists v, fp_sigmoid x p = Ok v /\ 0 <= v <= 2 ^ p)
                   \/ fp_sigmoid x p = Undef DivByZero).
  { destruct (fp_sigmoid_cases x p Hx) as [(v & Hv & Hb)|[H|[Hp' _]]];
      [lia| | |lia].
    - left. exists v. split; [assumption|apply Hb; lia].
    - now right. }
  split; [exact Hcases|]. intros Hsq.
  assert (Hm : x <> INT16_MIN).
  { intros ->. change (Z.quot (Z.abs INT16_MIN) 2) with 16384 in Hsq.
    pose proof (quarter_min_too_big p ltac:(lia)). lia. }
  pose proof (quot2_bounds (Z.abs x) 0 16383
                ltac:(int16_unfold; lia) ltac:(lia)) as Hh.
  destruct (fp_tanh_domain (Z.quot (Z.abs x) 2) p ltac:(lia) ltac:(lia) Hsq)
    as (t & Ht & _).
  destruct Hcases as [Hok|Hbad]; [exact Hok|].
  rewrite fp_sigmoid_branches in Hbad by (try assumption; lia).
  rewrite Ht in Hbad. discriminate.
Qed.

Lemma fp_sigmoid_unit_interval_witness :
  exists v, fp_sigmoid (-256) 8 = Ok v /\ 0 <= v <= 2 ^ 8.
Proof.
  assert (H : in_int16 (-256) /\ 3 <= 8 <= 13)
    by (unfold in_int16, INT16_MIN, INT16_MAX; lia).
  destruct H as (Hx & Hp).
  apply (proj2 (fp_sigmoid_unit_interval (-256) 8 Hx Hp)).
  vm_compute. discriminate.
Defined.

(** C9 as stated fails: at [x = 16888], precision 5, the halved argument is
    8444, whose square wraps so that the denominator of [fp_tanh] is 0. *)
Lemma fp_sigmoid_divides_by_zero :
  in_int16 16888 /\ 3 <= 5 <= 13 /\ fp_sigmoid 16888 5 = Undef DivByZero.
Proof. unfold in_int16, INT16_MIN, INT16_MAX. repeat split; lia. Qed.

(** ** Shift amounts *)

Lemma fp_tanh_low_precision x p : p < 3 -> fp_tanh x p = Undef ShiftUB.
Proof.
  intros Hp. unfold fp_tanh. cbv zeta.
  rewrite (int_shl1_neg (p - 3)) by lia. reflexivity.
Qed.

Lemma fp_tanh_high_precision x p : 30 < p -> fp_tanh x p = Undef ShiftUB.
Proof.
  intros Hp. unfold fp_tanh. cbv zeta.
  destruct (Z_le_gt_dec 34 p) as [H34|H34].
  { rewrite (int_shl1_wide (p - 3)) by lia. reflexivity. }
  rewrite (int_shl1_ok (p - 3)) by lia. cbn.
  destruct (Z.eq_dec p 31) as [->|H31].
  - reflexivity.
  - rewrite (int_shl1_wide (p - 1)) by lia. reflexivity.
Qed.

Lemma fp_sigmoid_low_precision x p :
  in_int16 x -> p < 3 -> fp_sigmoid x p = Undef ShiftUB.
Proof.
  intros Hx Hp. unfold fp_sigmoid. cbv zeta.
  destruct (Z_lt_ge_dec p 0) as [Hneg|Hpos].
  { rewrite (int_shl1_neg p) by lia. reflexivity. }
  rewrite (int_shl1_ok p) by lia. cbn.
  destruct (Z.eq_dec p 0) as [->|H0].
  { reflexivity. }
  rewrite (int_shl1_ok (p - 1)) by lia. cbn.
  rewrite fp_mul_eq
    by (try apply to_int16_range; try apply mirror_in_int16; try assumption; lia).
  cbn. rewrite fp_tanh_low_precision by lia. reflexivity.
Qed.

Lemma fp_sigmoid_high_precision x p : 30 < p -> fp_sigmoid x p = Undef ShiftUB.
Proof.
  intros Hp. unfold fp_sigmoid. cbv zeta.
  rewrite (int_shl1_wide p) by lia. reflexivity.
Qed.

(** C10 (amended). The shifts of [fp_tanh] are by [precision - 3],
    [precision - 1] and [precision] (in [int_to_fp], [fp_mul], [fp_div]);
    [fp_sigmoid] shifts by [precision] and [precision - 1]. For a 16-bit
    argument they are all defined exactly when [3 <= precision <= 30]:
    below 3 [fp_tanh] shifts by a negative amount, above 30 by the width of
    [int] or more, and in both cases [fp_tanh] and [fp_sigmoid] are
    undefined for that reason. *)
Theorem fp_tanh_shift_precondition x p :
  in_int16 x ->
  (p < 3 -> int_shl1 (p - 3) = Undef ShiftUB
            /\ fp_tanh x p = Undef ShiftUB /\ fp_sigmoid x p = Undef ShiftUB)
  /\ (3 <= p <= 30 ->
        int_shl1 (p - 3) = Ok (2 ^ (p - 3))
        /\ int_shl1 (p - 1) = Ok (2 ^ (p - 1))
        /\ int_shl1 p = Ok (2 ^ p)
        /\ fp_tanh x p <> Undef ShiftUB /\ fp_sigmoid x p <> Undef ShiftUB)
  /\ (30 < p -> fp_tanh x p = Undef ShiftUB /\ fp_sigmoid x p = Undef ShiftUB).
Proof.
  intros Hx. split; [|split].
  - intros Hp. split; [apply int_shl1_neg; lia|]. split.
    + now apply fp_tanh_low_precision.
    + now apply fp_sigmoid_low_precision.
  - intros Hp. repeat split; try (apply int_shl1_ok; lia).
    + destruct (fp_tanh_cases x p Hx Hp) as [(v & Hv & _)|[H|[_ H]]];
        rewrite ?Hv, ?H; discriminate.
    + destruct (fp_sigmoid_cases x p Hx Hp) as [(v & Hv & _)|[H|[_ H]]];
        rewrite ?Hv, ?H; discriminate.
  - intros Hp. split.
    + now apply fp_tanh_high_precision.
    + now apply fp_sigmoid_high_precision.
Qed.

Lemma fp_tanh_shift_precondition_witness :
  int_shl1 (5 - 3) = Ok (2 ^ (5 - 3))
  /\ int_shl1 (5 - 1) = Ok (2 ^ (5 - 1))
  /\ int_shl1 5 = Ok (2 ^ 5)
  /\ fp_tanh 32 5 <> Undef ShiftUB /\ fp_sigmoid 32 5 <> Undef ShiftUB.
Proof.
  assert (Hx : in_int16 32) by (unfold in_int16, INT16_MIN, INT16_MAX; lia).
  apply (proj1 (proj2 (fp_tanh_shift_precondition 32 5 Hx))). lia.
Defined.

(** C10 as stated fails above the width of [int]: with precision 34 the
    shift amount [precision - 3] is 31 and [1 << 31] is undefined. *)
Lemma fp_tanh_shift_too_wide :
  3 <= 34 /\ int_shl1 (34 - 3) = Undef ShiftUB /\ fp_tanh 0 34 = Undef ShiftUB.
Proof. repeat split; lia. Qed.

(** ** Exponential *)

(** The loop of [fp_exp], entered after [k] iterations with the [k]-th
    power, factorial and running sums in its variables, returns the
    running sum at the first step [K] where the cap is reached, the sum has
    settled, or a term is undefined. *)
Lemma fp_exp_loop_series one x p n :
  forall (k : nat) (s prev a f : Z),
    exp_power one x p k = Ok a ->
    exp_factorial one p k = Ok f ->
    exp_partial_sum one x p k = Ok s ->
    exp_prev_sum one x p k = Ok prev ->
    exists K : nat,
      (k <= K <= k + n)%nat
      /\ (forall j, (k <= j < K)%nat ->
            exp_sum_settled one x p j = false
            /\ is_ok (exp_partial_sum one x p j) = true)
      /\ (K = (k + n)%nat \/ exp_sum_settled one x p K = true
          \/ is_ok (exp_partial_sum one x p K) = false)
      /\ fp_exp_loop n (Z.of_nat k + 1) x p s prev a f
         = exp_partial_sum one x p K.
Proof.
  induction n as [|n IH]; intros k s prev a f Ha Hf Hs Hprev.
  - exists k. repeat split; try lia. cbn. now rewrite Hs.
  - cbn [fp_exp_loop].
    assert (Hsettled : exp_sum_settled one x p k = (prev =? s)).
    { unfold exp_sum_settled. now rewrite Hprev, Hs. }
    destruct (prev =? s) eqn:Epr.
    { exists k. split; [lia|]. split; [intros j Hj; lia|].
      split; [right; left; exact Hsettled|now rewrite Hs]. }
    remember (exp_partial_sum one x p (S k)) as next eqn:Enext.
    assert (Hstep : forall u, next = Undef u ->
              exists K : nat,
                (k <= K <= k + S n)%nat
                /\ (forall j, (k <= j < K)%nat ->
                      exp_sum_settled one x p j = false
                      /\ is_ok (exp_partial_sum one x p j) = true)
                /\ (K = (k + S n)%nat \/ exp_sum_settled one x p K = true
                    \/ is_ok (exp_partial_sum one x p K) = false)
                /\ Undef u = exp_partial_sum one x p K).
    { intros u Hu. exists (S k). rewrite <- Enext, Hu.
      split; [lia|]. split; [|auto].
      intros j Hj. assert (j = k) by lia. subst j.
      rewrite Hsettled, Hs. auto. }
    assert (Esum : next = (t ← exp_term one x p (S k); mret (fp_add t s))).
    { rewrite Enext. cbn [exp_partial_sum]. now rewrite Hs. }
    assert (Eterm : exp_term one x p (S k)
                    = (acc' ← fp_mul x a p;
                       scale ← int_shl1 p;
                       v ← int_mul (Z.of_nat k + 1) scale;
                       fact' ← fp_mul f (to_int16 v) p;
                       fp_div acc' fact' p)).
    { unfold exp_term. cbn [exp_power exp_factorial]. rewrite Ha, Hf. cbn.
      destruct (fp_mul x a p); cbn; [|reflexivity].
      unfold int_to_fp. rewrite Nat2Z.inj_succ, <- Z.add_1_r.
      destruct (int_shl1 p); cbn; [|reflexivity].
      destruct (int_mul _ _); cbn; reflexivity. }
    rewrite Eterm in Esum. clear Eterm.
    destruct (fp_mul x a p) as [acc'|u] eqn:Eacc; cbn in Esum |- *;
      [|now apply Hstep].
    destruct (int_shl1 p) as [scale|u] eqn:Esc; cbn in Esum |- *;
      [|now apply Hstep].
    destruct (int_mul (Z.of_nat k + 1) scale) as [v|u] eqn:Ev; cbn in Esum |- *;
      [|now apply Hstep].
    destruct (fp_mul f (to_int16 v) p) as [fact'|u] eqn:Efact; cbn in Esum |- *;
      [|now apply Hstep].
    destruct (fp_div acc' fact' p) as [term|u] eqn:Et; cbn in Esum |- *;
      [|now apply Hstep].
    destruct (IH (S k) (fp_add term s) s acc' fact') as (K & HK & Hbefore & Hstop & Hres).
    + cbn [exp_power]. rewrite Ha. cbn. exact Eacc.
    + cbn [exp_factorial]. rewrite Hf. cbn. unfold int_to_fp.
      rewrite Nat2Z.inj_succ, <- Z.add_1_r, Esc. cbn. rewrite Ev. cbn. exact Efact.
    + rewrite <- Enext. exact Esum.
    + cbn [exp_prev_sum]. exact Hs.
    + exists K. split; [lia|]. split; [|split].
      * intros j Hj. destruct (Nat.eq_dec j k) as [->|Hne].
        -- rewrite Hsettled, Hs. auto.
        -- apply Hbefore. lia.
      * destruct Hstop as [->|Hstop]; [left; lia|right; exact Hstop].
      * rewrite <- Hres. rewrite Nat2Z.inj_succ, <- Z.add_1_r. reflexivity.
Qed.

Lemma fp_exp_zero T p : 0 <= p <= 14 -> fp_exp T 0 p = Ok (2 ^ p).
Proof.
  intros Hp. pose proof (pow2_bounds_14 p Hp) as HP.
  assert (H16 : in_int16 (2 ^ p)) by (int16_unfold; lia).
  unfold fp_exp. cbv zeta. change (0 <? 0) with false. cbv iota.
  rewrite int_shl1_ok by lia. cbn [mbind res_bind].
  rewrite to_int16_id by assumption.
  destruct (Z.to_nat (T - 1)) as [|n]; [reflexivity|].
  cbn [fp_exp_loop].
  destruct (0 =? 2 ^ p) eqn:E0; [lia|].
  rewrite (fp_mul_eq 0) by (try assumption; int16_unfold; lia).
  cbn [mbind res_bind]. rewrite Z.mul_0_l, Z.quot_0_l by lia.
  change (to_int16 0) with 0.
  rewrite int_shl1_ok by lia. cbn [mbind res_bind].
  rewrite int_mul_ok by (unfold INT_MIN, INT_MAX; lia). cbn [mbind res_bind].
  rewrite Z.mul_1_l, to_int16_id by assumption.
  rewrite fp_mul_one by (try assumption; lia). cbn [mbind res_bind].
  rewrite fp_div_eq by (int16_unfold; lia). cbn [mbind res_bind].
  rewrite Z.mul_0_l, Z.quot_0_l by lia. change (to_int16 0) with 0.
  unfold fp_add. rewrite Z.add_0_l, to_int16_id by assumption.
  destruct n as [|n]; cbn [fp_exp_loop]; [reflexivity|].
  now rewrite Z.eqb_refl.
Qed.

(** C3 (amended). For a 16-bit [x] other than -32768 and a precision
    between 0 and 30 (where [1 << precision] is defined), [fp_exp] returns
    the running sum [1 + x + ... + x^K / K!] of the power series at [|x|],
    each power, factorial and term formed by [fp_mul] and [fp_div], for the
    first [K] at which the counter reaches [POWER_SERIES_TERMS], the sum
    has stopped changing, or a term is undefined; for a negative [x] the
    result is [fp_div (int_to_fp 1 precision) sum precision]. In
    particular, for a precision between 0 and 14, [fp_exp 0 p] is [2^p]. *)
Theorem fp_exp_power_series T x p :
  in_int16 x -> x <> INT16_MIN -> 0 <= p <= 30 ->
  let one := to_int16 (2 ^ p) in
  (exists K : nat,
     (K <= Z.to_nat (T - 1))%nat
     /\ (forall j, (j < K)%nat ->
           exp_sum_settled one (Z.abs x) p j = false
           /\ is_ok (exp_partial_sum one (Z.abs x) p j) = true)
     /\ (K = Z.to_nat (T - 1)
         \/ exp_sum_settled one (Z.abs x) p K = true
         \/ is_ok (exp_partial_sum one (Z.abs x) p K) = false)
     /\ fp_exp T x p =
          (r ← exp_partial_sum one (Z.abs x) p K;
           if x <? 0 then (one' ← int_to_fp 1 p; fp_div one' r p)
           else mret r))
  /\ (p <= 14 -> fp_exp T 0 p = Ok (2 ^ p)).
Proof.
  intros Hx Hm Hp one. split; [|intros Hp'; apply fp_exp_zero; lia].
  destruct (fp_exp_loop_series one (Z.abs x) p (Z.to_nat (T - 1)) 0 one 0 one one)
    as (K & HK & Hbefore & Hstop & Hres); try reflexivity.
  exists K. split; [lia|]. split; [intros j Hj; apply Hbefore; lia|].
  split; [exact Hstop|].
  unfold fp_exp. cbv zeta. rewrite mirror_abs by assumption.
  rewrite int_shl1_ok by lia. cbn [mbind res_bind]. fold one.
  change (Z.of_nat 0 + 1) with 1 in Hres. rewrite Hres. reflexivity.
Qed.

Lemma fp_exp_power_series_witness :
  fp_exp 7 0 5 = Ok (2 ^ 5)
  /\ exists K : nat,
       (K <= Z.to_nat (7 - 1))%nat
       /\ fp_exp 7 (-32) 5 =
            (r ← exp_partial_sum (to_int16 (2 ^ 5)) (Z.abs (-32)) 5 K;
             if -32 <? 0 then (one' ← int_to_fp 1 5; fp_div one' r 5)
             else mret r).
Proof.
  assert (H : in_int16 (-32) /\ -32 <> INT16_MIN /\ 0 <= 5 <= 30)
    by (unfold in_int16, INT16_MIN, INT16_MAX; lia).
  destruct H as (Hx & Hm & Hp).
  destruct (fp_exp_power_series 7 (-32) 5 Hx Hm Hp) as ((K & HK & _ & _ & HE) & H0).
  split; [apply H0; lia|]. exists K. split; [exact HK|exact HE].
Defined.

(** C3 as stated fails for a precision at which 1.0 is not representable:
    with 15 fractional bits [1 << 15] narrows to -32768, and whatever the
    iteration cap, [fp_exp 0 15] is -32768 and not [2^15]. *)
Lemma fp_exp_zero_q15 : ~ exists T, fp_exp T 0 15 = Ok (2 ^ 15).
Proof.
  intros (T & H). unfold fp_exp in H. cbv zeta in H.
  destruct (Z.to_nat (T - 1)) as [|[|n]]; vm_compute in H; discriminate.
Qed.

(** The assertions of [tests/fixed_point_tests.c] hold in the embedding;
    those on [fp_exp] single out 7 as the iteration cap. *)
Example test_mul_basic :
  fp_mul 8 8 3 = Ok 8 /\ fp_mul (fp_neg 8) 8 3 = Ok (fp_neg 8)
  /\ fp_mul 8 16 3 = Ok 16 /\ fp_mul 16 8 3 = Ok 16 /\ fp_mul 16 16 3 = Ok 32.
Proof. repeat split. Qed.

Example test_div_basic :
  fp_div 8 8 3 = Ok 8 /\ fp_div (fp_neg 8) 8 3 = Ok (fp_neg 8)
  /\ fp_div 8 16 3 = Ok 4 /\ fp_div 16 8 3 = Ok 16
  /\ fp_div 32 16 3 = Ok 16 /\ fp_div 16 16 3 = Ok 8.
Proof. repeat split. Qed.

Example test_exp :
  fp_exp 7 32 5 = Ok 86 /\ fp_exp 7 64 5 = Ok 233
  /\ fp_exp 7 (fp_neg 256) 8 = Ok 95 /\ fp_exp 7 (fp_neg 512) 8 = Ok 43.
Proof. repeat split. Qed.

Example test_tanh_basic :
  fp_tanh 0 5 = Ok 0 /\ fp_tanh 32 5 = Ok 24 /\ fp_tanh (fp_neg 32) 5 = Ok (-24)
  /\ fp_tanh 64 5 = Ok 32 /\ fp_tanh (fp_neg 64) 5 = Ok (-32).
Proof. repeat split. Qed.

Example test_sigmoid_basic :
  fp_sigmoid 0 8 = Ok 128 /\ fp_sigmoid 256 8 = Ok 186
  /\ fp_sigmoid (fp_neg 256) 8 = Ok 70 /\ fp_sigmoid 512 8 = Ok 224
  /\ fp_sigmoid (fp_neg 512) 8 = Ok 32.
Proof. repeat split. Qed.

(** ** Running programs on a store *)

Lemma bind_ok {A B} (m : prog A) (f : A -> prog B) h a h' :
  m h = Ok (a, h') -> (m ≫= f) h = f a h'.
Proof. intros H. unfold mbind, prog_bind. now rewrite H. Qed.

Lemma bind_undef {A B} (m : prog A) (f : A -> prog B) h u :
  m h = Undef u -> (m ≫= f) h = Undef u.
Proof. intros H. unfold mbind, prog_bind. now rewrite H. Qed.

Lemma load_run (h : gmap N matrix) p m : h !! p = Some m -> load p h = Ok (m, h).
Proof. intros H. unfold load. now rewrite H. Qed.

Lemma store_run (h : gmap N matrix) p m m0 :
  h !! p = Some m0 -> store p m h = Ok (p, <[p := m]> h).
Proof. intros H. unfold store. now rewrite H. Qed.

Lemma same_shape_true a b : shape a = shape b -> same_shape a b = true.
Proof.
  unfold shape, same_shape. intros [= -> ->]. now rewrite !Z.eqb_refl.
Qed.

Lemma shape_with_data m d : shape (with_data m d) = shape m.
Proof. reflexivity. Qed.

Lemma matrix_allocate_run (h : gmap N matrix) rows cols :
  exists p, matrix_allocate rows cols h = Ok (p, <[p := zeros rows cols]> h)
            /\ h !! p = None /\ p <> NULL_PTR.
Proof.
  eexists. split; [reflexivity|].
  pose proof (is_fresh ({[NULL_PTR]} ∪ dom h)) as Hf.
  split.
  - apply not_elem_of_dom. set_solver.
  - set_solver.
Qed.

Lemma matrix_free_run (h : gmap N matrix) p m :
  h !! p = Some m -> matrix_free p h = Ok (tt, delete p h).
Proof. intros H. unfold matrix_free. now rewrite H. Qed.

Lemma matrix_add_run (h : gmap N matrix) dst a b A B D :
  h !! a = Some A -> h !! b = Some B -> h !! dst = Some D ->
  shape A = shape B -> shape D = shape A ->
  matrix_add dst a b h
  = Ok (dst, <[dst := with_data D (add_data (data A) (data B))]> h).
Proof.
  intros Ha Hb Hd HAB HDA. unfold matrix_add.
  rewrite (bind_ok _ _ _ _ _ (load_run h a A Ha)).
  rewrite (bind_ok _ _ _ _ _ (load_run h b B Hb)).
  rewrite (bind_ok _ _ _ _ _ (load_run h dst D Hd)).
  rewrite !same_shape_true by assumption. cbn [andb].
  now apply store_run with D.
Qed.

Lemma bind_res {A B C} (m : prog A) (f : A -> prog B) h
    (r : res C) (g : C -> A) (k : C -> gmap N matrix) :
  m h = (d ← r; Ok (g d, k d)) ->
  (m ≫= f) h = (d ← r; f (g d) (k d)).
Proof.
  intros H. unfold mbind at 1, prog_bind. rewrite H. now destruct r.
Qed.

Lemma bind_lift {A B} (r : res A) (f : A -> prog B) h :
  (lift r ≫= f) h = (a ← r; f a h).
Proof. unfold mbind at 1, prog_bind, lift. now destruct r. Qed.

Lemma matrix_hadamard_run (h : gmap N matrix) dst a b p A B D :
  h !! a = Some A -> h !! b = Some B -> h !! dst = Some D ->
  shape A = shape B -> shape D = shape A ->
  matrix_hadamard dst a b p h
  = (d ← hadamard_data p (data A) (data B);
     Ok (dst, <[dst := with_data D d]> h)).
Proof.
  intros Ha Hb Hd HAB HDA. unfold matrix_hadamard.
  rewrite (bind_ok _ _ _ _ _ (load_run h a A Ha)).
  rewrite (bind_ok _ _ _ _ _ (load_run h b B Hb)).
  rewrite (bind_ok _ _ _ _ _ (load_run h dst D Hd)).
  rewrite !same_shape_true by assumption. cbn [andb].
  rewrite bind_lift. destruct (hadamard_data _ _ _); cbn; [|reflexivity].
  now apply store_run with D.
Qed.

Lemma scalar_product_run (h : gmap N matrix) dst a k p A D :
  h !! a = Some A -> h !! dst = Some D -> shape D = shape A ->
  scalar_product dst a k p h
  = (d ← scalar_product_data p k (data A);
     Ok (dst, <[dst := with_data D d]> h)).
Proof.
  intros Ha Hd HDA. unfold scalar_product.
  rewrite (bind_ok _ _ _ _ _ (load_run h a A Ha)).
  rewrite (bind_ok _ _ _ _ _ (load_run h dst D Hd)).
  rewrite same_shape_true by assumption.
  rewrite bind_lift. destruct (scalar_product_data _ _ _); cbn; [|reflexivity].
  now apply store_run with D.
Qed.

Lemma scalar_add_run (h : gmap N matrix) dst a k A D :
  h !! a = Some A -> h !! dst = Some D -> shape D = shape A ->
  scalar_add dst a k h
  = Ok (dst, <[dst := with_data D (scalar_add_data k (data A))]> h).
Proof.
  intros Ha Hd HDA. unfold scalar_add.
  rewrite (bind_ok _ _ _ _ _ (load_run h a A Ha)).
  rewrite (bind_ok _ _ _ _ _ (load_run h dst D Hd)).
  rewrite same_shape_true by assumption.
  now apply store_run with D.
Qed.

Lemma apply_elementwise_run (h : gmap N matrix) dst a f p A D :
  h !! a = Some A -> h !! dst = Some D -> shape D = shape A ->
  apply_elementwise dst a f p h
  = (d ← elementwise_data f p (data A);
     Ok (dst, <[dst := with_data D d]> h)).
Proof.
  intros Ha Hd HDA. unfold apply_elementwise.
  rewrite (bind_ok _ _ _ _ _ (load_run h a A Ha)).
  rewrite (bind_ok _ _ _ _ _ (load_run h dst D Hd)).
  rewrite same_shape_true by assumption.
  rewrite bind_lift. destruct (elementwise_data _ _ _); cbn; [|reflexivity].
  now apply store_run with D.
Qed.

Lemma matrix_multiply_run (h : gmap N matrix) dst a b p A B D :
  h !! a = Some A -> h !! b = Some B -> h !! dst = Some D ->
  numCols A = numRows B -> numRows D = numRows A -> numCols D = numCols B ->
  matrix_multiply dst a b p h
  = (d ← multiply_data p A B; Ok (dst, <[dst := with_data D d]> h)).
Proof.
  intros Ha Hb Hd H1 H2 H3. unfold matrix_multiply.
  rewrite (bind_ok _ _ _ _ _ (load_run h a A Ha)).
  rewrite (bind_ok _ _ _ _ _ (load_run h b B Hb)).
  rewrite (bind_ok _ _ _ _ _ (load_run h dst D Hd)).
  rewrite H1, H2, H3, !Z.eqb_refl. cbn [andb].
  rewrite bind_lift. destruct (multiply_data _ _ _); cbn; [|reflexivity].
  now apply store_run with D.
Qed.

Lemma stack_run (h : gmap N matrix) dst a b A B D :
  h !! a = Some A -> h !! b = Some B -> h !! dst = Some D ->
  numCols A = numCols B -> numCols D = numCols A ->
  numRows D = numRows A + numRows B ->
  stack dst a b h = Ok (dst, <[dst := with_data D (data A ++ data B)]> h).
Proof.
  intros Ha Hb Hd H1 H2 H3. unfold stack.
  rewrite (bind_ok _ _ _ _ _ (load_run h a A Ha)).
  rewrite (bind_ok _ _ _ _ _ (load_run h b B Hb)).
  rewrite (bind_ok _ _ _ _ _ (load_run h dst D Hd)).
  rewrite H1, H2, H3, H1, !Z.eqb_refl. cbn [andb].
  now apply store_run with D.
Qed.

Lemma matrix_set_run (h : gmap N matrix) dst k D :
  h !! dst = Some D ->
  matrix_set dst k h
  = Ok (dst, <[dst := with_data D (replicate (length (data D)) k)]> h).
Proof.
  intros Hd. unfold matrix_set.
  rewrite (bind_ok _ _ _ _ _ (load_run h dst D Hd)).
  now apply store_run with D.
Qed.


(** The same in the middle of a program. *)
Section Steps.
Context {T : Type} (f : ptr -> prog T) (h : gmap N matrix).

Lemma load_step {U} (k : matrix -> prog U) p m :
  h !! p = Some m -> (load p ≫= k) h = k m h.
Proof. intros H. apply bind_ok. now apply load_run. Qed.

Lemma matrix_free_step {U} (k : unit -> prog U) p m :
  h !! p = Some m -> (matrix_free p ≫= k) h = k tt (delete p h).
Proof. intros H. apply bind_ok. now apply matrix_free_run with m. Qed.

Lemma matrix_add_step dst a b A B D :
  h !! a = Some A -> h !! b = Some B -> h !! dst = Some D ->
  shape A = shape B -> shape D = shape A ->
  (matrix_add dst a b ≫= f) h
  = f dst (<[dst := with_data D (add_data (data A) (data B))]> h).
Proof. intros. apply bind_ok. now apply matrix_add_run. Qed.

Lemma scalar_add_step dst a k A D :
  h !! a = Some A -> h !! dst = Some D -> shape D = shape A ->
  (scalar_add dst a k ≫= f) h
  = f dst (<[dst := with_data D (scalar_add_data k (data A))]> h).
Proof. intros. apply bind_ok. now apply scalar_add_run. Qed.

Lemma stack_step dst a b A B D :
  h !! a = Some A -> h !! b = Some B -> h !! dst = Some D ->
  numCols A = numCols B -> numCols D = numCols A ->
  numRows D = numRows A + numRows B ->
  (stack dst a b ≫= f) h = f dst (<[dst := with_data D (data A ++ data B)]> h).
Proof. intros. apply bind_ok. now apply stack_run. Qed.

Lemma matrix_set_step dst k D :
  h !! dst = Some D ->
  (matrix_set dst k ≫= f) h
  = f dst (<[dst := with_data D (replicate (length (data D)) k)]> h).
Proof. intros. apply bind_ok. now apply matrix_set_run. Qed.

Lemma matrix_hadamard_step dst a b p A B D :
  h !! a = Some A -> h !! b = Some B -> h !! dst = Some D ->
  shape A = shape B -> shape D = shape A ->
  (matrix_hadamard dst a b p ≫= f) h
  = (d ← hadamard_data p (data A) (data B);
     f dst (<[dst := with_data D d]> h)).
Proof.
  intros. apply (bind_res _ _ _ _ (fun _ => dst)
                   (fun d => <[dst := with_data D d]> h)).
  now apply matrix_hadamard_run.
Qed.

Lemma scalar_product_step dst a k p A D :
  h !! a = Some A -> h !! dst = Some D -> shape D = shape A ->
  (scalar_product dst a k p ≫= f) h
  = (d ← scalar_product_data p k (data A);
     f dst (<[dst := with_data D d]> h)).
Proof.
  intros. apply (bind_res _ _ _ _ (fun _ => dst)
                   (fun d => <[dst := with_data D d]> h)).
  now apply scalar_product_run.
Qed.

Lemma apply_elementwise_step dst a g p A D :
  h !! a = Some A -> h !! dst = Some D -> shape D = shape A ->
  (apply_elementwise dst a g p ≫= f) h
  = (d ← elementwise_data g p (data A);
     f dst (<[dst := with_data D d]> h)).
Proof.
  intros. apply (bind_res _ _ _ _ (fun _ => dst)
                   (fun d => <[dst := with_data D d]> h)).
  now apply apply_elementwise_run.
Qed.

Lemma matrix_multiply_step dst a b p A B D :
  h !! a = Some A -> h !! b = Some B -> h !! dst = Some D ->
  numCols A = numRows B -> numRows D = numRows A -> numCols D = numCols B ->
  (matrix_multiply dst a b p ≫= f) h
  = (d ← multiply_data p A B; f dst (<[dst := with_data D d]> h)).
Proof.
  intros. apply (bind_res _ _ _ _ (fun _ => dst)
                   (fun d => <[dst := with_data D d]> h)).
  now apply matrix_multiply_run.
Qed.

End Steps.

Ltac solve_ne := congruence.

Ltac solve_lookup :=
  repeat first [ rewrite lookup_insert_eq
               | rewrite lookup_insert_ne by solve_ne ];
  first [ reflexivity | eassumption ].

Ltac norm_matrix := unfold with_data, zeros, shape; cbn [numRows numCols data].

Ltac solve_shape :=
  unfold with_data, zeros, shape in *; cbn [numRows numCols data] in *;
  first [ reflexivity | congruence ].

(** [apply_gate] writes the blend of its operands into [result], which may
    be any of them, and leaves the rest of the store as it was. *)
Lemma apply_gate_run (h : gmap N matrix) result gate first second p G F S R :
  h !! gate = Some G -> h !! first = Some F -> h !! second = Some S ->
  h !! result = Some R ->
  shape F = shape G -> shape S = shape G -> shape R = shape G ->
  apply_gate result gate first second p h
  = (d ← gate_data p (data G) (data F) (data S);
     Ok (result, <[result := with_data R d]> h)).
Proof.
  intros Hg Hf Hs Hr HF HS HR. unfold apply_gate, gate_data.
  erewrite load_step; [|solve_lookup].
  destruct (matrix_allocate_run h (numRows G) (numCols G)) as (o & Ho & Hnone & Hnn).
  rewrite (bind_ok _ _ _ _ _ Ho).
  assert (o <> gate /\ o <> first /\ o <> second /\ o <> result)
    as (N1 & N2 & N3 & N4) by (repeat split; congruence).
  rewrite bind_lift.
  destruct (int_to_fp (-1) p) as [neg_one|u]; cbn [mbind res_bind]; [|reflexivity].
  erewrite scalar_product_step; [|solve_lookup..|solve_shape].
  destruct (scalar_product_data p neg_one (data G)) as [scaled|u];
    cbn [mbind res_bind]; [|reflexivity].
  rewrite insert_insert_eq, bind_lift.
  destruct (int_to_fp 1 p) as [one|u]; cbn [mbind res_bind]; [|reflexivity].
  erewrite scalar_add_step; [|solve_lookup..|solve_shape].
  rewrite insert_insert_eq. norm_matrix.
  erewrite matrix_hadamard_step; [|solve_lookup..| |]; [|solve_shape..].
  norm_matrix.
  destruct (hadamard_data p (data S) _) as [b|u];
    cbn [mbind res_bind]; [|reflexivity].
  rewrite insert_insert_eq.
  erewrite matrix_hadamard_step; [|solve_lookup..| |]; [|solve_shape..].
  destruct (hadamard_data p (data F) (data G)) as [a|u];
    cbn [mbind res_bind]; [|reflexivity].
  erewrite matrix_add_step; [|solve_lookup..| |]; [|solve_shape..].
  rewrite insert_insert_eq. norm_matrix.
  erewrite matrix_free_step; [|solve_lookup].
  cbn. do 2 f_equal.
  rewrite delete_insert_ne by congruence.
  rewrite delete_insert_eq, delete_id by assumption. reflexivity.
Qed.

Lemma apply_gate_step {T} (f : ptr -> prog T) (h : gmap N matrix)
    result gate first second p G F S R :
  h !! gate = Some G -> h !! first = Some F -> h !! second = Some S ->
  h !! result = Some R ->
  shape F = shape G -> shape S = shape G -> shape R = shape G ->
  (apply_gate result gate first second p ≫= f) h
  = (d ← gate_data p (data G) (data F) (data S);
     f result (<[result := with_data R d]> h)).
Proof.
  intros. apply (bind_res _ _ _ _ (fun _ => result)
                   (fun d => <[result := with_data R d]> h)).
  now apply apply_gate_run.
Qed.

(** ** The gated blend on values *)

Lemma map_res_ok {A B} (f : A -> res B) (g : A -> B) (P : A -> Prop) l :
  (forall x, P x -> f x = Ok (g x)) -> Forall P l -> map_res f l = Ok (map g l).
Proof.
  intros Hf Hl. induction Hl as [|x l Hx Hl IH]; [reflexivity|].
  cbn. rewrite (Hf x Hx). cbn. rewrite IH. reflexivity.
Qed.

Lemma map_res_length {A B} (f : A -> res B) l d :
  map_res f l = Ok d -> length d = length l.
Proof.
  revert d. induction l as [|x l IH]; intros d; cbn.
  - now intros [= <-].
  - destruct (f x); cbn; [|discriminate].
    destruct (map_res f l); cbn; [|discriminate].
    intros [= <-]. cbn. f_equal. now apply IH.
Qed.

Lemma hadamard_data_ok p a b :
  0 <= p <= 30 -> Forall in_int16 a -> Forall in_int16 b ->
  hadamard_data p a b = Ok (zip_with (fx_mul p) a b).
Proof.
  intros Hp Ha. revert b. induction Ha as [|x a Hx Ha IH]; intros b Hb.
  - reflexivity.
  - destruct Hb as [|y b Hy Hb]; [reflexivity|].
    unfold hadamard_data in *. cbn.
    rewrite fp_mul_eq by assumption. cbn. rewrite IH by assumption. reflexivity.
Qed.

Lemma Forall_in_int16_zip_fx_mul p a b : Forall in_int16 (zip_with (fx_mul p) a b).
Proof.
  revert b. induction a as [|x a IH]; intros [|y b]; cbn; constructor.
  - apply to_int16_range.
  - apply IH.
Qed.

Lemma gate_data_blend p g first second :
  0 <= p <= 14 ->
  Forall in_int16 g -> Forall in_int16 first -> Forall in_int16 second ->
  gate_data p g first second = Ok (zip3_with (gate_blend p) g first second).
Proof.
  intros Hp Hg Hf Hs. pose proof (pow2_bounds_14 p Hp) as HP.
  unfold gate_data. rewrite int_to_fp_neg_one by assumption. cbn.
  unfold scalar_product_data.
  rewrite (map_res_ok _ (fun x => fx_mul p x (- 2 ^ p)) in_int16);
    [|intros x Hx; apply fp_mul_eq;
      [assumption|unfold in_int16, INT16_MIN, INT16_MAX; lia|lia]
     |assumption].
  cbn. rewrite int_to_fp_one by assumption. cbn.
  rewrite (hadamard_data_ok p second); [|lia|assumption|].
  2:{ unfold scalar_add_data. apply List.Forall_map, Forall_forall.
      intros x _. apply fp_add_in_int16. }
  cbn. rewrite (hadamard_data_ok p first) by (try assumption; lia). cbn. f_equal.
  clear Hg Hf Hs. revert first second.
  induction g as [|x g IH]; intros [|y first] [|z second]; cbn; try reflexivity.
  f_equal. apply IH.
Qed.

Lemma gate_blend_one p f s : 0 <= p <= 14 -> in_int16 f -> gate_blend p (2 ^ p) f s = f.
Proof.
  intros Hp Hf. pose proof (pow2_bounds_14 p Hp) as HP.
  unfold gate_blend, gate_complement, fx_mul, fp_add.
  rewrite Z.quot_mul by lia. rewrite (to_int16_id f) by assumption.
  rewrite Z.mul_opp_r, Z.quot_opp_l, Z.quot_mul by lia.
  rewrite (to_int16_id (- 2 ^ p)) by (unfold in_int16, INT16_MIN, INT16_MAX; lia).
  rewrite Z.add_opp_diag_l. change (to_int16 0) with 0.
  rewrite Z.mul_0_r, Z.quot_0_l by lia. change (to_int16 0) with 0.
  rewrite Z.add_0_r. now apply to_int16_id.
Qed.

Lemma gate_blend_zero p f s : 0 <= p <= 14 -> in_int16 s -> gate_blend p 0 f s = s.
Proof.
  intros Hp Hs. pose proof (pow2_bounds_14 p Hp) as HP.
  unfold gate_blend, gate_complement, fx_mul, fp_add.
  rewrite Z.mul_0_r, Z.mul_0_l, Z.quot_0_l by lia. change (to_int16 0) with 0.
  rewrite !Z.add_0_l.
  rewrite (to_int16_id (2 ^ p)) by (unfold in_int16, INT16_MIN, INT16_MAX; lia).
  rewrite Z.quot_mul by lia. rewrite (to_int16_id s) by assumption.
  now apply to_int16_id.
Qed.

Lemma zip3_blend_ones p g first second :
  0 <= p <= 14 -> Forall (fun x => x = 2 ^ p) g -> Forall in_int16 first ->
  length first = length g -> length second = length g ->
  zip3_with (gate_blend p) g first second = first.
Proof.
  intros Hp Hg. revert first second.
  induction Hg as [|x g -> Hg IH]; intros [|y first] [|z second] Hf L1 L2;
    cbn in *; try discriminate; try reflexivity.
  inversion Hf; subst. f_equal; [now apply gate_blend_one|].
  apply IH; [assumption|lia..].
Qed.

Lemma zip3_blend_zeros p g first second :
  0 <= p <= 14 -> Forall (fun x => x = 0) g -> Forall in_int16 second ->
  length first = length g -> length second = length g ->
  zip3_with (gate_blend p) g first second = second.
Proof.
  intros Hp Hg. revert first second.
  induction Hg as [|x g -> Hg IH]; intros [|y first] [|z second] Hs L1 L2;
    cbn in *; try discriminate; try reflexivity.
  inversion Hs; subst. f_equal; [now apply gate_blend_zero|].
  apply IH; [assumption|lia..].
Qed.

Lemma same_shape_length a b :
  well_formed a -> well_formed b -> shape a = shape b ->
  length (data a) = length (data b).
Proof.
  intros [Ha _] [Hb _] Hs. unfold shape in Hs. injection Hs as Hr Hc.
  rewrite Hr, Hc in Ha. lia.
Qed.

(** C7. [apply_gate result g first second precision] writes
    [first (.) g + second (.) (1 - g)] into [result], entry by entry
    [gate_blend], with the complement [1 - g] computed as
    [scalar_add (scalar_product g (-1)) 1]; [result] may alias any operand
    and nothing else in the store changes. Consequently, with a gate of
    fixed-point ones (every entry [2^precision]) the result holds the data
    of [first], and with a gate of zeros exactly the data of [second]. The
    operands are well-formed 16-bit matrices of one shape and the precision
    is between 0 and 14, so that [2^precision] is a 16-bit value. *)
Theorem apply_gate_blend (h : gmap N matrix) result gate first second p G F S R :
  h !! gate = Some G -> h !! first = Some F -> h !! second = Some S ->
  h !! result = Some R ->
  shape F = shape G -> shape S = shape G -> shape R = shape G ->
  well_formed G -> well_formed F -> well_formed S -> 0 <= p <= 14 ->
  apply_gate result gate first second p h
  = Ok (result, <[result := with_data R (zip3_with (gate_blend p)
                                           (data G) (data F) (data S))]> h)
  /\ (Forall (fun g => g = 2 ^ p) (data G) ->
      apply_gate result gate first second p h
      = Ok (result, <[result := with_data R (data F)]> h))
  /\ (Forall (fun g => g = 0) (data G) ->
      apply_gate result gate first second p h
      = Ok (result, <[result := with_data R (data S)]> h)).
Proof.
  intros Hg Hf Hs Hr HF HS HR WG WF WS Hp.
  assert (Hrun : apply_gate result gate first second p h
    = Ok (result, <[result := with_data R (zip3_with (gate_blend p)
                                             (data G) (data F) (data S))]> h)).
  { rewrite (apply_gate_run h result gate first second p G F S R) by assumption.
    rewrite gate_data_blend by (try assumption; apply WG || apply WF || apply WS).
    reflexivity. }
  pose proof (same_shape_length F G WF WG HF) as LF.
  pose proof (same_shape_length S G WS WG HS) as LS.
  split; [exact Hrun|]. split; intros Hall; rewrite Hrun.
  - rewrite zip3_blend_ones by (try assumption; apply WF). reflexivity.
  - rewrite zip3_blend_zeros by (try assumption; apply WS). reflexivity.
Qed.

Lemma apply_gate_blend_witness :
  let h : gmap N matrix :=
    <[1%N := Matrix [40; -12] 2 1]> (<[2%N := Matrix [32; 32] 2 1]>
      (<[3%N := Matrix [7; 9] 2 1]> ∅)) in
  apply_gate 1%N 2%N 1%N 3%N 5 h
  = Ok (1%N, <[1%N := with_data (Matrix [40; -12] 2 1) [40; -12]]> h).
Proof.
  intros h.
  assert (W : forall a b, in_int16 a -> in_int16 b ->
                          well_formed (Matrix [a; b] 2 1)).
  { intros a b Ha Hb. split; [reflexivity|].
    constructor; [assumption|constructor; [assumption|constructor]]. }
  assert (I : forall z, -32768 <= z <= 32767 -> in_int16 z)
    by (intros z Hz; exact Hz).
  refine (proj1 (proj2 (apply_gate_blend h 1%N 2%N 1%N 3%N 5
            (Matrix [32; 32] 2 1) (Matrix [40; -12] 2 1) (Matrix [7; 9] 2 1)
            (Matrix [40; -12] 2 1) _ _ _ _ _ _ _ _ _ _ _)) _);
    try reflexivity; try (apply W; apply I; lia); try lia.
  repeat constructor.
Defined.

(** ** The sequence driver *)

(** C1 (amended). For a cell-type tag other than [GRUCell] and
    [TFGRUCell], [rnn] zero-fills the result buffer and then: for every
    [seqLength >= 1] (with at least one input) it returns the null pointer
    from the first iteration, without applying any cell; for
    [seqLength <= 0] the loop body never runs and it returns the
    zero-filled result buffer itself, not the null pointer. *)
Theorem rnn_unknown_cell (h : gmap N matrix) result inputs c cellType
    seqLength p R :
  h !! result = Some R -> cellType <> GRUCell -> cellType <> TFGRUCell ->
  (0 < seqLength -> inputs <> [] ->
   rnn result inputs c cellType seqLength p h
   = Ok (NULL_PTR,
         <[result := with_data R (replicate (length (data R)) 0)]> h))
  /\ (seqLength <= 0 ->
      rnn result inputs c cellType seqLength p h
      = Ok (result,
            <[result := with_data R (replicate (length (data R)) 0)]> h)).
Proof.
  intros Hr Hg Ht. split.
  - intros Hlen Hin. unfold rnn. cbv zeta.
    erewrite matrix_set_step by eassumption.
    destruct (Z.to_nat seqLength) as [|n] eqn:En; [lia|].
    cbn [rnn_loop]. destruct inputs as [|q inputs]; [congruence|].
    rewrite bind_lift. cbn.
    destruct (cellType =? GRUCell) eqn:E1; [lia|].
    destruct (cellType =? TFGRUCell) eqn:E2; [lia|]. reflexivity.
  - intros Hlen. unfold rnn. cbv zeta.
    erewrite matrix_set_step by eassumption.
    replace (Z.to_nat seqLength) with O by lia. reflexivity.
Qed.

Lemma rnn_unknown_cell_witness :
  let h : gmap N matrix :=
    <[1%N := Matrix [16] 1 1]> (<[2%N := Matrix [32; -16] 2 1]> ∅) in
  rnn 2%N [1%N] (TFGRUParams (Build_TFGRU 3 4 5 6)) 7 3 5 h
  = Ok (NULL_PTR, <[2%N := Matrix [0; 0] 2 1]> h).
Proof.
  intros h.
  refine (proj1 (rnn_unknown_cell h 2%N [1%N] (TFGRUParams (Build_TFGRU 3 4 5 6))
                   7 3 5 (Matrix [32; -16] 2 1) _ _ _) _ _);
    first [ reflexivity | discriminate | lia ].
Defined.

(** C1 as stated fails for [seqLength = 0]: with an unrecognised tag the
    driver returns the zero-filled result buffer, not the null pointer. *)
Lemma rnn_empty_sequence_not_null :
  let h : gmap N matrix :=
    <[1%N := Matrix [16] 1 1]> (<[2%N := Matrix [32; -16] 2 1]> ∅) in
  7 <> GRUCell /\ 7 <> TFGRUCell
  /\ rnn 2%N [1%N] (TFGRUParams (Build_TFGRU 3 4 5 6)) 7 0 5 h
     = Ok (2%N, <[2%N := Matrix [0; 0] 2 1]> h)
  /\ 2%N <> NULL_PTR.
Proof. repeat split; discriminate. Qed.

(** ** Splitting the gate block *)

Lemma with_data_id m : with_data m (data m) = m.
Proof. now destruct m. Qed.

Lemma get_data_step {T} (f : Z -> prog T) (h : gmap N matrix) p m (i : nat) :
  h !! p = Some m -> (i < length (data m))%nat ->
  (get_data p (Z.of_nat i) ≫= f) h = f (nth i (data m) 0) h.
Proof.
  intros Hp Hi. apply bind_ok. unfold get_data.
  erewrite load_step by eassumption.
  destruct (0 <=? Z.of_nat i) eqn:E1; [|lia].
  destruct (Z.of_nat i <? Z.of_nat (length (data m))) eqn:E2; [|lia].
  cbn [andb]. now rewrite Nat2Z.id.
Qed.

Lemma set_data_step {T} (f : ptr -> prog T) (h : gmap N matrix) p m (i : nat) v :
  h !! p = Some m -> (i < length (data m))%nat ->
  (set_data p (Z.of_nat i) v ≫= f) h
  = f p (<[p := with_data m (<[i := v]> (data m))]> h).
Proof.
  intros Hp Hi. apply bind_ok. unfold set_data.
  erewrite load_step by eassumption.
  destruct (0 <=? Z.of_nat i) eqn:E1; [|lia].
  destruct (Z.of_nat i <? Z.of_nat (length (data m))) eqn:E2; [|lia].
  cbn [andb]. rewrite Nat2Z.id. now apply store_run with m.
Qed.

(** The copying loop moves [n] entries of the source, from [i] on, to the
    destination, from [i - o] on. *)
Lemma copy_rows_run n :
  forall (h : gmap N matrix) dst src (i o : nat) Sm Dm,
    dst <> src -> h !! src = Some Sm -> h !! dst = Some Dm ->
    (o <= i)%nat -> (i + n <= length (data Sm))%nat ->
    (i - o + n <= length (data Dm))%nat ->
    copy_rows n dst src (Z.of_nat i) (Z.of_nat o) h
    = Ok (Z.of_nat (i + n),
          <[dst := with_data Dm (take (i - o) (data Dm)
                                 ++ take n (drop i (data Sm))
                                 ++ drop (i - o + n) (data Dm))]> h).
Proof.
  induction n as [|n IH]; intros h dst src i o Sm Dm Hne Hs Hd Hoi HS HD.
  - cbn [copy_rows]. rewrite !Nat.add_0_r, take_0, app_nil_l.
    rewrite take_drop, with_data_id, insert_id by assumption. reflexivity.
  - cbn [copy_rows].
    erewrite get_data_step by (try eassumption; lia).
    rewrite <- Nat2Z.inj_sub by assumption.
    erewrite set_data_step by (try eassumption; lia).
    replace (Z.of_nat i + 1) with (Z.of_nat (S i)) by lia.
    set (D1 := with_data Dm (<[(i - o)%nat := nth i (data Sm) 0]> (data Dm))).
    rewrite (IH _ dst src (S i) o Sm D1); cycle 1.
    { exact Hne. }
    { rewrite lookup_insert_ne by congruence. exact Hs. }
    { apply lookup_insert_eq. }
    { lia. }
    { lia. }
    { unfold D1. cbn [with_data data]. rewrite length_insert. lia. }
    unfold D1.
    rewrite insert_insert_eq. unfold with_data. cbn [data numRows numCols].
    replace (S i + n)%nat with (i + S n)%nat by lia.
    replace (S i - o)%nat with (S (i - o)) by lia.
    set (k := (i - o)%nat) in *.
    destruct (nth_lookup_or_length (data Sm) i 0) as [Hnth|]; [|lia].
    erewrite take_S_r by (apply list_lookup_insert_eq; lia).
    rewrite take_insert_ge by lia.
    rewrite drop_insert_lt by lia.
    rewrite (drop_S _ _ _ Hnth), firstn_cons.
    rewrite <- app_assoc. cbn [app].
    replace (S k + n)%nat with (k + S n)%nat by lia. reflexivity.
Qed.

Lemma length_index_pairs (l1 l2 : list nat) :
  length (flat_map (fun i => map (fun j => (i, j)) l2) l1)
  = (length l1 * length l2)%nat.
Proof.
  induction l1 as [|i l1 IH]; [reflexivity|].
  cbn [flat_map]. rewrite length_app, length_map, IH. reflexivity.
Qed.

Lemma multiply_data_length p a b d :
  multiply_data p a b = Ok d ->
  length d = (Z.to_nat (numRows a) * Z.to_nat (numCols b))%nat.
Proof.
  unfold multiply_data. intros H. apply map_res_length in H.
  now rewrite H, length_index_pairs, !length_seq.
Qed.

Lemma copy_first (l z : list Z) n :
  length z = n ->
  take (0 - 0) z ++ take n (drop 0 l) ++ drop (0 - 0 + n) z = take n l.
Proof.
  intros Hz. cbn [Nat.sub Nat.add]. rewrite take_0, drop_0, app_nil_l.
  rewrite (drop_ge z) by lia. apply app_nil_r.
Qed.

Lemma copy_second (l z : list Z) n :
  length z = n ->
  take (n - n) z ++ take n (drop n l) ++ drop (n - n + n) z = take n (drop n l).
Proof.
  intros Hz. rewrite Nat.sub_diag, take_0, app_nil_l. cbn [Nat.add].
  rewrite (drop_ge z) by lia. apply app_nil_r.
Qed.

Ltac alloc_step p Hnone :=
  match goal with
  | |- (matrix_allocate ?r ?c ≫= _) ?h = _ =>
      let H := fresh "Halloc" in
      destruct (matrix_allocate_run h r c) as (p & H & Hnone & _);
      rewrite (bind_ok _ _ _ _ _ H); clear H;
      repeat (apply lookup_insert_None in Hnone as [Hnone ?])
  end.

Ltac res_step E :=
  match goal with
  | |- (?r ≫= _) = _ =>
      let u := fresh "u" in
      destruct r as [?|u] eqn:E; cbn [mbind res_bind]; [|reflexivity]
  end.

Ltac solve_lookup_del :=
  repeat first [ rewrite lookup_insert_eq
               | rewrite lookup_insert_ne by congruence
               | rewrite lookup_delete_ne by congruence ];
  first [ reflexivity | eassumption ].

(** ** The fused cell *)

(** [apply_tf_gru] writes the new state into [result], computed from the
    contents of its operands as [tf_gru_data] says; [result] may alias the
    state, as it does in [rnn]; every intermediate matrix is freed. *)
Lemma apply_tf_gru_run (h : gmap N matrix) result input state gru p
    I S Wg Bg Wc Bc R :
  h !! input = Some I -> h !! state = Some S ->
  h !! wGates gru = Some Wg -> h !! bGates gru = Some Bg ->
  h !! wCandidates gru = Some Wc -> h !! bCandidates gru = Some Bc ->
  h !! result = Some R ->
  0 <= numRows I -> 0 <= numRows S ->
  numCols I = 1 -> numCols S = 1 ->
  shape Wg = (numRows S * 2, numRows I + numRows S) ->
  shape Bg = (numRows S * 2, 1) ->
  shape Wc = (numRows S, numRows I + numRows S) ->
  shape Bc = (numRows S, 1) ->
  shape R = shape S ->
  Z.of_nat (length (data Bg)) = numRows Bg * numCols Bg ->
  apply_tf_gru result input state gru p h
  = (d ← tf_gru_data p I S Wg Bg Wc Bc;
     Ok (result, <[result := with_data R d]> h)).
Proof.
  intros Hi Hs Hwg Hbg Hwc Hbc Hr HnI HnS HcI HcS SWg SBg SWc SBc SR LBg.
  unfold shape in *.
  injection SWg as RWg CWg. injection SBg as RBg CBg.
  injection SWc as RWc CWc. injection SBc as RBc CBc.
  injection SR as RR CR.
  unfold apply_tf_gru, tf_gru_data. cbv zeta.
  erewrite load_step by eassumption.
  erewrite load_step by eassumption.
  alloc_step stacked Nst. alloc_step gates Ngt. alloc_step candidate Ncd.
  alloc_step update Nup. alloc_step reset Nrs.
  set (hd := Z.to_nat (numRows S)).
  (* the gates *)
  erewrite stack_step; [|solve_lookup..| | |]; [|solve_shape..].
  norm_matrix.
  erewrite matrix_multiply_step; [|solve_lookup..| | |]; [|solve_shape..].
  norm_matrix. res_step Eg0.
  erewrite matrix_add_step; [|solve_lookup..| |]; [|solve_shape..].
  norm_matrix.
  erewrite apply_elementwise_step; [|solve_lookup..|solve_shape].
  norm_matrix. res_step Egates.
  match goal with H : multiply_data _ _ _ = Ok ?a |- _ =>
    apply multiply_data_length in H; cbn [numRows numCols] in H; rename a into g0
  end.
  match goal with H : elementwise_data _ _ _ = Ok ?a |- _ =>
    apply map_res_length in H; unfold add_data in H;
    rewrite length_zip_with in H; rename a into gts
  end.
  rewrite RWg, HcS in Eg0. change (Z.to_nat 1) with 1%nat in Eg0.
  rewrite Nat.mul_1_r in Eg0.
  rewrite RBg, CBg, Z.mul_1_r in LBg.
  assert (Lg : length gts = (hd + hd)%nat).
  { rewrite Egates, Eg0. unfold hd. clear -LBg HnS. lia. }
  assert (Lz : length (replicate (Z.to_nat (numRows S * numCols S)) 0) = hd).
  { rewrite length_replicate, HcS, Z.mul_1_r. reflexivity. }
  (* the split *)
  erewrite bind_ok; cycle 1.
  { apply (copy_rows_run _ _ reset gates 0 0); [congruence|solve_lookup..| | |];
      cbn [data]; rewrite ?Lz, ?Lg; clear; lia. }
  cbn [data]. rewrite Z.sub_0_r. fold hd.
  rewrite copy_first by exact Lz. norm_matrix.
  erewrite load_step by solve_lookup. cbn [numRows].
  cbn [Nat.add].
  replace (Z.to_nat (numRows S * 2 - Z.of_nat hd)) with hd
    by (unfold hd; clear - HnS; lia).
  erewrite bind_ok; cycle 1.
  { apply (copy_rows_run _ _ update gates hd hd); [congruence|solve_lookup..| | |];
      cbn [data]; rewrite ?Lz, ?Lg; clear; lia. }
  cbn [data]. rewrite copy_second by exact Lz. norm_matrix.
  (* the candidate state *)
  erewrite matrix_hadamard_step; [|solve_lookup..| |]; [|solve_shape..].
  norm_matrix. res_step Era.
  erewrite stack_step; [|solve_lookup..| | |]; [|solve_shape..].
  norm_matrix.
  erewrite matrix_multiply_step; [|solve_lookup..| | |]; [|solve_shape..].
  norm_matrix. res_step Ec0.
  erewrite matrix_add_step; [|solve_lookup..| |]; [|solve_shape..].
  norm_matrix.
  erewrite apply_elementwise_step; [|solve_lookup..|solve_shape].
  norm_matrix. res_step Ec.
  (* the result *)
  erewrite apply_gate_step; [|solve_lookup..| | |]; [|solve_shape..].
  norm_matrix. res_step Ed.
  erewrite matrix_free_step by solve_lookup_del.
  erewrite matrix_free_step by solve_lookup_del.
  erewrite matrix_free_step by solve_lookup_del.
  erewrite matrix_free_step by solve_lookup_del.
  erewrite matrix_free_step by solve_lookup_del.
  unfold mret, prog_ret. do 2 f_equal.
  assert (result <> stacked /\ result <> gates /\ result <> candidate
          /\ result <> update /\ result <> reset)
    as (R1 & R2 & R3 & R4 & R5) by (repeat split; congruence).
  apply map_eq. intros q.
  destruct (decide (q = gates)) as [->|Q1];
    [rewrite lookup_delete_eq, lookup_insert_ne by congruence; now rewrite Ngt|].
  rewrite lookup_delete_ne by congruence.
  destruct (decide (q = stacked)) as [->|Q2];
    [rewrite lookup_delete_eq, lookup_insert_ne by congruence; now rewrite Nst|].
  rewrite lookup_delete_ne by congruence.
  destruct (decide (q = candidate)) as [->|Q3];
    [rewrite lookup_delete_eq, lookup_insert_ne by congruence; now rewrite Ncd|].
  rewrite lookup_delete_ne by congruence.
  destruct (decide (q = reset)) as [->|Q4];
    [rewrite lookup_delete_eq, lookup_insert_ne by congruence; now rewrite Nrs|].
  rewrite lookup_delete_ne by congruence.
  destruct (decide (q = update)) as [->|Q5];
    [rewrite lookup_delete_eq, lookup_insert_ne by congruence; now rewrite Nup|].
  rewrite lookup_delete_ne by congruence.
  destruct (decide (q = result)) as [->|Q6].
  - now rewrite !lookup_insert_eq.
  - repeat rewrite lookup_insert_ne by congruence. reflexivity.
Qed.

(** C2. In the fused cell, with an input of [n] rows, a state of [hidden]
    rows, both one column wide, and parameters of the matching shapes,
    [apply_tf_gru] computes [tf_gru_data]:
    [gates = sigmoid (Wgates . vstack (input, state) + bgates)], a block of
    [2 * hidden] rows; rows [[0, hidden)] of it are the reset gate and rows
    [[hidden, 2 * hidden)] the update gate; the reset gate is multiplied
    entry by entry into the previous state, the product is stacked under
    the input, [candidate = tanh (Wcand . vstack (input, r (.) state) +
    bcand)], and the new state, written into [result], is the gated blend
    of the previous state and the candidate by the update gate. An
    undefined step (a division by zero in an activation) makes the whole
    call undefined in the same way. *)
Theorem apply_tf_gru_split (h : gmap N matrix) result input state gru p
    I S Wg Bg Wc Bc R :
  h !! input = Some I -> h !! state = Some S ->
  h !! wGates gru = Some Wg -> h !! bGates gru = Some Bg ->
  h !! wCandidates gru = Some Wc -> h !! bCandidates gru = Some Bc ->
  h !! result = Some R ->
  0 <= numRows I -> 0 <= numRows S ->
  numCols I = 1 -> numCols S = 1 ->
  shape Wg = (numRows S * 2, numRows I + numRows S) ->
  shape Bg = (numRows S * 2, 1) ->
  shape Wc = (numRows S, numRows I + numRows S) ->
  shape Bc = (numRows S, 1) ->
  shape R = shape S ->
  Z.of_nat (length (data Bg)) = numRows Bg * numCols Bg ->
  let hidden := Z.to_nat (numRows S) in
  apply_tf_gru result input state gru p h
  = (g0 ← multiply_data p Wg
            (Matrix (data I ++ data S) (numRows I + numRows S) (numCols S));
     gates ← elementwise_data fp_sigmoid p (add_data g0 (data Bg));
     let r := take hidden gates in
     let z := take hidden (drop hidden gates) in
     r_applied ← hadamard_data p (data S) r;
     c0 ← multiply_data p Wc
            (Matrix (data I ++ r_applied) (numRows I + numRows S) (numCols S));
     c ← elementwise_data fp_tanh p (add_data c0 (data Bc));
     d ← gate_data p z (data S) c;
     Ok (result, <[result := with_data R d]> h)).
Proof.
  intros Hi Hs Hwg Hbg Hwc Hbc Hr HnI HnS HcI HcS SWg SBg SWc SBc SR LBg hidden.
  rewrite (apply_tf_gru_run h result input state gru p I S Wg Bg Wc Bc R)
    by assumption.
  unfold tf_gru_data. cbv zeta. fold hidden.
  repeat match goal with
  | |- context [mbind _ ?r] =>
      match r with
      | mbind _ _ => fail 1
      | _ => destruct r; cbn [mbind res_bind]; try reflexivity
      end
  end.
Qed.

Lemma apply_tf_gru_split_witness :
  let h : gmap N matrix :=
    <[1%N := Matrix [16] 1 1]>
    (<[2%N := Matrix [32; -16] 2 1]>
    (<[3%N := Matrix [32;0;0; 0;32;0; 0;0;32; 16;16;16] 4 3]>
    (<[4%N := Matrix [0;0;0;0] 4 1]>
    (<[5%N := Matrix [32;0;0; 0;32;32] 2 3]>
    (<[6%N := Matrix [1;2] 2 1]> ∅))))) in
  apply_tf_gru 2%N 1%N 2%N (Build_TFGRU 3 4 5 6) 5 h
  = Ok (2%N, <[2%N := Matrix [21; -6] 2 1]> h).
Proof.
  intros h.
  refine (eq_trans
    (apply_tf_gru_split h 2%N 1%N 2%N (Build_TFGRU 3 4 5 6) 5
       (Matrix [16] 1 1) (Matrix [32; -16] 2 1)
       (Matrix [32;0;0; 0;32;0; 0;0;32; 16;16;16] 4 3) (Matrix [0;0;0;0] 4 1)
       (Matrix [32;0;0; 0;32;32] 2 3) (Matrix [1;2] 2 1) (Matrix [32; -16] 2 1)
       _ _ _ _ _ _ _ _ _ _ _ _ _ _ _ _ _) _);
    try reflexivity; cbn; lia.
Defined.

(** * Further properties of the arithmetic *)

(** ** Addition, subtraction and negation modulo 2^16 *)

Lemma to_int16_add_l a b : to_int16 (to_int16 a + b) = to_int16 (a + b).
Proof.
  unfold to_int16. f_equal.
  replace ((a + 32768) mod 65536 - 32768 + b + 32768)
    with ((a + 32768) mod 65536 + b) by lia.
  rewrite Zplus_mod_idemp_l. f_equal. lia.
Qed.

Lemma to_int16_add_r a b : to_int16 (a + to_int16 b) = to_int16 (a + b).
Proof. now rewrite Z.add_comm, to_int16_add_l, Z.add_comm. Qed.

Lemma to_int16_opp a : to_int16 (- to_int16 a) = to_int16 (- a).
Proof.
  unfold to_int16. f_equal.
  replace (- ((a + 32768) mod 65536 - 32768) + 32768)
    with (65536 - (a + 32768) mod 65536) by lia.
  rewrite Zminus_mod_idemp_r. f_equal. lia.
Qed.

Lemma to_int16_high z : 32767 < z <= 98303 -> to_int16 z = z - 65536.
Proof.
  intros H. unfold to_int16.
  replace (z + 32768) with ((z - 32768) + 1 * 65536) by lia.
  rewrite Z_mod_plus_full, Z.mod_small by lia. lia.
Qed.

Lemma to_int16_low z : -98304 <= z < -32768 -> to_int16 z = z + 65536.
Proof.
  intros H. unfold to_int16.
  replace (z + 32768) with ((z + 98304) + (-1) * 65536) by lia.
  rewrite Z_mod_plus_full, Z.mod_small by lia. lia.
Qed.

Lemma fp_neg_to_int16 q : fp_neg (to_int16 q) = to_int16 (- q).
Proof.
  unfold fp_neg. replace (-1 * to_int16 q) with (- to_int16 q) by lia.
  apply to_int16_opp.
Qed.

(** X1. [fp_add], [fp_neg] and [fp_sub] are the operations of the group of
    integers modulo 2^16 on the 16-bit values: the sum is a 16-bit value,
    addition is commutative and associative also where it wraps, 0 is
    neutral, [fp_neg x] is the inverse of [x] (for -32768 too, which is its
    own opposite), negating twice gives [x] back, [fp_sub] is the addition
    of the opposite, and subtracting what was added restores [x] even when
    the sum overflowed. *)
Theorem fp_add_group x y z :
  in_int16 x ->
  in_int16 (fp_add x y)
  /\ fp_add x y = fp_add y x
  /\ fp_add (fp_add x y) z = fp_add x (fp_add y z)
  /\ fp_add x 0 = x
  /\ fp_add x (fp_neg x) = 0
  /\ fp_neg (fp_neg x) = x
  /\ fp_sub x y = fp_add x (fp_neg y)
  /\ fp_sub (fp_add x y) y = x.
Proof.
  intros Hx. unfold fp_add, fp_sub, fp_neg.
  split; [apply to_int16_range|].
  split; [now rewrite Z.add_comm|].
  split; [now rewrite to_int16_add_l, to_int16_add_r, Z.add_assoc|].
  split; [rewrite Z.add_0_r; now apply to_int16_id|].
  split; [rewrite to_int16_add_r; now replace (x + -1 * x) with 0 by lia|].
  split.
  { replace (-1 * to_int16 (-1 * x)) with (- to_int16 (- x)) by (f_equal; lia).
    rewrite to_int16_opp, Z.opp_involutive. now apply to_int16_id. }
  split; [rewrite to_int16_add_r; f_equal; lia|].
  replace (to_int16 (x + y) - y) with (to_int16 (x + y) + - y) by lia.
  rewrite to_int16_add_l.
  replace (x + y + - y) with x by lia. now apply to_int16_id.
Qed.

Lemma fp_add_group_witness :
  in_int16 (fp_add 30000 10000)
  /\ fp_add 30000 10000 = fp_add 10000 30000
  /\ fp_add (fp_add 30000 10000) (-7) = fp_add 30000 (fp_add 10000 (-7))
  /\ fp_add 30000 0 = 30000
  /\ fp_add 30000 (fp_neg 30000) = 0
  /\ fp_neg (fp_neg 30000) = 30000
  /\ fp_sub 30000 10000 = fp_add 30000 (fp_neg 10000)
  /\ fp_sub (fp_add 30000 10000) 10000 = 30000.
Proof.
  apply (fp_add_group 30000 10000 (-7)).
  unfold in_int16, INT16_MIN, INT16_MAX. lia.
Defined.

(** X2. On 16-bit operands [fp_add] returns the true sum exactly when the
    sum is a 16-bit value; a sum above 32767 comes back lowered by 65536,
    hence negative, and a sum below -32768 comes back raised by 65536,
    hence non-negative. [fp_sub] is exact exactly when the difference
    fits, and [fp_neg x] is [- x] for every [x] but -32768, which it
    returns unchanged. *)
Theorem fp_add_exact_or_wrapped x y :
  in_int16 x -> in_int16 y ->
  (fp_add x y = x + y <-> in_int16 (x + y))
  /\ (INT16_MAX < x + y -> fp_add x y = x + y - 65536 /\ fp_add x y < 0)
  /\ (x + y < INT16_MIN -> fp_add x y = x + y + 65536 /\ 0 <= fp_add x y)
  /\ (fp_sub x y = x - y <-> in_int16 (x - y))
  /\ (fp_neg x = - x <-> x <> INT16_MIN)
  /\ fp_neg INT16_MIN = INT16_MIN.
Proof.
  intros Hx Hy. unfold fp_add, fp_sub, fp_neg.
  pose proof (to_int16_range (x + y)) as Ha.
  pose proof (to_int16_range (x - y)) as Hs.
  pose proof (to_int16_range (-1 * x)) as Hn.
  unfold in_int16, INT16_MIN, INT16_MAX in *.
  split; [split; [intros E; rewrite <- E; exact Ha|intros H; now apply to_int16_id]|].
  split; [intros H; rewrite to_int16_high by lia; lia|].
  split; [intros H; rewrite to_int16_low by lia; lia|].
  split; [split; [intros E; rewrite <- E; exact Hs|intros H; now apply to_int16_id]|].
  split; [|reflexivity].
  split.
  - intros E ->. discriminate E.
  - intros H. rewrite to_int16_id; [lia|]. unfold in_int16, INT16_MIN, INT16_MAX. lia.
Qed.

Lemma fp_add_exact_or_wrapped_witness :
  fp_add 30000 10000 = 30000 + 10000 - 65536 /\ fp_add 30000 10000 < 0.
Proof.
  apply (fp_add_exact_or_wrapped 30000 10000);
    unfold in_int16, INT16_MIN, INT16_MAX; lia.
Defined.

(** ** Laws of the product and of the quotient *)

Lemma quot_scaled_abs_le a y P :
  0 < P -> Z.abs y <= P -> Z.abs (Z.quot (a * y) P) <= Z.abs a.
Proof.
  intros HP Hy. rewrite <- Z.quot_abs by lia.
  rewrite (Z.abs_eq P), Z.quot_div_nonneg by lia.
  apply Z.div_le_upper_bound; [lia|].
  rewrite Z.abs_mul, (Z.mul_comm P). apply Z.mul_le_mono_nonneg_l; lia.
Qed.

Lemma quot_sign a b P : 0 < P -> 0 <= Z.quot (a * b) P * (a * b).
Proof.
  intros HP.
  destruct (Z.le_gt_cases 0 (a * b)) as [H|H].
  - assert (0 <= Z.quot (a * b) P) by (apply Z.quot_pos; lia). nia.
  - assert (Z.quot (a * b) P <= 0).
    { replace (a * b) with (- (- (a * b))) by lia.
      rewrite Z.quot_opp_l by lia.
      assert (0 <= Z.quot (- (a * b)) P) by (apply Z.quot_pos; lia). lia. }
    nia.
Qed.

(** X3. For 16-bit operands and a precision between 0 and 30, [fp_mul] is
    commutative, a zero operand gives 0, and, because the quotient is
    truncated toward zero, negating an operand other than -32768 negates
    the product. Multiplying such an [x] by a [y] of magnitude at most
    1.0 ([|y| <= 2^p]) returns the truncated quotient itself, nothing
    wraps: its magnitude is at most [|x|] and its sign is that of
    [x * y]. *)
Theorem fp_mul_laws x y p :
  in_int16 x -> in_int16 y -> 0 <= p <= 30 ->
  fp_mul x y p = fp_mul y x p
  /\ fp_mul 0 y p = Ok 0
  /\ (x <> INT16_MIN ->
      fp_mul (fp_neg x) y p = (v ← fp_mul x y p; mret (fp_neg v)))
  /\ (x <> INT16_MIN -> Z.abs y <= 2 ^ p ->
      exists v, fp_mul x y p = Ok v /\ v = Z.quot (x * y) (2 ^ p)
                /\ Z.abs v <= Z.abs x /\ 0 <= v * (x * y)).
Proof.
  intros Hx Hy Hp. pose proof (pow2_bounds p Hp) as HP.
  split; [unfold fp_mul, int_mul; now rewrite (Z.mul_comm x y)|].
  split.
  { rewrite fp_mul_eq by (try assumption; unfold in_int16, INT16_MIN, INT16_MAX; lia).
    rewrite Z.mul_0_l, Z.quot_0_l by lia. reflexivity. }
  split.
  { intros Hm. rewrite (fp_mul_eq x y p) by assumption. cbn.
    rewrite fp_neg_to_int16, fp_neg_opp by assumption.
    rewrite fp_mul_eq; [|unfold in_int16, INT16_MIN, INT16_MAX in *; lia|assumption..].
    rewrite Z.mul_opp_l, Z.quot_opp_l by lia. reflexivity. }
  intros Hm Hy1. exists (Z.quot (x * y) (2 ^ p)).
  pose proof (quot_scaled_abs_le x y (2 ^ p)) as Hb.
  pose proof (quot_sign x y (2 ^ p)) as Hs.
  rewrite fp_mul_eq by assumption.
  rewrite to_int16_id; [repeat split; try lia|].
  unfold in_int16, INT16_MIN, INT16_MAX in *. lia.
Qed.

Lemma fp_mul_laws_witness :
  fp_mul (-300) 24 5 = fp_mul 24 (-300) 5
  /\ fp_mul (fp_neg (-300)) 24 5 = (v ← fp_mul (-300) 24 5; mret (fp_neg v))
  /\ exists v, fp_mul (-300) 24 5 = Ok v /\ v = Z.quot (-300 * 24) (2 ^ 5)
               /\ Z.abs v <= Z.abs (-300) /\ 0 <= v * (-300 * 24).
Proof.
  assert (H : in_int16 (-300) /\ in_int16 24 /\ 0 <= 5 <= 30)
    by (unfold in_int16, INT16_MIN, INT16_MAX; lia).
  destruct H as (Hx & Hy & Hp).
  destruct (fp_mul_laws (-300) 24 5 Hx Hy Hp) as (Hc & _ & Hn & Hb).
  split; [exact Hc|].
  split; [apply Hn; discriminate|apply Hb; [discriminate|cbn; lia]].
Defined.

(** X4. For 16-bit operands, a divisor other than 0 and a precision
    between 0 and 14: a value divided by itself is 1.0 ([2^p]), 0 divided
    by anything is 0, dividing by 1.0 returns the dividend, dividing by
    the raw integer 1 is the conversion [int_to_fp], and negating a
    dividend other than -32768 negates the quotient. *)
Theorem fp_div_laws x y p :
  in_int16 x -> in_int16 y -> y <> 0 -> 0 <= p <= 14 ->
  fp_div y y p = Ok (2 ^ p)
  /\ fp_div 0 y p = Ok 0
  /\ fp_div x (2 ^ p) p = Ok x
  /\ fp_div x 1 p = int_to_fp x p
  /\ (x <> INT16_MIN ->
      fp_div (fp_neg x) y p = (v ← fp_div x y p; mret (fp_neg v))).
Proof.
  intros Hx Hy Hy0 Hp. pose proof (pow2_bounds_14 p Hp) as HP.
  assert (H0 : in_int16 0) by (unfold in_int16, INT16_MIN, INT16_MAX; lia).
  assert (HP16 : in_int16 (2 ^ p)) by (unfold in_int16, INT16_MIN, INT16_MAX; lia).
  split.
  { rewrite fp_div_eq by (try assumption; lia).
    rewrite Z.mul_comm, Z.quot_mul by assumption. now rewrite to_int16_id. }
  split.
  { rewrite fp_div_eq by (try assumption; lia).
    rewrite Z.mul_0_l, Z.quot_0_l by assumption. reflexivity. }
  split.
  { rewrite fp_div_eq by (try assumption; lia).
    rewrite Z.quot_mul by lia. now rewrite to_int16_id. }
  split.
  { rewrite fp_div_eq by (try assumption; lia). rewrite Z.quot_1_r.
    unfold int_to_fp. rewrite int_shl1_ok by lia. cbn.
    pose proof (int16_scale_in_int x p Hx ltac:(lia)).
    rewrite int_mul_ok by (unfold INT_MIN, INT_MAX; lia). reflexivity. }
  intros Hm. rewrite (fp_div_eq x y p) by (try assumption; lia). cbn.
  rewrite fp_neg_to_int16, fp_neg_opp by assumption.
  rewrite fp_div_eq; [|unfold in_int16, INT16_MIN, INT16_MAX in *; lia|assumption|lia].
  rewrite Z.mul_opp_l, Z.quot_opp_l by lia. reflexivity.
Qed.

Lemma fp_div_laws_witness :
  fp_div (-48) (-48) 5 = Ok (2 ^ 5) /\ fp_div 0 (-48) 5 = Ok 0
  /\ fp_div 96 (2 ^ 5) 5 = Ok 96 /\ fp_div 96 1 5 = int_to_fp 96 5
  /\ fp_div (fp_neg 96) (-48) 5 = (v ← fp_div 96 (-48) 5; mret (fp_neg v)).
Proof.
  assert (H : in_int16 96 /\ in_int16 (-48) /\ -48 <> 0 /\ 0 <= 5 <= 14)
    by (unfold in_int16, INT16_MIN, INT16_MAX; lia).
  destruct H as (Hx & Hy & Hy0 & Hp).
  destruct (fp_div_laws 96 (-48) 5 Hx Hy Hy0 Hp) as (H1 & H2 & H3 & H4 & H5).
  split; [exact H1|]. split; [exact H2|]. split; [exact H3|].
  split; [exact H4|]. apply H5. discriminate.
Defined.

(** X5. Dividing and multiplying back: for 16-bit [x], [y <> 0], a
    precision between 0 and 15 and a quotient [x * 2^p / y] that fits in
    16 bits, [fp_mul (fp_div x y p) y p] returns [r] with
    [|r - x| * 2^p < |y| + 2^p]; [r] lies between 0 and [x], and it is
    within one unit of [x] when [|y| <= 2^p], that is when the divisor is
    at most 1.0 in magnitude. *)
Theorem fp_mul_undoes_fp_div x y p :
  in_int16 x -> in_int16 y -> y <> 0 -> 0 <= p <= 15 ->
  in_int16 (Z.quot (x * 2 ^ p) y) ->
  exists q r, fp_div x y p = Ok q /\ fp_mul q y p = Ok r
    /\ Z.abs (r - x) * 2 ^ p < Z.abs y + 2 ^ p
    /\ Z.abs r <= Z.abs x /\ 0 <= r * x
    /\ (Z.abs y <= 2 ^ p -> Z.abs (r - x) <= 1).
Proof.
  intros Hx Hy Hy0 Hp Hq.
  pose proof (pow2_bounds_15 p Hp) as HP.
  set (P := 2 ^ p) in *.
  set (q := Z.quot (x * P) y) in *.
  set (r := Z.quot (q * y) P).
  destruct (roundtrip_quot x P (Z.abs y)) as (Hb & Hr & Hs & _); [lia|lia|].
  cbv zeta in Hb, Hr, Hs.
  assert (Er : Z.quot (Z.quot (x * P) (Z.abs y) * Z.abs y) P = r).
  { unfold r, q. destruct (Z.lt_ge_cases y 0) as [Hneg|Hpos].
    - rewrite (Z.abs_neq y), Z.quot_opp_r by lia. f_equal. lia.
    - now rewrite (Z.abs_eq y) by lia. }
  rewrite Er, (Z.abs_eq P) in * by lia.
  assert (Hr16 : in_int16 r) by (unfold in_int16, INT16_MIN, INT16_MAX in *; lia).
  exists q, r. split; [|split; [|split; [|split; [|split]]]]; try assumption.
  - rewrite fp_div_eq by assumption. fold P q. now rewrite to_int16_id.
  - rewrite fp_mul_eq by (try assumption; lia). fold P r. now rewrite to_int16_id.
  - intros Hsmall.
    assert (Z.abs (r - x) * P < 2 * P) by lia.
    apply Z.nlt_ge. intros Hge.
    assert (2 * P <= Z.abs (r - x) * P) by (apply Z.mul_le_mono_nonneg_r; lia).
    lia.
Qed.

Lemma fp_mul_undoes_fp_div_witness :
  exists q r, fp_div 100 (-24) 5 = Ok q /\ fp_mul q (-24) 5 = Ok r
    /\ Z.abs (r - 100) * 2 ^ 5 < Z.abs (-24) + 2 ^ 5
    /\ Z.abs r <= Z.abs 100 /\ 0 <= r * 100
    /\ (Z.abs (-24) <= 2 ^ 5 -> Z.abs (r - 100) <= 1).
Proof.
  apply (fp_mul_undoes_fp_div 100 (-24) 5);
    unfold in_int16, INT16_MIN, INT16_MAX; try lia.
  vm_compute. split; discriminate.
Defined.

(** ** Changing the precision *)

Lemma convert_fp_eq x old new :
  in_int16 x -> 0 <= old <= 30 -> 0 <= new <= 15 ->
  convert_fp x old new = Ok (to_int16 (Z.quot (x * 2 ^ new) (2 ^ old))).
Proof.
  intros Hx Ho Hn. unfold convert_fp.
  pose proof (int16_scale_in_int x new Hx Hn) as Hs.
  pose proof (pow2_bounds old Ho) as HO.
  rewrite (int_shl1_ok new), (int_shl1_ok old) by lia. cbn.
  rewrite int_mul_ok by (unfold INT_MIN, INT_MAX; lia). cbn.
  rewrite int_div_ok by (unfold INT_MIN; lia). reflexivity.
Qed.

(** X6. [convert_fp] between two precisions [lo <= hi] (at most 15), on a
    16-bit [x]. Raising the precision multiplies by [2^(hi - lo)] and is
    exact when the product fits in 16 bits, and lowering it again gives
    [x] back. Lowering the precision divides by [2^(hi - lo)], truncating
    toward zero; raising the result again gives a [z] between 0 and [x]
    that is less than [2^(hi - lo)] away from [x]. Converting to the same
    precision changes nothing. *)
Theorem convert_fp_roundtrip x lo hi :
  in_int16 x -> 0 <= lo <= hi -> hi <= 15 ->
  (in_int16 (x * 2 ^ (hi - lo)) ->
   convert_fp x lo hi = Ok (x * 2 ^ (hi - lo))
   /\ convert_fp (x * 2 ^ (hi - lo)) hi lo = Ok x)
  /\ (exists y z, convert_fp x hi lo = Ok y /\ y = Z.quot x (2 ^ (hi - lo))
        /\ convert_fp y lo hi = Ok z
        /\ Z.abs z <= Z.abs x /\ Z.abs (x - z) < 2 ^ (hi - lo) /\ 0 <= z * x)
  /\ convert_fp x lo lo = Ok x.
Proof.
  intros Hx Hlo Hhi.
  pose proof (pow2_bounds_15 lo ltac:(lia)) as HL.
  pose proof (pow2_bounds_15 hi ltac:(lia)) as HH.
  pose proof (pow2_bounds_15 (hi - lo) ltac:(lia)) as HD.
  pose proof (pow2_split hi lo ltac:(lia)) as E.
  set (L := 2 ^ lo) in *. set (H := 2 ^ hi) in *. set (D := 2 ^ (hi - lo)) in *.
  assert (Eup : forall a, Z.quot (a * H) L = a * D).
  { intros a. rewrite E. replace (a * (L * D)) with (a * D * L) by ring.
    apply Z.quot_mul. lia. }
  assert (Edown : forall a, Z.quot (a * L) H = Z.quot a D).
  { intros a. rewrite E, (Z.mul_comm L D). apply Z.quot_mul_cancel_r; lia. }
  split; [|split].
  - intros Hfit. split.
    + rewrite convert_fp_eq by (try assumption; lia). fold L H.
      rewrite Eup. now rewrite to_int16_id.
    + rewrite convert_fp_eq by (try assumption; lia). fold L H.
      rewrite Edown, Z.quot_mul by lia. now rewrite to_int16_id.
  - set (y := Z.quot x D).
    assert (Hy : Z.abs y <= Z.abs x).
    { unfold y. rewrite <- Z.quot_abs by lia. rewrite (Z.abs_eq D) by lia.
      rewrite Z.quot_div_nonneg by lia.
      apply Z.div_le_upper_bound; [lia|]. nia. }
    pose proof (Z.quot_rem' x D) as Hqr. fold y in Hqr.
    pose proof (Z.rem_bound_abs x D ltac:(lia)) as Hrb.
    pose proof (Z.rem_sign_mul x D ltac:(lia)) as Hrs.
    assert (Hy16 : in_int16 y) by (int16_unfold; lia).
    assert (Hyx : 0 <= y * x).
    { unfold y. destruct (Z.le_gt_cases 0 x) as [Hp|Hn].
      - assert (0 <= Z.quot x D) by (apply Z.quot_pos; lia). nia.
      - assert (Z.quot x D <= 0).
        { replace x with (- - x) by lia. rewrite Z.quot_opp_l by lia.
          assert (0 <= Z.quot (- x) D) by (apply Z.quot_pos; lia). lia. }
        nia. }
    assert (Hz : Z.abs (D * y) <= Z.abs x /\ Z.abs (x - D * y) < D
                 /\ 0 <= (D * y) * x).
    { rewrite (Z.abs_eq D) in Hrb by lia. split; [|split]; [| lia | nia].
      destruct (Z.le_gt_cases 0 x); nia. }
    exists y, (y * D). split; [|split; [reflexivity|split]].
    + rewrite convert_fp_eq by (try assumption; lia). fold L H.
      rewrite Edown. fold y. now rewrite to_int16_id.
    + rewrite convert_fp_eq by (try assumption; lia). fold L H.
      rewrite Eup. rewrite to_int16_id; [reflexivity|].
      rewrite (Z.mul_comm y D). int16_unfold. lia.
    + rewrite (Z.mul_comm y D). exact Hz.
  - rewrite convert_fp_eq by (try assumption; lia).
    rewrite Z.quot_mul by lia. now rewrite to_int16_id.
Qed.

Lemma convert_fp_roundtrip_witness :
  (convert_fp (-75) 3 8 = Ok (-75 * 2 ^ (8 - 3))
   /\ convert_fp (-75 * 2 ^ (8 - 3)) 8 3 = Ok (-75))
  /\ (exists y z, convert_fp (-75) 8 3 = Ok y /\ y = Z.quot (-75) (2 ^ (8 - 3))
        /\ convert_fp y 3 8 = Ok z
        /\ Z.abs z <= Z.abs (-75) /\ Z.abs (-75 - z) < 2 ^ (8 - 3)
        /\ 0 <= z * -75).
Proof.
  assert (H : in_int16 (-75) /\ 0 <= 3 <= 8 /\ 8 <= 15)
    by (unfold in_int16, INT16_MIN, INT16_MAX; lia).
  destruct H as (Hx & Hlo & Hhi).
  destruct (convert_fp_roundtrip (-75) 3 8 Hx Hlo Hhi) as (Hup & Hdown & _).
  split; [apply Hup; vm_compute; split; discriminate|exact Hdown].
Defined.

(** X7. For a 16-bit integer [n] and a precision between 0 and 15,
    [int_to_fp n p] is [n * 2^p] narrowed to 16 bits, the same as
    [convert_fp n 0 p]. Where [n * 2^p] fits in 16 bits the conversion is
    exact, [convert_fp] back to precision 0 recovers [n], and [fp_mul] by
    the converted integer multiplies a 16-bit [y] by [n] (modulo 2^16,
    with no rounding). *)
Theorem int_to_fp_scales n y p :
  in_int16 n -> in_int16 y -> 0 <= p <= 15 ->
  int_to_fp n p = Ok (to_int16 (n * 2 ^ p))
  /\ int_to_fp n p = convert_fp n 0 p
  /\ (in_int16 (n * 2 ^ p) ->
      int_to_fp n p = Ok (n * 2 ^ p)
      /\ convert_fp (n * 2 ^ p) p 0 = Ok n
      /\ fp_mul (n * 2 ^ p) y p = Ok (to_int16 (n * y))).
Proof.
  intros Hn Hy Hp. pose proof (pow2_bounds_15 p Hp) as HP.
  pose proof (int16_scale_in_int n p Hn Hp) as Hs.
  assert (E : int_to_fp n p = Ok (to_int16 (n * 2 ^ p))).
  { unfold int_to_fp. rewrite int_shl1_ok by lia. cbn.
    rewrite int_mul_ok by (unfold INT_MIN, INT_MAX; lia). reflexivity. }
  split; [exact E|]. split.
  { rewrite E, convert_fp_eq by (try assumption; lia).
    change (2 ^ 0) with 1. now rewrite Z.quot_1_r. }
  intros Hfit. split; [|split].
  - rewrite E. now rewrite to_int16_id.
  - rewrite convert_fp_eq by (try assumption; lia).
    change (2 ^ 0) with 1. rewrite Z.mul_1_r, Z.quot_mul by lia.
    now rewrite to_int16_id.
  - rewrite fp_mul_eq by (try assumption; lia).
    replace (n * 2 ^ p * y) with (n * y * 2 ^ p) by ring.
    now rewrite Z.quot_mul by lia.
Qed.

Lemma int_to_fp_scales_witness :
  int_to_fp 6 5 = Ok (6 * 2 ^ 5) /\ convert_fp (6 * 2 ^ 5) 5 0 = Ok 6
  /\ fp_mul (6 * 2 ^ 5) (-700) 5 = Ok (to_int16 (6 * -700)).
Proof.
  assert (H : in_int16 6 /\ in_int16 (-700) /\ 0 <= 5 <= 15)
    by (unfold in_int16, INT16_MIN, INT16_MAX; lia).
  destruct H as (Hn & Hy & Hp).
  apply (proj2 (proj2 (int_to_fp_scales 6 (-700) 5 Hn Hy Hp))).
  vm_compute. split; discriminate.
Defined.

(** ** The activations where nothing wraps *)

(** Where the square of the argument is below one unit the approximant is
    the argument itself. *)
Lemma tanh_rational_small x p :
  3 <= p <= 14 -> 0 <= x -> x * x < 2 ^ p ->
  tanh_rational x p = Ok (2 ^ p, x).
Proof.
  intros Hp Hx Hsq.
  pose proof (pow2_bounds_14 p ltac:(lia)) as HP.
  pose proof (pow2_bounds_14 (p - 3) ltac:(lia)) as HE.
  pose proof (pow2_bounds_14 (p - 1) ltac:(lia)) as HH.
  assert (Hx16 : in_int16 x) by (int16_unfold; nia).
  assert (H0 : in_int16 0) by (int16_unfold; lia).
  assert (HP16 : in_int16 (2 ^ p)) by (int16_unfold; lia).
  unfold tanh_rational.
  rewrite (int_shl1_ok (p - 3)), (int_shl1_ok (p - 1)) by lia. cbn.
  rewrite int_to_fp_one by lia. cbn.
  rewrite (to_int16_id (2 ^ (p - 3))), (to_int16_id (2 ^ (p - 1)))
    by (int16_unfold; lia).
  rewrite (fp_mul_eq x x) by (try assumption; lia). cbn.
  rewrite (Z.quot_small (x * x)) by nia. change (to_int16 0) with 0.
  rewrite !(fp_mul_eq 0) by (try assumption; int16_unfold; lia). cbn.
  rewrite !Z.mul_0_l, Z.quot_0_l by lia. change (to_int16 0) with 0.
  unfold fp_add. rewrite Z.add_0_r, to_int16_id by assumption.
  rewrite fp_div_eq by (try assumption; lia). cbn.
  rewrite Z.quot_mul, to_int16_id by (try assumption; lia).
  rewrite fp_mul_eq by (try assumption; lia). cbn.
  rewrite Z.quot_mul, to_int16_id by (try assumption; lia).
  reflexivity.
Qed.

(** X8. For a precision between 3 and 14 and a 16-bit [x] whose square
    fits in 16 bits ([x * x / 2^p <= 32767]), [fp_tanh x p] returns a
    value of the sign of [x] and of magnitude at most [min (|x|, 2^p)]:
    the approximation never exceeds its argument. Where the square of [x]
    is below one unit ([x * x < 2^p]) it returns [x] itself. *)
Theorem fp_tanh_contracts x p :
  in_int16 x -> 3 <= p <= 14 -> Z.quot (x * x) (2 ^ p) <= 32767 ->
  exists v, fp_tanh x p = Ok v
    /\ Z.abs v <= Z.min (Z.abs x) (2 ^ p)
    /\ 0 <= v * x
    /\ (x * x < 2 ^ p -> v = x).
Proof.
  intros Hx Hp Hsq.
  pose proof (pow2_bounds_14 p ltac:(lia)) as HP.
  assert (Hm : x <> INT16_MIN).
  { intros ->. pose proof (square_min_too_big p ltac:(lia)). lia. }
  assert (Ha : 0 <= Z.abs x <= 32767) by (int16_unfold; lia).
  assert (Hsq' : Z.quot (Z.abs x * Z.abs x) (2 ^ p) <= 32767).
  { replace (Z.abs x * Z.abs x) with (x * x) by lia. exact Hsq. }
  destruct (fp_tanh_domain (Z.abs x) p Hp Ha Hsq') as (v & Hv & Hv' & Hb).
  assert (Hsmall : x * x < 2 ^ p -> v = Z.abs x).
  { intros Hs. rewrite fp_tanh_stages in Hv. cbv zeta in Hv.
    destruct (Z.abs x <? 0) eqn:E; [lia|].
    rewrite tanh_rational_small in Hv by lia. cbn in Hv.
    rewrite tanh_clip_nonneg in Hv by (int16_unfold; lia).
    injection Hv as <-. nia. }
  destruct (Z.le_gt_cases 0 x) as [Hpos|Hneg].
  - rewrite (Z.abs_eq x) in * by lia.
    exists v. split; [exact Hv|]. split; [lia|]. split; [nia|exact Hsmall].
  - rewrite (Z.abs_neq x) in * by lia. rewrite Z.opp_involutive in Hv'.
    exists (- v). split; [exact Hv'|]. split; [lia|]. split; [nia|].
    intros Hs. specialize (Hsmall Hs). lia.
Qed.

Lemma fp_tanh_contracts_witness :
  exists v, fp_tanh (-5) 5 = Ok v
    /\ Z.abs v <= Z.min (Z.abs (-5)) (2 ^ 5)
    /\ 0 <= v * -5
    /\ (-5 * -5 < 2 ^ 5 -> v = -5).
Proof.
  apply (fp_tanh_contracts (-5) 5);
    [unfold in_int16, INT16_MIN, INT16_MAX; lia|lia|vm_compute; discriminate].
Defined.

(** X9. For a precision between 3 and 14 and a 16-bit [x] other than
    -32768 whose halved magnitude has a square that fits in 16 bits,
    [fp_sigmoid x p] returns a value on the side of one half that the sign
    of [x] tells: at least [2^(p-1)] and at most [2^p] for [x >= 0], at
    least 0 and at most [2^(p-1)] for [x <= 0]; and its distance from one
    half is at most a quarter of [|x|], up to one unit
    ([|2 v - 2^p| <= |x| / 2 + 1]). *)
Theorem fp_sigmoid_half_plane x p :
  in_int16 x -> x <> INT16_MIN -> 3 <= p <= 14 ->
  Z.quot (Z.quot (Z.abs x) 2 * Z.quot (Z.abs x) 2) (2 ^ p) <= 32767 ->
  exists v, fp_sigmoid x p = Ok v
    /\ (0 <= x -> 2 ^ (p - 1) <= v <= 2 ^ p)
    /\ (x <= 0 -> 0 <= v <= 2 ^ (p - 1))
    /\ Z.abs (2 * v - 2 ^ p) <= Z.quot (Z.abs x) 2 + 1.
Proof.
  intros Hx Hm Hp Hsq.
  pose proof (pow2_bounds_14 p ltac:(lia)) as HP.
  pose proof (pow2_split p 1 ltac:(lia)) as E2. change (2 ^ 1) with 2 in E2.
  pose proof (pow2_bounds_14 (p - 1) ltac:(lia)) as HH.
  assert (Hh : 0 <= Z.quot (Z.abs x) 2 <= 16384).
  { apply quot2_bounds; int16_unfold; lia. }
  assert (Hh' : 0 <= Z.quot (Z.abs x) 2 <= 32767) by lia.
  destruct (fp_tanh_domain (Z.quot (Z.abs x) 2) p Hp Hh' Hsq) as (t & Ht & _ & Hb).
  rewrite fp_sigmoid_branches by assumption. rewrite Ht. cbn.
  pose proof (Z.quot_rem' (Z.abs x) 2) as Hqx.
  pose proof (Z.rem_bound_pos (Z.abs x) 2 ltac:(lia) ltac:(lia)) as Hrx.
  set (h := Z.quot (Z.abs x) 2) in *.
  pose proof (Z.quot_rem' (t + 2 ^ p) 2) as Hqr.
  pose proof (Z.rem_bound_pos (t + 2 ^ p) 2 ltac:(lia) ltac:(lia)) as Hrb.
  set (s := Z.quot (t + 2 ^ p) 2) in *.
  eexists. split; [reflexivity|].
  destruct (x <? 0) eqn:E; repeat split; try lia.
Qed.

Lemma fp_sigmoid_half_plane_witness :
  exists v, fp_sigmoid (-256) 8 = Ok v
    /\ (0 <= -256 -> 2 ^ (8 - 1) <= v <= 2 ^ 8)
    /\ (-256 <= 0 -> 0 <= v <= 2 ^ (8 - 1))
    /\ Z.abs (2 * v - 2 ^ 8) <= Z.quot (Z.abs (-256)) 2 + 1.
Proof.
  apply (fp_sigmoid_half_plane (-256) 8);
    [unfold in_int16, INT16_MIN, INT16_MAX; lia|discriminate|lia
    |vm_compute; discriminate].
Defined.

(** ** The factorial of the exponential series *)

Lemma to_int16_decomp z : exists m, to_int16 z = z + 65536 * m.
Proof.
  exists (- ((z + 32768) / 65536)). unfold to_int16.
  pose proof (Z.div_mod (z + 32768) 65536 ltac:(lia)). lia.
Qed.

Lemma to_int16_shift a c : to_int16 (a + 65536 * c) = to_int16 a.
Proof.
  unfold to_int16. f_equal.
  replace (a + 65536 * c + 32768) with (a + 32768 + c * 65536) by lia.
  apply Z_mod_plus_full.
Qed.

Lemma to_int16_multiple z : z mod 65536 = 0 -> to_int16 z = 0.
Proof.
  intros H. pose proof (Z.div_mod z 65536 ltac:(lia)) as E.
  rewrite H, Z.add_0_r in E. rewrite E.
  replace (65536 * (z / 65536)) with (0 + 65536 * (z / 65536)) by lia.
  now rewrite to_int16_shift.
Qed.

Lemma pow2_cofactor p : 0 <= p <= 15 -> 65536 = 2 ^ p * 2 ^ (16 - p).
Proof.
  intros Hp. rewrite <- Z.pow_add_r by lia.
  replace (p + (16 - p)) with 16 by lia. reflexivity.
Qed.

(** The product of the 16-bit images of two multiples of [2^p], divided by
    [2^p], is the image of the product of the multipliers. *)
Lemma fx_mul_multiples a b p :
  0 <= p <= 15 ->
  to_int16 (Z.quot (to_int16 (a * 2 ^ p) * to_int16 (b * 2 ^ p)) (2 ^ p))
  = to_int16 (a * b * 2 ^ p).
Proof.
  intros Hp. pose proof (pow2_bounds_15 p Hp) as HP.
  pose proof (pow2_cofactor p Hp) as EM.
  destruct (to_int16_decomp (a * 2 ^ p)) as (m & ->).
  destruct (to_int16_decomp (b * 2 ^ p)) as (n & ->).
  set (P := 2 ^ p) in *. set (Q := 2 ^ (16 - p)) in *.
  rewrite EM.
  replace ((a * P + P * Q * m) * (b * P + P * Q * n))
    with ((a + Q * m) * (b + Q * n) * P * P) by ring.
  rewrite Z.quot_mul by lia.
  replace ((a + Q * m) * (b + Q * n) * P)
    with (a * b * P + (P * Q) * (a * n + m * b + Q * m * n)) by ring.
  rewrite <- EM. apply to_int16_shift.
Qed.

(** The factorial kept by the loop is [k! * 2^p] modulo 2^16. *)
Lemma exp_factorial_closed p k :
  0 <= p <= 15 -> Z.of_nat k <= 32767 ->
  exp_factorial (to_int16 (2 ^ p)) p k = Ok (to_int16 (factorial k * 2 ^ p)).
Proof.
  intros Hp. pose proof (pow2_bounds_15 p Hp) as HP.
  induction k as [|k IH]; intros Hk.
  - cbn [exp_factorial factorial]. now rewrite Z.mul_1_l.
  - cbn [exp_factorial]. rewrite IH by lia. cbn [mbind res_bind].
    unfold int_to_fp. rewrite int_shl1_ok by lia. cbn [mbind res_bind].
    assert (Hi : 0 <= Z.of_nat (S k) * 2 ^ p <= 32767 * 32768) by nia.
    rewrite int_mul_ok by (unfold INT_MIN, INT_MAX; lia).
    cbn [mbind res_bind mret res_ret].
    rewrite fp_mul_eq by (try apply to_int16_range; lia).
    rewrite fx_mul_multiples by assumption.
    do 2 f_equal. cbn [factorial]. ring.
Qed.

Lemma fp_div_by_zero a p : is_ok (fp_div a 0 p) = false.
Proof.
  unfold fp_div. destruct (int_shl1 p); cbn; [|reflexivity].
  destruct (int_mul a _); reflexivity.
Qed.

Lemma exp_partial_sum_stays_undefined one x p k :
  is_ok (exp_partial_sum one x p k) = false ->
  forall K, (k <= K)%nat -> is_ok (exp_partial_sum one x p K) = false.
Proof.
  intros H K HK. induction HK as [|K HK IH]; [exact H|].
  cbn [exp_partial_sum]. destruct (exp_partial_sum one x p K); [discriminate|].
  reflexivity.
Qed.

Lemma exp_term_zero_factorial one x p k :
  exp_factorial one p k = Ok 0 -> is_ok (exp_term one x p k) = false.
Proof.
  intros H. unfold exp_term. rewrite H.
  destruct (exp_power one x p k); cbn; [apply fp_div_by_zero|reflexivity].
Qed.

(** X10. The factorial that [fp_exp] accumulates is [k! * 2^p] modulo
    2^16, so it is 0 at every [k] for which [k! * 2^p] is a multiple of
    65536 (as [6! * 2^12 = 45 * 65536]), and the term of that step divides
    by zero.
    Hence, for a non-negative 16-bit [x], a precision between 0 and 15 and
    an iteration cap above such a [k], [fp_exp] returns a value only if
    the running sum stopped changing at some step before [k], and the
    value is that sum. *)
Theorem fp_exp_factorial_wraps T x p k v :
  in_int16 x -> 0 <= x -> 0 <= p <= 15 ->
  1 <= Z.of_nat k <= 32767 -> Z.of_nat k < T ->
  (factorial k * 2 ^ p) mod 65536 = 0 ->
  fp_exp T x p = Ok v ->
  exp_factorial (to_int16 (2 ^ p)) p k = Ok 0
  /\ exists K, (K < k)%nat
       /\ exp_sum_settled (to_int16 (2 ^ p)) x p K = true
       /\ exp_partial_sum (to_int16 (2 ^ p)) x p K = Ok v.
Proof.
  intros Hx Hx0 Hp Hk HT Hwrap Hv.
  set (one := to_int16 (2 ^ p)) in *.
  assert (Hf : exp_factorial one p k = Ok 0).
  { unfold one. rewrite exp_factorial_closed by lia.
    now rewrite to_int16_multiple. }
  split; [exact Hf|].
  assert (Hbad : forall K, (k <= K)%nat ->
                   is_ok (exp_partial_sum one x p K) = false).
  { apply exp_partial_sum_stays_undefined.
    destruct k as [|k']; [lia|]. cbn [exp_partial_sum].
    destruct (exp_partial_sum one x p k'); cbn [mbind res_bind]; [|reflexivity].
    pose proof (exp_term_zero_factorial one x p (S k') Hf) as Ht.
    destruct (exp_term one x p (S k')); [discriminate|reflexivity]. }
  destruct (fp_exp_loop_series one x p (Z.to_nat (T - 1)) 0 one 0 one one)
    as (K & HK & _ & Hstop & Hres); try reflexivity.
  change (Z.of_nat 0 + 1) with 1 in Hres.
  unfold fp_exp in Hv. cbv zeta in Hv.
  destruct (x <? 0) eqn:E; [lia|].
  rewrite int_shl1_ok in Hv by lia. cbn [mbind res_bind] in Hv. fold one in Hv.
  rewrite Hres in Hv.
  destruct (exp_partial_sum one x p K) as [s|u] eqn:Es; [|discriminate].
  injection Hv as <-.
  assert (HKk : (K < k)%nat).
  { apply Nat.nle_gt. intros Hle. specialize (Hbad K Hle).
    rewrite Es in Hbad. discriminate. }
  exists K. split; [exact HKk|]. split; [|exact Es].
  destruct Hstop as [HKT|[Hset|Hno]]; [lia|exact Hset|discriminate].
Qed.

Lemma fp_exp_factorial_wraps_witness :
  exp_factorial (to_int16 (2 ^ 12)) 12 6 = Ok 0
  /\ exists K, (K < 6)%nat
       /\ exp_sum_settled (to_int16 (2 ^ 12)) 40 12 K = true
       /\ exp_partial_sum (to_int16 (2 ^ 12)) 40 12 K = Ok 4136.
Proof.
  apply (fp_exp_factorial_wraps 7 40 12 6 4136);
    try (unfold in_int16, INT16_MIN, INT16_MAX; lia); reflexivity.
Defined.

(** * Further properties of the layers *)

(** ** The dense layer *)

Lemma elementwise_linear p l : elementwise_data fp_linear_act p l = Ok l.
Proof.
  unfold elementwise_data. induction l as [|x l IH]; [reflexivity|].
  cbn. unfold elementwise_data in IH. now rewrite IH.
Qed.

(** X11. [dense result input W b activation precision], on operands whose
    shapes conform, writes [activation (W . input + b)] into [result],
    entry by entry, and changes nothing else; with the null pointer for
    [b] the addition is skipped and [result] holds
    [activation (W . input)]; with the identity activation [fp_linear] and
    no bias it holds the plain product. [result] may be one of [W] and
    [input], the bias is another matrix. A step that is undefined makes
    the call undefined in the same way. *)
Theorem dense_affine (h : gmap N matrix) result input W b act p I Wm R :
  h !! input = Some I -> h !! W = Some Wm -> h !! result = Some R ->
  numCols Wm = numRows I -> numRows R = numRows Wm -> numCols R = numCols I ->
  (b = NULL_PTR ->
   dense result input W b act p h
   = (d0 ← multiply_data p Wm I;
      d ← elementwise_data act p d0;
      Ok (result, <[result := with_data R d]> h)))
  /\ (forall B, b <> NULL_PTR -> b <> result -> h !! b = Some B ->
      shape B = shape R ->
      dense result input W b act p h
      = (d0 ← multiply_data p Wm I;
         d ← elementwise_data act p (add_data d0 (data B));
         Ok (result, <[result := with_data R d]> h)))
  /\ (b = NULL_PTR ->
      dense result input W b fp_linear_act p h
      = (d0 ← multiply_data p Wm I;
         Ok (result, <[result := with_data R d0]> h))).
Proof.
  intros Hi Hw Hr HWI HRW HRI.
  assert (Hnull : forall f, b = NULL_PTR ->
    dense result input W b f p h
    = (d0 ← multiply_data p Wm I;
       d ← elementwise_data f p d0;
       Ok (result, <[result := with_data R d]> h))).
  { intros f ->. unfold dense.
    erewrite matrix_multiply_step by eassumption.
    res_step Ed0. change (isNull NULL_PTR) with true. cbn [negb].
    unfold mbind at 1, prog_bind, mret, prog_ret.
    rewrite (apply_elementwise_run _ result result f p
               (with_data R a) (with_data R a));
      [|apply lookup_insert_eq..|reflexivity].
    cbn [with_data data numRows numCols].
    destruct (elementwise_data f p a); cbn [mbind res_bind]; [|reflexivity].
    now rewrite insert_insert_eq. }
  split; [apply Hnull|]. split.
  - intros B Hb Hbr HB SB. unfold dense.
    erewrite matrix_multiply_step by eassumption.
    res_step Ed0.
    assert (E : isNull b = false) by (unfold isNull; now apply N.eqb_neq).
    rewrite E. cbn [negb].
    erewrite matrix_add_step; [|solve_lookup..| |]; [|solve_shape..].
    rewrite insert_insert_eq. norm_matrix.
    rewrite (apply_elementwise_run _ result result act p
               (Matrix (add_data a (data B)) (numRows R) (numCols R))
               (Matrix (add_data a (data B)) (numRows R) (numCols R)));
      [|apply lookup_insert_eq..|reflexivity].
    cbn [with_data data numRows numCols].
    destruct (elementwise_data act p _); cbn [mbind res_bind]; [|reflexivity].
    now rewrite insert_insert_eq.
  - intros Hb. rewrite Hnull by assumption.
    destruct (multiply_data p Wm I); cbn [mbind res_bind]; [|reflexivity].
    now rewrite elementwise_linear.
Qed.

Lemma dense_affine_witness :
  let h : gmap N matrix :=
    <[1%N := Matrix [16; -8] 2 1]>
    (<[2%N := Matrix [32;0; 16;16] 2 2]>
    (<[3%N := Matrix [5; 5] 2 1]>
    (<[4%N := Matrix [1; 2] 2 1]> ∅))) in
  dense 3%N 1%N 2%N 4%N fp_tanh 5 h
  = Ok (3%N, <[3%N := Matrix [15; 6] 2 1]> h)
  /\ dense 3%N 1%N 2%N NULL_PTR fp_linear_act 5 h
     = Ok (3%N, <[3%N := Matrix [16; 4] 2 1]> h).
Proof.
  intros h.
  destruct (dense_affine h 3%N 1%N 2%N 4%N fp_tanh 5
              (Matrix [16; -8] 2 1) (Matrix [32;0; 16;16] 2 2)
              (Matrix [5; 5] 2 1)) as (_ & Hb & _); try reflexivity.
  destruct (dense_affine h 3%N 1%N 2%N NULL_PTR fp_linear_act 5
              (Matrix [16; -8] 2 1) (Matrix [32;0; 16;16] 2 2)
              (Matrix [5; 5] 2 1)) as (_ & _ & Hn); try reflexivity.
  split.
  - rewrite (Hb (Matrix [1; 2] 2 1)); [reflexivity|discriminate..|reflexivity
                                       |reflexivity].
  - rewrite Hn; reflexivity.
Defined.

(** ** The blend as a convex combination *)

Lemma quot_mul_abs u P : 0 < P -> Z.abs (Z.quot u P) * P <= Z.abs u.
Proof.
  intros HP. rewrite <- Z.quot_abs by lia. rewrite (Z.abs_eq P) by lia.
  rewrite Z.quot_div_nonneg by lia. rewrite Z.mul_comm.
  apply Z.mul_div_le. lia.
Qed.

Lemma quot_mul_near u P :
  0 < P -> u - P < Z.quot u P * P < u + P.
Proof.
  intros HP. pose proof (Z.quot_rem' u P) as E.
  pose proof (Z.rem_bound_abs u P ltac:(lia)) as Hb.
  rewrite (Z.abs_eq P) in Hb by lia. lia.
Qed.

Lemma gate_complement_eq p g :
  0 <= p <= 14 -> 0 <= g <= 2 ^ p -> gate_complement p g = 2 ^ p - g.
Proof.
  intros Hp Hg. pose proof (pow2_bounds_14 p Hp) as HP.
  unfold gate_complement, fx_mul, fp_add.
  rewrite Z.mul_opp_r, Z.quot_opp_l, Z.quot_mul by lia.
  rewrite (to_int16_id (- g)) by (int16_unfold; lia).
  rewrite to_int16_id by (int16_unfold; lia). lia.
Qed.

(** The blend of one entry by a gate between 0 and 1.0: a convex
    combination, up to the truncation of the two products. *)
Lemma gate_blend_convex p g f s B :
  0 <= p <= 14 -> 0 <= g <= 2 ^ p -> B <= 32767 ->
  Z.abs f <= B -> Z.abs s <= B ->
  Z.abs (gate_blend p g f s) <= B
  /\ Z.min f s - 1 <= gate_blend p g f s <= Z.max f s + 1.
Proof.
  intros Hp Hg HB Hf Hs. pose proof (pow2_bounds_14 p Hp) as HP.
  unfold gate_blend. rewrite gate_complement_eq by assumption.
  unfold fx_mul, fp_add. set (P := 2 ^ p) in *.
  pose proof (quot_mul_abs (f * g) P ltac:(lia)) as A1.
  pose proof (quot_mul_abs (s * (P - g)) P ltac:(lia)) as A2.
  pose proof (quot_mul_near (f * g) P ltac:(lia)) as N1.
  pose proof (quot_mul_near (s * (P - g)) P ltac:(lia)) as N2.
  set (a := Z.quot (f * g) P) in *. set (b := Z.quot (s * (P - g)) P) in *.
  rewrite !Z.abs_mul in A1, A2.
  rewrite (Z.abs_eq g) in A1 by lia. rewrite (Z.abs_eq (P - g)) in A2 by lia.
  assert (F1 : Z.abs f * g <= B * g) by (apply Z.mul_le_mono_nonneg_r; lia).
  assert (F2 : Z.abs s * (P - g) <= B * (P - g))
    by (apply Z.mul_le_mono_nonneg_r; lia).
  assert (Hab : Z.abs a + Z.abs b <= B).
  { apply Z.nlt_ge. intros Hlt.
    assert ((B + 1) * P <= (Z.abs a + Z.abs b) * P)
      by (apply Z.mul_le_mono_nonneg_r; lia).
    lia. }
  rewrite (to_int16_id a), (to_int16_id b) by (int16_unfold; lia).
  rewrite to_int16_id by (int16_unfold; lia).
  split; [lia|].
  assert (C1 : 0 <= (Z.max f s - f) * g) by (apply Z.mul_nonneg_nonneg; lia).
  assert (C2 : 0 <= (Z.max f s - s) * (P - g)) by (apply Z.mul_nonneg_nonneg; lia).
  assert (C3 : 0 <= (f - Z.min f s) * g) by (apply Z.mul_nonneg_nonneg; lia).
  assert (C4 : 0 <= (s - Z.min f s) * (P - g)) by (apply Z.mul_nonneg_nonneg; lia).
  set (mx := Z.max f s) in *. set (mn := Z.min f s) in *.
  assert (Hup : (a + b) * P < (mx + 2) * P) by lia.
  assert (Hlo : (mn - 2) * P < (a + b) * P) by lia.
  apply Z.mul_lt_mono_pos_r in Hup, Hlo; lia.
Qed.

Lemma zip3_with_lookup {A B C D} (f : A -> B -> C -> D) l1 l2 l3 (i : nat) v :
  zip3_with f l1 l2 l3 !! i = Some v ->
  exists a b c, l1 !! i = Some a /\ l2 !! i = Some b /\ l3 !! i = Some c
                /\ v = f a b c.
Proof.
  revert l2 l3 i. induction l1 as [|x l1 IH]; intros [|y l2] [|z l3] i;
    cbn; try discriminate.
  destruct i as [|i]; cbn.
  - intros [= <-]. now exists x, y, z.
  - apply IH.
Qed.

Lemma zip3_blend_bounded p g first second B :
  0 <= p <= 14 -> B <= 32767 ->
  Forall (fun v => 0 <= v <= 2 ^ p) g ->
  Forall (fun v => - B <= v <= B) first ->
  Forall (fun v => - B <= v <= B) second ->
  Forall (fun v => - B <= v <= B) (zip3_with (gate_blend p) g first second).
Proof.
  intros Hp HB Hg. revert first second.
  induction Hg as [|x g Hx Hg IH]; intros [|y first] [|z second] Hf Hs;
    cbn; try constructor.
  - inversion Hf; inversion Hs; subst.
    destruct (gate_blend_convex p x y z B) as [Hb _]; try assumption; lia.
  - inversion Hf; inversion Hs; subst. now apply IH.
Qed.

Lemma Forall_bounded_in_int16 B l :
  B <= 32767 -> Forall (fun v => - B <= v <= B) l -> Forall in_int16 l.
Proof.
  intros HB. apply Forall_impl. intros v Hv. int16_unfold. lia.
Qed.

Lemma gate_data_bounded p g first second B d :
  0 <= p <= 14 -> B <= 32767 ->
  Forall (fun v => 0 <= v <= 2 ^ p) g ->
  Forall (fun v => - B <= v <= B) first ->
  Forall (fun v => - B <= v <= B) second ->
  gate_data p g first second = Ok d ->
  d = zip3_with (gate_blend p) g first second
  /\ Forall (fun v => - B <= v <= B) d.
Proof.
  intros Hp HB Hg Hf Hs Hd. pose proof (pow2_bounds_14 p Hp) as HP.
  rewrite gate_data_blend in Hd; try assumption.
  - injection Hd as <-. split; [reflexivity|now apply zip3_blend_bounded].
  - revert Hg. apply Forall_impl. intros v Hv. int16_unfold. lia.
  - now apply Forall_bounded_in_int16 with B.
  - now apply Forall_bounded_in_int16 with B.
Qed.

(** X12. With a gate whose entries lie between 0 and 1.0 ([0 <= g <=
    2^p], as [fp_sigmoid] returns them) and operands of one shape whose
    entries are bounded in magnitude by [B], [apply_gate] returns, nothing
    wraps, and every entry of the result is bounded by [B] too; entry by
    entry the result lies between the smaller and the larger of the two
    blended entries, up to one unit, the truncation of the two products.
    The precision is between 0 and 14; [result] may alias an operand, and
    nothing else in the store changes. *)
Theorem apply_gate_convex (h : gmap N matrix) result gate first second p
    G F S R B :
  h !! gate = Some G -> h !! first = Some F -> h !! second = Some S ->
  h !! result = Some R ->
  shape F = shape G -> shape S = shape G -> shape R = shape G ->
  0 <= p <= 14 -> B <= 32767 ->
  Forall (fun g => 0 <= g <= 2 ^ p) (data G) ->
  Forall (fun v => - B <= v <= B) (data F) ->
  Forall (fun v => - B <= v <= B) (data S) ->
  exists d,
    apply_gate result gate first second p h
    = Ok (result, <[result := with_data R d]> h)
    /\ Forall (fun v => - B <= v <= B) d
    /\ forall (i : nat) g f s v,
         data G !! i = Some g -> data F !! i = Some f ->
         data S !! i = Some s -> d !! i = Some v ->
         Z.min f s - 1 <= v <= Z.max f s + 1.
Proof.
  intros Hg Hf Hs Hr SF SS SR Hp HB BG BF BS.
  rewrite (apply_gate_run h result gate first second p G F S R) by assumption.
  destruct (gate_data p (data G) (data F) (data S)) as [d|u] eqn:Ed.
  - destruct (gate_data_bounded p _ _ _ B d Hp HB BG BF BS Ed) as (-> & Hd).
    eexists. split; [reflexivity|]. split; [exact Hd|].
    intros i g f s v Ig If Is Iv.
    apply zip3_with_lookup in Iv as (g' & f' & s' & Ig' & If' & Is' & ->).
    rewrite Ig in Ig'. rewrite If in If'. rewrite Is in Is'.
    injection Ig' as <-. injection If' as <-. injection Is' as <-.
    pose proof (proj1 (Forall_lookup _ _) BG i g Ig) as Bg.
    pose proof (proj1 (Forall_lookup _ _) BF i f If) as Bf.
    pose proof (proj1 (Forall_lookup _ _) BS i s Is) as Bs.
    cbv beta in Bg, Bf, Bs.
    apply (gate_blend_convex p g f s B); try assumption; lia.
  - exfalso. rewrite gate_data_blend in Ed; [discriminate|assumption|..].
    + revert BG. apply Forall_impl. intros v Hv.
      pose proof (pow2_bounds_14 p Hp). int16_unfold. lia.
    + now apply Forall_bounded_in_int16 with B.
    + now apply Forall_bounded_in_int16 with B.
Qed.

Lemma apply_gate_convex_witness :
  let h : gmap N matrix :=
    <[1%N := Matrix [40; -12] 2 1]> (<[2%N := Matrix [8; 24] 2 1]>
      (<[3%N := Matrix [7; 30] 2 1]> ∅)) in
  exists d,
    apply_gate 1%N 2%N 1%N 3%N 5 h
    = Ok (1%N, <[1%N := with_data (Matrix [40; -12] 2 1) d]> h)
    /\ Forall (fun v => - 40 <= v <= 40) d
    /\ forall (i : nat) g f s v,
         [8; 24] !! i = Some g -> [40; -12] !! i = Some f ->
         [7; 30] !! i = Some s -> d !! i = Some v ->
         Z.min f s - 1 <= v <= Z.max f s + 1.
Proof.
  intros h.
  apply (apply_gate_convex h 1%N 2%N 1%N 3%N 5
           (Matrix [8; 24] 2 1) (Matrix [40; -12] 2 1) (Matrix [7; 30] 2 1)
           (Matrix [40; -12] 2 1) 40);
    try reflexivity; try lia;
    repeat (constructor; [cbn; lia|]); constructor.
Defined.

(** ** The GRU cell *)

(** [apply_gru] writes the new state into [result], computed from the
    contents of its operands as [gru_data] says; [result] may alias the
    state, as it does in [rnn]; the six intermediate matrices are freed. *)
Lemma apply_gru_run (h : gmap N matrix) result input state gru p
    I S Wu Uu Bu Wr Ur Br Wc Uc Bc R :
  h !! input = Some I -> h !! state = Some S ->
  h !! wUpdate gru = Some Wu -> h !! uUpdate gru = Some Uu ->
  h !! bUpdate gru = Some Bu ->
  h !! wReset gru = Some Wr -> h !! uReset gru = Some Ur ->
  h !! bReset gru = Some Br ->
  h !! wCandidate gru = Some Wc -> h !! uCandidate gru = Some Uc ->
  h !! bCandidate gru = Some Bc ->
  h !! result = Some R ->
  numCols I = numCols S ->
  shape Wu = (numRows S, numRows S) -> shape Uu = (numRows S, numRows I) ->
  shape Bu = shape S ->
  shape Wr = (numRows S, numRows S) -> shape Ur = (numRows S, numRows I) ->
  shape Br = shape S ->
  shape Wc = (numRows S, numRows S) -> shape Uc = (numRows S, numRows I) ->
  shape Bc = shape S ->
  shape R = shape S ->
  apply_gru result input state gru p h
  = (d ← gru_data p I S Wu Uu Bu Wr Ur Br Wc Uc Bc;
     Ok (result, <[result := with_data R d]> h)).
Proof.
  intros Hi Hs Hwu Huu Hbu Hwr Hur Hbr Hwc Huc Hbc Hr HcI
         SWu SUu SBu SWr SUr SBr SWc SUc SBc SR.
  unfold shape in *.
  injection SWu as RWu CWu. injection SUu as RUu CUu. injection SBu as RBu CBu.
  injection SWr as RWr CWr. injection SUr as RUr CUr. injection SBr as RBr CBr.
  injection SWc as RWc CWc. injection SUc as RUc CUc. injection SBc as RBc CBc.
  injection SR as RR CR.
  unfold apply_gru, gru_data.
  erewrite load_step by eassumption.
  alloc_step update Nup. alloc_step reset Nrs. alloc_step candidate Ncd.
  alloc_step inputUpdate Niu. alloc_step inputReset Nir.
  alloc_step inputCandidate Nic.
  (* the update state *)
  erewrite matrix_multiply_step; [|solve_lookup..| | |]; [|solve_shape..].
  norm_matrix. res_step Eiu.
  erewrite matrix_multiply_step; [|solve_lookup..| | |]; [|solve_shape..].
  norm_matrix. res_step Eu0.
  erewrite matrix_add_step; [|solve_lookup..| |]; [|solve_shape..].
  norm_matrix.
  erewrite matrix_add_step; [|solve_lookup..| |]; [|solve_shape..].
  norm_matrix.
  erewrite apply_elementwise_step; [|solve_lookup..|solve_shape].
  norm_matrix. res_step Eupd.
  (* the reset state *)
  erewrite matrix_multiply_step; [|solve_lookup..| | |]; [|solve_shape..].
  norm_matrix. res_step Eir.
  erewrite matrix_multiply_step; [|solve_lookup..| | |]; [|solve_shape..].
  norm_matrix. res_step Er0.
  erewrite matrix_add_step; [|solve_lookup..| |]; [|solve_shape..].
  norm_matrix.
  erewrite matrix_add_step; [|solve_lookup..| |]; [|solve_shape..].
  norm_matrix.
  erewrite apply_elementwise_step; [|solve_lookup..|solve_shape].
  norm_matrix. res_step Erst.
  erewrite matrix_hadamard_step; [|solve_lookup..| |]; [|solve_shape..].
  norm_matrix. res_step Era.
  (* the candidate state *)
  erewrite matrix_multiply_step; [|solve_lookup..| | |]; [|solve_shape..].
  norm_matrix. res_step Eic.
  erewrite matrix_multiply_step; [|solve_lookup..| | |]; [|solve_shape..].
  norm_matrix. res_step Ec0.
  erewrite matrix_add_step; [|solve_lookup..| |]; [|solve_shape..].
  norm_matrix.
  erewrite matrix_add_step; [|solve_lookup..| |]; [|solve_shape..].
  norm_matrix.
  erewrite apply_elementwise_step; [|solve_lookup..|solve_shape].
  norm_matrix. res_step Ec.
  (* the result *)
  erewrite apply_gate_step; [|solve_lookup..| | |]; [|solve_shape..].
  norm_matrix. res_step Ed.
  erewrite matrix_free_step by solve_lookup_del.
  erewrite matrix_free_step by solve_lookup_del.
  erewrite matrix_free_step by solve_lookup_del.
  erewrite matrix_free_step by solve_lookup_del.
  erewrite matrix_free_step by solve_lookup_del.
  erewrite matrix_free_step by solve_lookup_del.
  unfold mret, prog_ret. do 2 f_equal.
  assert (result <> update /\ result <> reset /\ result <> candidate
          /\ result <> inputUpdate /\ result <> inputReset
          /\ result <> inputCandidate)
    as (R1 & R2 & R3 & R4 & R5 & R6) by (repeat split; congruence).
  apply map_eq. intros q.
  destruct (decide (q = candidate)) as [->|Q1];
    [rewrite lookup_delete_eq, lookup_insert_ne by congruence; now rewrite Ncd|].
  rewrite lookup_delete_ne by congruence.
  destruct (decide (q = reset)) as [->|Q2];
    [rewrite lookup_delete_eq, lookup_insert_ne by congruence; now rewrite Nrs|].
  rewrite lookup_delete_ne by congruence.
  destruct (decide (q = update)) as [->|Q3];
    [rewrite lookup_delete_eq, lookup_insert_ne by congruence; now rewrite Nup|].
  rewrite lookup_delete_ne by congruence.
  destruct (decide (q = inputCandidate)) as [->|Q4];
    [rewrite lookup_delete_eq, lookup_insert_ne by congruence; now rewrite Nic|].
  rewrite lookup_delete_ne by congruence.
  destruct (decide (q = inputReset)) as [->|Q5];
    [rewrite lookup_delete_eq, lookup_insert_ne by congruence; now rewrite Nir|].
  rewrite lookup_delete_ne by congruence.
  destruct (decide (q = inputUpdate)) as [->|Q6];
    [rewrite lookup_delete_eq, lookup_insert_ne by congruence; now rewrite Niu|].
  rewrite lookup_delete_ne by congruence.
  destruct (decide (q = result)) as [->|Q7].
  - now rewrite !lookup_insert_eq.
  - repeat rewrite lookup_insert_ne by congruence. reflexivity.
Qed.

(** X13. On operands whose shapes conform (a state and biases of
    [hidden x c], an input of [n x c], matrices [W] of [hidden x hidden]
    and [U] of [hidden x n]), [apply_gru] computes the equations of the
    gated recurrent unit in the order of the source:
    [update = sigmoid (Wu . s + Uu . i + bu)],
    [reset = sigmoid (Wr . s + Ur . i + br)],
    [candidate = tanh (Wc . (s (.) reset) + Uc . i + bc)], and it writes
    the blend of the state and the candidate by the update gate into
    [result], which may be the state itself. Every intermediate matrix is
    freed and nothing else in the store changes; an undefined step (a
    division by zero in an activation) makes the call undefined in the
    same way. *)
Theorem apply_gru_equations (h : gmap N matrix) result input state gru p
    I S Wu Uu Bu Wr Ur Br Wc Uc Bc R :
  h !! input = Some I -> h !! state = Some S ->
  h !! wUpdate gru = Some Wu -> h !! uUpdate gru = Some Uu ->
  h !! bUpdate gru = Some Bu ->
  h !! wReset gru = Some Wr -> h !! uReset gru = Some Ur ->
  h !! bReset gru = Some Br ->
  h !! wCandidate gru = Some Wc -> h !! uCandidate gru = Some Uc ->
  h !! bCandidate gru = Some Bc ->
  h !! result = Some R ->
  numCols I = numCols S ->
  shape Wu = (numRows S, numRows S) -> shape Uu = (numRows S, numRows I) ->
  shape Bu = shape S ->
  shape Wr = (numRows S, numRows S) -> shape Ur = (numRows S, numRows I) ->
  shape Br = shape S ->
  shape Wc = (numRows S, numRows S) -> shape Uc = (numRows S, numRows I) ->
  shape Bc = shape S ->
  shape R = shape S ->
  apply_gru result input state gru p h
  = (iu ← multiply_data p Uu I;
     u0 ← multiply_data p Wu S;
     update ← elementwise_data fp_sigmoid p
                (add_data (add_data u0 iu) (data Bu));
     ir ← multiply_data p Ur I;
     r0 ← multiply_data p Wr S;
     reset ← elementwise_data fp_sigmoid p
               (add_data (add_data r0 ir) (data Br));
     r_applied ← hadamard_data p (data S) reset;
     ic ← multiply_data p Uc I;
     c0 ← multiply_data p Wc (with_data S r_applied);
     candidate ← elementwise_data fp_tanh p
                   (add_data (add_data c0 ic) (data Bc));
     d ← gate_data p update (data S) candidate;
     Ok (result, <[result := with_data R d]> h)).
Proof.
  intros. rewrite (apply_gru_run h result input state gru p
                     I S Wu Uu Bu Wr Ur Br Wc Uc Bc R) by assumption.
  unfold gru_data.
  repeat match goal with
  | |- context [mbind _ ?r] =>
      match r with
      | mbind _ _ => fail 1
      | _ => destruct r; cbn [mbind res_bind]; try reflexivity
      end
  end.
Qed.

Lemma apply_gru_equations_witness :
  let h : gmap N matrix :=
    <[1%N := Matrix [16] 1 1]>
    (<[2%N := Matrix [32; -16] 2 1]>
    (<[3%N := Matrix [32;0; 0;32] 2 2]>
    (<[4%N := Matrix [8; -8] 2 1]>
    (<[5%N := Matrix [0; 0] 2 1]>
    (<[6%N := Matrix [16;16; -16;16] 2 2]>
    (<[7%N := Matrix [32; 32] 2 1]>
    (<[8%N := Matrix [1; 2] 2 1]> ∅))))))) in
  apply_gru 2%N 1%N 2%N (Build_GRU 3 4 5 6 7 8 3 4 5) 5 h
  = Ok (2%N, <[2%N := Matrix [28; -12] 2 1]> h).
Proof.
  intros h.
  refine (eq_trans
    (apply_gru_equations h 2%N 1%N 2%N (Build_GRU 3 4 5 6 7 8 3 4 5) 5
       (Matrix [16] 1 1) (Matrix [32; -16] 2 1)
       (Matrix [32;0; 0;32] 2 2) (Matrix [8; -8] 2 1) (Matrix [0; 0] 2 1)
       (Matrix [16;16; -16;16] 2 2) (Matrix [32; 32] 2 1) (Matrix [1; 2] 2 1)
       (Matrix [32;0; 0;32] 2 2) (Matrix [8; -8] 2 1) (Matrix [0; 0] 2 1)
       (Matrix [32; -16] 2 1)
       _ _ _ _ _ _ _ _ _ _ _ _ _ _ _ _ _ _ _ _ _ _ _) _);
    reflexivity.
Defined.


(** ** Bounded states *)

Lemma map_res_Forall {A B} (f : A -> res B) (P : A -> Prop) (Q : B -> Prop) l d :
  (forall x v, P x -> f x = Ok v -> Q v) ->
  Forall P l -> map_res f l = Ok d -> Forall Q d.
Proof.
  intros Hf Hl. revert d. induction Hl as [|x l Hx Hl IH]; intros d; cbn.
  - intros [= <-]. constructor.
  - destruct (f x) as [v|] eqn:Ev; cbn; [|discriminate].
    destruct (map_res f l) as [vs|]; cbn; [|discriminate].
    intros [= <-]. constructor; [now apply (Hf x)|now apply IH].
Qed.

Lemma add_data_in_int16 a b : Forall in_int16 (add_data a b).
Proof.
  unfold add_data. revert b. induction a as [|x a IH]; intros [|y b]; cbn;
    constructor; [apply to_int16_range|apply IH].
Qed.

Lemma sigmoid_data_range p l d :
  3 <= p <= 13 -> Forall in_int16 l ->
  elementwise_data fp_sigmoid p l = Ok d ->
  Forall (fun v => 0 <= v <= 2 ^ p) d.
Proof.
  intros Hp Hl. apply map_res_Forall with (P := in_int16); [|assumption].
  intros x v Hx Hv.
  destruct (fp_sigmoid_cases x p Hx ltac:(lia)) as [(w & Hw & Hb)|[H|[Hp' _]]];
    [|congruence|lia].
  rewrite Hv in Hw. injection Hw as <-. apply Hb. lia.
Qed.

Lemma tanh_data_range p l d :
  3 <= p <= 14 -> Forall in_int16 l ->
  elementwise_data fp_tanh p l = Ok d -> unit_bounded p d.
Proof.
  intros Hp Hl. apply map_res_Forall with (P := in_int16); [|assumption].
  intros x v Hx Hv.
  destruct (fp_tanh_cases x p Hx ltac:(lia)) as [(w & Hw & _ & Hb)|[H|[Hp' _]]];
    [|congruence|lia].
  rewrite Hv in Hw. injection Hw as <-. apply Hb. lia.
Qed.

Lemma Forall_take_drop {A} (P : A -> Prop) n m (l : list A) :
  Forall P l -> Forall P (take n (drop m l)).
Proof. intros H. now apply Forall_take, Forall_drop. Qed.

(** The new state of the fused cell is bounded by 1.0 when the previous
    one is. *)
Lemma tf_gru_data_bounded p I S Wg Bg Wc Bc d :
  3 <= p <= 13 -> unit_bounded p (data S) ->
  tf_gru_data p I S Wg Bg Wc Bc = Ok d -> unit_bounded p d.
Proof.
  intros Hp HS. pose proof (pow2_bounds_13 p ltac:(lia)) as HP.
  unfold tf_gru_data. cbv zeta.
  destruct (multiply_data p Wg _) as [g0|]; cbn [mbind res_bind]; [|discriminate].
  destruct (elementwise_data fp_sigmoid p _) as [gates|] eqn:Eg;
    cbn [mbind res_bind]; [|discriminate].
  apply sigmoid_data_range in Eg; [|lia|apply add_data_in_int16].
  destruct (hadamard_data p _ _) as [ra|]; cbn [mbind res_bind]; [|discriminate].
  destruct (multiply_data p Wc _) as [c0|]; cbn [mbind res_bind]; [|discriminate].
  destruct (elementwise_data fp_tanh p _) as [c|] eqn:Ec;
    cbn [mbind res_bind]; [|discriminate].
  apply tanh_data_range in Ec; [|lia|apply add_data_in_int16].
  intros Hd.
  apply (gate_data_bounded p _ _ _ (2 ^ p)) in Hd; try assumption; try lia.
  - apply Hd.
  - now apply Forall_take_drop.
Qed.

Lemma gru_data_bounded p I S Wu Uu Bu Wr Ur Br Wc Uc Bc d :
  3 <= p <= 13 -> unit_bounded p (data S) ->
  gru_data p I S Wu Uu Bu Wr Ur Br Wc Uc Bc = Ok d -> unit_bounded p d.
Proof.
  intros Hp HS. pose proof (pow2_bounds_13 p ltac:(lia)) as HP.
  unfold gru_data.
  destruct (multiply_data p Uu _) as [iu|]; cbn [mbind res_bind]; [|discriminate].
  destruct (multiply_data p Wu _) as [u0|]; cbn [mbind res_bind]; [|discriminate].
  destruct (elementwise_data fp_sigmoid p _) as [upd|] eqn:Eu;
    cbn [mbind res_bind]; [|discriminate].
  apply sigmoid_data_range in Eu; [|lia|apply add_data_in_int16].
  destruct (multiply_data p Ur _) as [ir|]; cbn [mbind res_bind]; [|discriminate].
  destruct (multiply_data p Wr _) as [r0|]; cbn [mbind res_bind]; [|discriminate].
  destruct (elementwise_data fp_sigmoid p _) as [rst|];
    cbn [mbind res_bind]; [|discriminate].
  destruct (hadamard_data p _ _) as [ra|]; cbn [mbind res_bind]; [|discriminate].
  destruct (multiply_data p Uc _) as [ic|]; cbn [mbind res_bind]; [|discriminate].
  destruct (multiply_data p Wc _) as [c0|]; cbn [mbind res_bind]; [|discriminate].
  destruct (elementwise_data fp_tanh p _) as [c|] eqn:Ec;
    cbn [mbind res_bind]; [|discriminate].
  apply tanh_data_range in Ec; [|lia|apply add_data_in_int16].
  intros Hd.
  apply (gate_data_bounded p _ _ _ (2 ^ p)) in Hd; try assumption; try lia.
  apply Hd.
Qed.

Lemma run_result {A} (r : res A) (k : A -> gmap N matrix) (result a : ptr)
    (h' : gmap N matrix) :
  (d ← r; Ok (result, k d)) = Ok (a, h') ->
  a = result /\ exists d, r = Ok d /\ h' = k d.
Proof.
  destruct r as [d|]; cbn; [|discriminate].
  intros [= <- <-]. split; [reflexivity|]. now exists d.
Qed.


(** X14. On operands whose shapes conform, at a precision between 3 and
    13: if the entries of the state lie between -1.0 and 1.0 and
    [apply_gru] returns, then it returns [result], only [result] has
    changed in the store, and the entries of the new state lie between
    -1.0 and 1.0 again, whatever the weights and the input are. *)
Theorem apply_gru_bounded (h : gmap N matrix) result input state gru p
    I S Wu Uu Bu Wr Ur Br Wc Uc Bc R r h' :
  h !! input = Some I -> h !! state = Some S ->
  h !! wUpdate gru = Some Wu -> h !! uUpdate gru = Some Uu ->
  h !! bUpdate gru = Some Bu ->
  h !! wReset gru = Some Wr -> h !! uReset gru = Some Ur ->
  h !! bReset gru = Some Br ->
  h !! wCandidate gru = Some Wc -> h !! uCandidate gru = Some Uc ->
  h !! bCandidate gru = Some Bc ->
  h !! result = Some R ->
  numCols I = numCols S ->
  shape Wu = (numRows S, numRows S) -> shape Uu = (numRows S, numRows I) ->
  shape Bu = shape S ->
  shape Wr = (numRows S, numRows S) -> shape Ur = (numRows S, numRows I) ->
  shape Br = shape S ->
  shape Wc = (numRows S, numRows S) -> shape Uc = (numRows S, numRows I) ->
  shape Bc = shape S ->
  shape R = shape S ->
  3 <= p <= 13 ->
  Forall (fun v => - 2 ^ p <= v <= 2 ^ p) (data S) ->
  apply_gru result input state gru p h = Ok (r, h') ->
  r = result
  /\ exists d, h' = <[result := with_data R d]> h
       /\ Forall (fun v => - 2 ^ p <= v <= 2 ^ p) d.
Proof.
  intros Hi Hs Hwu Huu Hbu Hwr Hur Hbr Hwc Huc Hbc Hr HcI
         SWu SUu SBu SWr SUr SBr SWc SUc SBc SR Hp HB Hrun.
  rewrite (apply_gru_run h result input state gru p
             I S Wu Uu Bu Wr Ur Br Wc Uc Bc R) in Hrun by assumption.
  apply run_result in Hrun as (-> & d & Hd & ->).
  split; [reflexivity|]. exists d. split; [reflexivity|].
  now apply gru_data_bounded in Hd.
Qed.

Lemma apply_gru_bounded_witness :
  let h : gmap N matrix :=
    <[1%N := Matrix [16] 1 1]>
    (<[2%N := Matrix [32; -16] 2 1]>
    (<[3%N := Matrix [32;0; 0;32] 2 2]>
    (<[4%N := Matrix [8; -8] 2 1]>
    (<[5%N := Matrix [0; 0] 2 1]>
    (<[6%N := Matrix [16;16; -16;16] 2 2]>
    (<[7%N := Matrix [32; 32] 2 1]>
    (<[8%N := Matrix [1; 2] 2 1]> ∅))))))) in
  2%N = 2%N
  /\ exists d, <[2%N := Matrix [28; -12] 2 1]> h
               = <[2%N := with_data (Matrix [32; -16] 2 1) d]> h
       /\ Forall (fun v => - 2 ^ 5 <= v <= 2 ^ 5) d.
Proof.
  intros h.
  apply (apply_gru_bounded h 2%N 1%N 2%N (Build_GRU 3 4 5 6 7 8 3 4 5) 5
       (Matrix [16] 1 1) (Matrix [32; -16] 2 1)
       (Matrix [32;0; 0;32] 2 2) (Matrix [8; -8] 2 1) (Matrix [0; 0] 2 1)
       (Matrix [16;16; -16;16] 2 2) (Matrix [32; 32] 2 1) (Matrix [1; 2] 2 1)
       (Matrix [32;0; 0;32] 2 2) (Matrix [8; -8] 2 1) (Matrix [0; 0] 2 1)
       (Matrix [32; -16] 2 1));
    try reflexivity; try lia.
  repeat (constructor; [cbn; lia|]); constructor.
Defined.


(** X15. The same for the fused cell: on operands whose shapes conform,
    at a precision between 3 and 13, if the entries of the state lie
    between -1.0 and 1.0 and [apply_tf_gru] returns, it returns [result],
    only [result] has changed, and the entries of the new state lie
    between -1.0 and 1.0. *)
Theorem apply_tf_gru_bounded (h : gmap N matrix) result input state gru p
    I S Wg Bg Wc Bc R r h' :
  h !! input = Some I -> h !! state = Some S ->
  h !! wGates gru = Some Wg -> h !! bGates gru = Some Bg ->
  h !! wCandidates gru = Some Wc -> h !! bCandidates gru = Some Bc ->
  h !! result = Some R ->
  0 <= numRows I -> 0 <= numRows S ->
  numCols I = 1 -> numCols S = 1 ->
  shape Wg = (numRows S * 2, numRows I + numRows S) ->
  shape Bg = (numRows S * 2, 1) ->
  shape Wc = (numRows S, numRows I + numRows S) ->
  shape Bc = (numRows S, 1) ->
  shape R = shape S ->
  Z.of_nat (length (data Bg)) = numRows Bg * numCols Bg ->
  3 <= p <= 13 ->
  Forall (fun v => - 2 ^ p <= v <= 2 ^ p) (data S) ->
  apply_tf_gru result input state gru p h = Ok (r, h') ->
  r = result
  /\ exists d, h' = <[result := with_data R d]> h
       /\ Forall (fun v => - 2 ^ p <= v <= 2 ^ p) d.
Proof.
  intros Hi Hs Hwg Hbg Hwc Hbc Hr HnI HnS HcI HcS SWg SBg SWc SBc SR LBg
         Hp HB Hrun.
  rewrite (apply_tf_gru_run h result input state gru p I S Wg Bg Wc Bc R)
    in Hrun by assumption.
  apply run_result in Hrun as (-> & d & Hd & ->).
  split; [reflexivity|]. exists d. split; [reflexivity|].
  now apply tf_gru_data_bounded in Hd.
Qed.

Lemma apply_tf_gru_bounded_witness :
  let h : gmap N matrix :=
    <[1%N := Matrix [16] 1 1]>
    (<[2%N := Matrix [32; -16] 2 1]>
    (<[3%N := Matrix [32;0;0; 0;32;0; 0;0;32; 16;16;16] 4 3]>
    (<[4%N := Matrix [0;0;0;0] 4 1]>
    (<[5%N := Matrix [32;0;0; 0;32;32] 2 3]>
    (<[6%N := Matrix [1;2] 2 1]> ∅))))) in
  2%N = 2%N
  /\ exists d, <[2%N := Matrix [21; -6] 2 1]> h
               = <[2%N := with_data (Matrix [32; -16] 2 1) d]> h
       /\ Forall (fun v => - 2 ^ 5 <= v <= 2 ^ 5) d.
Proof.
  intros h.
  apply (apply_tf_gru_bounded h 2%N 1%N 2%N (Build_TFGRU 3 4 5 6) 5
       (Matrix [16] 1 1) (Matrix [32; -16] 2 1)
       (Matrix [32;0;0; 0;32;0; 0;0;32; 16;16;16] 4 3) (Matrix [0;0;0;0] 4 1)
       (Matrix [32;0;0; 0;32;32] 2 3) (Matrix [1;2] 2 1) (Matrix [32; -16] 2 1));
    try reflexivity; try (cbn; lia).
  repeat (constructor; [cbn; lia|]); constructor.
Defined.


(** ** The sequence driver, step by step *)

Lemma rnn_loop_step n i state inputs c p :
  rnn_loop (S n) i state inputs c (cell_tag c) p
  = (input ← lift (nth_input inputs i);
     state' ← cell_step c state input p;
     rnn_loop n (i + 1) state' inputs c (cell_tag c) p).
Proof. destruct c; reflexivity. Qed.

Lemma cell_step_bounded (h : gmap N matrix) result c input p R I hidden n r h' :
  h !! result = Some R -> shape R = (hidden, 1) -> 0 <= hidden -> 0 <= n ->
  h !! input = Some I -> shape I = (n, 1) ->
  cell_fits h result c hidden n -> 3 <= p <= 13 ->
  unit_bounded p (data R) ->
  cell_step c result input p h = Ok (r, h') ->
  r = result
  /\ exists d, h' = <[result := with_data R d]> h /\ unit_bounded p d.
Proof.
  intros Hr SR Hh Hn Hi SI Hfit Hp HB Hrun.
  unfold shape in SR, SI. injection SR as RR CR. injection SI as RI CI.
  destruct c as [g|g]; cbn [cell_step cell_fits] in *.
  - destruct Hfit as ((_ & Wu & Hwu & Swu) & (_ & Uu & Huu & Suu)
      & (_ & Bu & Hbu & Sbu) & (_ & Wr & Hwr & Swr) & (_ & Ur & Hur & Sur)
      & (_ & Br & Hbr & Sbr) & (_ & Wc & Hwc & Swc) & (_ & Uc & Huc & Suc)
      & (_ & Bc & Hbc & Sbc)).
    rewrite (apply_gru_run h result input result g p I R Wu Uu Bu Wr Ur Br Wc Uc Bc R)
      in Hrun; try assumption; try reflexivity;
      try (unfold shape in *; congruence).
    apply run_result in Hrun as (-> & d & Hd & ->).
    split; [reflexivity|]. exists d. split; [reflexivity|].
    now apply gru_data_bounded in Hd.
  - destruct Hfit as ((_ & Wg & Hwg & Swg) & (Bg & Hbg & _ & Sbg & Lbg)
      & (_ & Wc & Hwc & Swc) & (_ & Bc & Hbc & Sbc)).
    rewrite (apply_tf_gru_run h result input result g p I R Wg Bg Wc Bc R)
      in Hrun; try assumption; try reflexivity;
      try (unfold shape in *; congruence); try lia.
    + apply run_result in Hrun as (-> & d & Hd & ->).
      split; [reflexivity|]. exists d. split; [reflexivity|].
      now apply tf_gru_data_bounded in Hd.
    + unfold shape in Sbg. injection Sbg as -> ->. lia.
Qed.

Lemma has_shape_insert (h : gmap N matrix) result m q rows cols :
  has_shape h result q rows cols ->
  has_shape (<[result := m]> h) result q rows cols.
Proof.
  intros (Hne & m' & Hm & Hs). split; [exact Hne|].
  exists m'. now rewrite lookup_insert_ne by congruence.
Qed.

Lemma cell_fits_insert (h : gmap N matrix) result m c hidden n :
  cell_fits h result c hidden n ->
  cell_fits (<[result := m]> h) result c hidden n.
Proof.
  destruct c as [g|g]; cbn [cell_fits].
  - intros (H1 & H2 & H3 & H4 & H5 & H6 & H7 & H8 & H9).
    repeat (split; [now apply has_shape_insert|]). now apply has_shape_insert.
  - intros (H1 & (Bg & Hbg & Hne & Sbg & Lbg) & H3 & H4).
    split; [now apply has_shape_insert|].
    split; [|split; now apply has_shape_insert].
    exists Bg. now rewrite lookup_insert_ne by congruence.
Qed.

Lemma rnn_loop_bounded k : forall (i : nat) (h : gmap N matrix) result inputs c p R
    hidden n r h',
  h !! result = Some R -> shape R = (hidden, 1) -> 0 <= hidden -> 0 <= n ->
  Forall (input_fits h result n) inputs ->
  cell_fits h result c hidden n -> 3 <= p <= 13 ->
  unit_bounded p (data R) -> (i <= length inputs)%nat ->
  rnn_loop k (Z.of_nat i) result inputs c (cell_tag c) p h = Ok (r, h') ->
  r = result /\ (i + k <= length inputs)%nat
  /\ exists d, h' = <[result := with_data R d]> h /\ unit_bounded p d.
Proof.
  induction k as [|k IH]; intros i h result inputs c p R hidden n r h'
    Hr SR Hh Hn Hin Hfit Hp HB Hi Hrun.
  - cbn in Hrun. injection Hrun as <- <-.
    split; [reflexivity|]. split; [lia|].
    exists (data R). rewrite with_data_id, insert_id by assumption. now split.
  - rewrite rnn_loop_step in Hrun. unfold nth_input in Hrun.
    rewrite bind_lift, Nat2Z.id in Hrun.
    destruct (inputs !! i) as [q|] eqn:Eq; cbn [mbind res_bind] in Hrun;
      [|discriminate].
    pose proof (proj1 (Forall_lookup _ _) Hin i q Eq) as (Hqr & I & HI & SI).
    apply lookup_lt_Some in Eq.
    unfold mbind at 1, prog_bind in Hrun.
    destruct (cell_step c result q p h) as [[st h1]|] eqn:Estep; [|discriminate].
    destruct (cell_step_bounded h result c q p R I hidden n st h1)
      as (-> & d & -> & Hd); try assumption.
    replace (Z.of_nat i + 1) with (Z.of_nat (S i)) in Hrun by lia.
    apply (IH (S i) _ result inputs c p (with_data R d) hidden n) in Hrun;
      try assumption.
    + destruct Hrun as (-> & Hlen & d' & -> & Hd').
      split; [reflexivity|]. split; [lia|].
      exists d'. rewrite insert_insert_eq. now split.
    + apply lookup_insert_eq.
    + revert Hin. apply Forall_impl. intros q' (Hne & m & Hm & Sm).
      split; [exact Hne|]. exists m. now rewrite lookup_insert_ne by congruence.
    + now apply cell_fits_insert.
Qed.

Lemma zeros_unit_bounded p n : 0 <= p -> unit_bounded p (replicate n 0).
Proof.
  intros Hp. pose proof (Z.pow_pos_nonneg 2 p ltac:(lia) Hp).
  apply Forall_replicate. lia.
Qed.


(** X16. For parameters of either kind with their own tag, a result
    buffer of [hidden x 1], inputs of [n x 1] and parameters of the
    matching shapes, none of them the result buffer, at a precision
    between 3 and 13: if [rnn] returns, it returns [result], the sequence
    held at least [seqLength] inputs, only [result] has changed in the
    store (every intermediate matrix of every step was freed), and every
    entry of the final state lies between -1.0 and 1.0. *)
Theorem rnn_state_bounded (h : gmap N matrix) result inputs c seqLength p R
    hidden n r h' :
  h !! result = Some R -> shape R = (hidden, 1) -> 0 <= hidden -> 0 <= n ->
  Forall (input_fits h result n) inputs ->
  cell_fits h result c hidden n -> 3 <= p <= 13 ->
  rnn result inputs c (cell_tag c) seqLength p h = Ok (r, h') ->
  r = result
  /\ seqLength <= Z.of_nat (length inputs)
  /\ exists d, h' = <[result := with_data R d]> h
       /\ Forall (fun v => - 2 ^ p <= v <= 2 ^ p) d.
Proof.
  intros Hr SR Hh Hn Hin Hfit Hp Hrun.
  unfold rnn in Hrun. cbv zeta in Hrun.
  erewrite matrix_set_step in Hrun by eassumption.
  set (R0 := with_data R (replicate (length (data R)) 0)) in *.
  apply (rnn_loop_bounded _ 0 _ result inputs c p R0 hidden n) in Hrun;
    try assumption.
  - destruct Hrun as (-> & Hlen & d & -> & Hd).
    split; [reflexivity|]. split; [lia|].
    exists d. rewrite insert_insert_eq. now split.
  - apply lookup_insert_eq.
  - revert Hin. apply Forall_impl. intros q (Hne & m & Hm & Sm).
    split; [exact Hne|]. exists m. now rewrite lookup_insert_ne by congruence.
  - now apply cell_fits_insert.
  - apply zeros_unit_bounded. lia.
  - lia.
Qed.

Lemma rnn_state_bounded_witness :
  let h : gmap N matrix :=
    <[1%N := Matrix [16] 1 1]>
    (<[2%N := Matrix [32; -16] 2 1]>
    (<[3%N := Matrix [32;0; 0;32] 2 2]>
    (<[4%N := Matrix [8; -8] 2 1]>
    (<[5%N := Matrix [0; 0] 2 1]>
    (<[6%N := Matrix [16;16; -16;16] 2 2]>
    (<[7%N := Matrix [32; 32] 2 1]>
    (<[8%N := Matrix [1; 2] 2 1]>
    (<[9%N := Matrix [-20] 1 1]> ∅)))))))) in
  2%N = 2%N
  /\ 2 <= Z.of_nat (length [1%N; 9%N])
  /\ exists d, <[2%N := Matrix [-2; 1] 2 1]> h
               = <[2%N := with_data (Matrix [32; -16] 2 1) d]> h
       /\ Forall (fun v => - 2 ^ 5 <= v <= 2 ^ 5) d.
Proof.
  intros h.
  assert (F : forall q rows cols m,
             q <> 2%N -> h !! q = Some m -> shape m = (rows, cols) ->
             has_shape h 2%N q rows cols).
  { intros q rows cols m Hq Hm Hs. split; [exact Hq|]. now exists m. }
  apply (rnn_state_bounded h 2%N [1%N; 9%N]
           (GRUParams (Build_GRU 3 4 5 6 7 8 3 4 5)) 2 5
           (Matrix [32; -16] 2 1) 2 1);
    try reflexivity; try lia.
  - repeat (constructor; [split; [discriminate|eexists; split; reflexivity]|]).
    constructor.
  - cbn [cell_fits wUpdate uUpdate bUpdate wReset uReset bReset
           wCandidate uCandidate bCandidate].
    repeat (split; [eapply F; [discriminate|reflexivity|reflexivity]|]).
    eapply F; [discriminate|reflexivity|reflexivity].
Defined.

Lemma bind_ret_r {A} (m : prog A) h : (a ← m; mret a) h = m h.
Proof. unfold mbind, prog_bind, mret, prog_ret. now destruct (m h) as [[a h']|]. Qed.

Lemma bind_ret_l {A B} (a : A) (f : A -> prog B) h : (mret a ≫= f) h = f a h.
Proof. reflexivity. Qed.

Lemma bind_assoc {A B C} (m : prog A) (f : A -> prog B) (g : B -> prog C) h :
  ((m ≫= f) ≫= g) h = (m ≫= (fun a => f a ≫= g)) h.
Proof. unfold mbind, prog_bind. now destruct (m h) as [[a h']|]. Qed.

Lemma bind_ext {A B} (m : prog A) (f g : A -> prog B) h :
  (forall a h', f a h' = g a h') -> (m ≫= f) h = (m ≫= g) h.
Proof.
  intros H. unfold mbind, prog_bind. destruct (m h) as [[a h']|]; [apply H|reflexivity].
Qed.


Lemma rnn_loop_snoc inputs c p k : forall (i : nat) state (h : gmap N matrix),
  rnn_loop (S k) (Z.of_nat i) state inputs c (cell_tag c) p h
  = (st ← rnn_loop k (Z.of_nat i) state inputs c (cell_tag c) p;
     input ← lift (nth_input inputs (Z.of_nat (i + k)));
     cell_step c st input p) h.
Proof.
  induction k as [|k IH]; intros i state h.
  - rewrite rnn_loop_step. cbn [rnn_loop]. rewrite Nat.add_0_r.
    rewrite bind_ret_l.
    apply bind_ext. intros input h1. apply bind_ret_r.
  - rewrite rnn_loop_step. rewrite (rnn_loop_step k).
    rewrite bind_assoc. apply bind_ext. intros input h1.
    rewrite bind_assoc. apply bind_ext. intros st h2.
    replace (Z.of_nat i + 1) with (Z.of_nat (S i)) by lia.
    rewrite IH. replace (S i + k)%nat with (i + S k)%nat by lia. reflexivity.
Qed.


(** X17. [rnn] over [n + 1] steps is [rnn] over [n] steps followed by one
    step of the cell on input [n], applied in place on the state that the
    first [n] steps returned; an undefined step makes both undefined in
    the same way. The parameters carry their own tag. *)
Theorem rnn_unroll (h : gmap N matrix) result inputs c n p :
  0 <= n ->
  rnn result inputs c (cell_tag c) (n + 1) p h
  = (state ← rnn result inputs c (cell_tag c) n p;
     input ← lift (nth_input inputs n);
     cell_step c state input p) h.
Proof.
  intros Hn. unfold rnn. cbv zeta.
  replace (Z.to_nat (n + 1)) with (S (Z.to_nat n)) by lia.
  rewrite bind_assoc. apply bind_ext. intros q h1.
  rewrite (rnn_loop_snoc inputs c p (Z.to_nat n) 0).
  cbn [Nat.add]. rewrite Z2Nat.id by assumption. reflexivity.
Qed.


Lemma rnn_unroll_witness :
  let h : gmap N matrix :=
    <[1%N := Matrix [16] 1 1]>
    (<[2%N := Matrix [32; -16] 2 1]>
    (<[3%N := Matrix [32;0;0; 0;32;0; 0;0;32; 16;16;16] 4 3]>
    (<[4%N := Matrix [0;0;0;0] 4 1]>
    (<[5%N := Matrix [32;0;0; 0;32;32] 2 3]>
    (<[6%N := Matrix [1;2] 2 1]>
    (<[7%N := Matrix [-20] 1 1]> ∅)))))) in
  let c := TFGRUParams (Build_TFGRU 3 4 5 6) in
  rnn 2%N [1%N; 7%N] c (cell_tag c) (1 + 1) 5 h
  = (state ← rnn 2%N [1%N; 7%N] c (cell_tag c) 1 5;
     input ← lift (nth_input [1%N; 7%N] 1);
     cell_step c state input 5) h.
Proof.
  intros h c. apply (rnn_unroll h 2%N [1%N; 7%N] c 1 5). lia.
Defined.

(** X18. [rnn] does not depend on what the result buffer holds when it is
    called: the buffer is zero-filled before the first step, so two stores
    that differ only in the entries of [result] give the same outcome. *)
Theorem rnn_ignores_initial_contents (h : gmap N matrix) result inputs c
    cellType seqLength p R d0 :
  h !! result = Some R -> length d0 = length (data R) ->
  rnn result inputs c cellType seqLength p (<[result := with_data R d0]> h)
  = rnn result inputs c cellType seqLength p h.
Proof.
  intros Hr Hlen. unfold rnn. cbv zeta.
  erewrite matrix_set_step by apply lookup_insert_eq.
  erewrite matrix_set_step by eassumption.
  rewrite insert_insert_eq. cbn [with_data data numRows numCols].
  now rewrite Hlen.
Qed.


Lemma rnn_ignores_initial_contents_witness :
  let h : gmap N matrix :=
    <[1%N := Matrix [16] 1 1]>
    (<[2%N := Matrix [32; -16] 2 1]>
    (<[3%N := Matrix [32;0;0; 0;32;0; 0;0;32; 16;16;16] 4 3]>
    (<[4%N := Matrix [0;0;0;0] 4 1]>
    (<[5%N := Matrix [32;0;0; 0;32;32] 2 3]>
    (<[6%N := Matrix [1;2] 2 1]> ∅))))) in
  rnn 2%N [1%N] (TFGRUParams (Build_TFGRU 3 4 5 6)) TFGRUCell 1 5
      (<[2%N := with_data (Matrix [32; -16] 2 1) [9; 9]]> h)
  = rnn 2%N [1%N] (TFGRUParams (Build_TFGRU 3 4 5 6)) TFGRUCell 1 5 h.
Proof.
  intros h.
  apply (rnn_ignores_initial_contents h 2%N [1%N]
           (TFGRUParams (Build_TFGRU 3 4 5 6)) TFGRUCell 1 5
           (Matrix [32; -16] 2 1) [9; 9]); reflexivity.
Defined.

Lemma rnn_loop_app inputs more c cellType p k :
  forall (i : nat) state (h : gmap N matrix),
  (i + k <= length inputs)%nat ->
  rnn_loop k (Z.of_nat i) state (inputs ++ more) c cellType p h
  = rnn_loop k (Z.of_nat i) state inputs c cellType p h.
Proof.
  induction k as [|k IH]; intros i state h Hi; [reflexivity|].
  cbn [rnn_loop]. rewrite !bind_lift, Nat2Z.id.
  rewrite lookup_app_l by lia.
  destruct (inputs !! i); cbn [mbind res_bind]; [|reflexivity].
  replace (Z.of_nat i + 1) with (Z.of_nat (S i)) by lia.
  destruct (cellType =? GRUCell).
  - unfold mbind, prog_bind. destruct (as_GRU c h) as [[g h1]|]; [|reflexivity].
    destruct (apply_gru _ _ _ _ _ _) as [[st h2]|]; [|reflexivity].
    apply IH. lia.
  - destruct (cellType =? TFGRUCell); [|reflexivity].
    unfold mbind, prog_bind. destruct (as_TFGRU c h) as [[g h1]|]; [|reflexivity].
    destruct (apply_tf_gru _ _ _ _ _ _) as [[st h2]|]; [|reflexivity].
    apply IH. lia.
Qed.

Lemma rnn_loop_short inputs c cellType p k :
  forall (i : nat) state (h : gmap N matrix),
  cellType = GRUCell \/ cellType = TFGRUCell ->
  (i <= length inputs < i + k)%nat ->
  is_ok (rnn_loop k (Z.of_nat i) state inputs c cellType p h) = false.
Proof.
  induction k as [|k IH]; intros i state h Htag Hi; [lia|].
  cbn [rnn_loop]. rewrite bind_lift, Nat2Z.id.
  destruct (inputs !! i) as [q|] eqn:Eq; cbn [mbind res_bind]; [|reflexivity].
  apply lookup_lt_Some in Eq.
  replace (Z.of_nat i + 1) with (Z.of_nat (S i)) by lia.
  destruct (cellType =? GRUCell) eqn:E1.
  - unfold mbind, prog_bind. destruct (as_GRU c h) as [[g h1]|]; [|reflexivity].
    destruct (apply_gru _ _ _ _ _ _) as [[st h2]|]; [|reflexivity].
    apply IH; [assumption|lia].
  - destruct (cellType =? TFGRUCell) eqn:E2; [|lia].
    unfold mbind, prog_bind. destruct (as_TFGRU c h) as [[g h1]|]; [|reflexivity].
    destruct (apply_tf_gru _ _ _ _ _ _) as [[st h2]|]; [|reflexivity].
    apply IH; [assumption|lia].
Qed.


(** X19. [rnn] reads exactly the first [seqLength] pointers of [inputs]:
    pointers after them do not change the outcome, and with fewer than
    [seqLength] pointers and a tag that names a cell it never returns a
    value, since it reads past the end of the array. *)
Theorem rnn_reads_first_inputs (h : gmap N matrix) result inputs more c
    cellType seqLength p :
  (seqLength <= Z.of_nat (length inputs) ->
   rnn result (inputs ++ more) c cellType seqLength p h
   = rnn result inputs c cellType seqLength p h)
  /\ (Z.of_nat (length inputs) < seqLength ->
      cellType = GRUCell \/ cellType = TFGRUCell ->
      is_ok (rnn result inputs c cellType seqLength p h) = false).
Proof.
  split.
  - intros Hlen. unfold rnn. cbv zeta. unfold mbind, prog_bind.
    destruct (matrix_set result 0 h) as [[q h1]|]; [|reflexivity].
    apply (rnn_loop_app inputs more c cellType p _ 0). lia.
  - intros Hlen Htag. unfold rnn. cbv zeta. unfold mbind, prog_bind.
    destruct (matrix_set result 0 h) as [[q h1]|]; [|reflexivity].
    apply (rnn_loop_short inputs c cellType p _ 0); [assumption|lia].
Qed.

Lemma rnn_reads_first_inputs_witness :
  let h : gmap N matrix :=
    <[1%N := Matrix [16] 1 1]>
    (<[2%N := Matrix [32; -16] 2 1]>
    (<[3%N := Matrix [32;0;0; 0;32;0; 0;0;32; 16;16;16] 4 3]>
    (<[4%N := Matrix [0;0;0;0] 4 1]>
    (<[5%N := Matrix [32;0;0; 0;32;32] 2 3]>
    (<[6%N := Matrix [1;2] 2 1]> ∅))))) in
  let c := TFGRUParams (Build_TFGRU 3 4 5 6) in
  rnn 2%N ([1%N] ++ [9%N]) c TFGRUCell 1 5 h = rnn 2%N [1%N] c TFGRUCell 1 5 h
  /\ is_ok (rnn 2%N [1%N] c TFGRUCell 2 5 h) = false.
Proof.
  intros h c.
  destruct (rnn_reads_first_inputs h 2%N [1%N] [9%N] c TFGRUCell 1 5)
    as (Hmore & _).
  destruct (rnn_reads_first_inputs h 2%N [1%N] [] c TFGRUCell 2 5)
    as (_ & Hfew).
  split; [apply Hmore; cbn; lia|apply Hfew; [cbn; lia|now right]].
Defined.
